(** * ubchat indexer: chunking, enrichment, embedding and orchestration

    A shallow embedding of [src/indexer]: the text chunker
    ([chunking/text_chunker.py]), the context generator
    ([context/context_generator.py]), the embedding generator
    ([embeddings/embedding_generator.py]) and the document indexer
    ([main_indexer.py]), with the properties the specification states
    about them.

    Conventions.  A Python [str] is the list of its code points, each
    below 256 ([ascii]); a Python [int] is a [Z] where it can be negative
    and a [nat] where the code obtains it from [len], [enumerate] or a
    counter; a [dict] with string keys is a [gmap string _]; an external
    service is a transition function on an abstract service state, with
    [None] for a raised exception. *)

From Stdlib Require Import ZArith Lia Ascii String List DecimalString DecimalNat.
From Corelib Require Import PrimFloat.
From stdpp Require Import base option list gmap strings.

Set Warnings "-register-all".
Local Open Scope Z_scope.
Local Open Scope list_scope.

(** ** Python values and strings *)

Module PyStr.

(** A [str] as the sequence of its code points. *)
Abbreviation str := (list ascii).

(** A literal, written as a Rocq string. *)
Definition py (s : string) : str := list_ascii_of_string s.

(** Line feed, [chr(10)]. *)
Definition LF : ascii := ascii_of_nat 10.

(** [len(s)]. *)
Definition len {A} (l : list A) : Z := Z.of_nat (length l).

(** [c.isspace()] for a code point below 256: the ASCII controls
    9..13 and 28..31, the space, NEL (133) and the no-break space (160). *)
Definition isspace (c : ascii) : bool :=
  let n := nat_of_ascii c in
  ((9 <=? n) && (n <=? 13) || (28 <=? n) && (n <=? 32)
   || (n =? 133) || (n =? 160))%nat.

(** [s.lstrip()]. *)
Fixpoint lstrip (s : str) : str :=
  match s with
  | c :: s' => if isspace c then lstrip s' else s
  | [] => []
  end.

(** [s.rstrip()]. *)
Fixpoint rstrip (s : str) : str :=
  match s with
  | [] => []
  | c :: s' =>
      match rstrip s' with
      | [] => if isspace c then [] else [c]
      | r => c :: r
      end
  end.

(** [s.strip()]. *)
Definition strip (s : str) : str := rstrip (lstrip s).

(** A string is truthy when it is not empty ([if chunk_text:]). *)
Definition nonempty {A} (l : list A) : bool :=
  match l with [] => false | _ => true end.

(** [s.startswith(p)]. *)
Fixpoint startswith (p s : str) : bool :=
  match p, s with
  | [], _ => true
  | _ :: _, [] => false
  | a :: p', b :: s' => Ascii.eqb a b && startswith p' s'
  end.

(** [sep in s]. *)
Fixpoint contains (sep s : str) : bool :=
  startswith sep s || match s with [] => false | _ :: s' => contains sep s' end.

(** The scan behind [s.split(sep)] for a non-empty [sep]: [skip] counts
    the characters of a separator still to pass over, [cur] holds the
    piece being read, last character first. *)
Fixpoint split_go (sep s : str) (skip : nat) (cur : str) : list str :=
  match s with
  | [] => [rev cur]
  | c :: s' =>
      match skip with
      | S k => split_go sep s' k cur
      | O =>
          if startswith sep s
          then rev cur :: split_go sep s' (length sep - 1) []
          else split_go sep s' 0 (c :: cur)
      end
  end.

(** [s.split(sep)]: the pieces between the occurrences of [sep], read
    left to right without overlap.  Python raises [ValueError] on an empty
    separator; the chunker only passes its four non-empty separators, and
    the model is used at non-empty separators only. *)
Definition split (s sep : str) : list str := split_go sep s 0 [].

(** [sep.join(pieces)]. *)
Fixpoint join (sep : str) (pieces : list str) : str :=
  match pieces with
  | [] => []
  | [p] => p
  | p :: rest => p ++ sep ++ join sep rest
  end.

(** The scan behind [s.split()]: [cur] is the word being read, if any,
    last character first. *)
Fixpoint words_go (s : str) (cur : str) : list str :=
  match s with
  | [] => if nonempty cur then [rev cur] else []
  | c :: s' =>
      if isspace c
      then (if nonempty cur then rev cur :: words_go s' [] else words_go s' [])
      else words_go s' (c :: cur)
  end.

(** [s.split()]: the maximal runs of characters that are not whitespace. *)
Definition split_whitespace (s : str) : list str := words_go s [].

(** [c in ".!?"]. *)
Definition is_sentence_end (c : ascii) : bool :=
  Ascii.eqb c "."%char || Ascii.eqb c "!"%char || Ascii.eqb c "?"%char.

(** The scan behind [re.split(r'(?<=[.!?])\s+', s)].  [prev_end] tells
    that the previous character is one of [.!?]; [in_sep] that a matched
    run of whitespace is being passed over. *)
Fixpoint sentences_go (s : str) (prev_end in_sep : bool) (cur : str) : list str :=
  match s with
  | [] => [rev cur]
  | c :: s' =>
      if isspace c then
        if in_sep then sentences_go s' false true cur
        else if prev_end then rev cur :: sentences_go s' false true []
        else sentences_go s' false false (c :: cur)
      else sentences_go s' (is_sentence_end c) false (c :: cur)
  end.

(** [re.split(r'(?<=[.!?])\s+', s)]: a whitespace run matches where it
    directly follows a sentence-ending mark (a run starts after a
    non-space character, so a match is always a whole run). *)
Definition split_sentences (s : str) : list str := sentences_go s false false [].

(** How Python reads a slice bound [i] on a sequence of length [n]:
    a negative bound counts from the end, and the result is clipped to
    [0..n]. *)
Definition clamp_index (n i : Z) : Z :=
  let i' := if i <? 0 then i + n else i in
  if i' <? 0 then 0 else if n <? i' then n else i'.

(** [l[i:j]]. *)
Definition slice {A} (l : list A) (i j : Z) : list A :=
  let n := len l in
  let a := clamp_index n i in
  let b := clamp_index n j in
  take (Z.to_nat (b - a)) (drop (Z.to_nat a) l).

(** Index of the first occurrence of [sub] in [s]. *)
Fixpoint find_first (sub s : str) : option nat :=
  if startswith sub s then Some 0%nat
  else match s with
       | [] => None
       | _ :: s' => S <$> find_first sub s'
       end.

(** [s.find(sub, start)]: the lowest index at or after [start] where
    [sub] occurs, [-1] when there is none. *)
Definition find (s sub : str) (start : Z) : Z :=
  let n := len s in
  let a := (if start <? 0 then Z.max 0 (start + n) else start) in
  if n <? a then -1
  else match find_first sub (drop (Z.to_nat a) s) with
       | Some k => a + Z.of_nat k
       | None => -1
       end.

(** Index of the last occurrence of the character [c] in [l]. *)
Fixpoint last_index (c : ascii) (l : str) : option nat :=
  match l with
  | [] => None
  | x :: l' =>
      match last_index c l' with
      | Some k => Some (S k)
      | None => if Ascii.eqb x c then Some 0%nat else None
      end
  end.

(** [s.rfind(c, start, end)] for a one-character [c]: the highest index
    in [s[start:end]] holding [c], [-1] when there is none. *)
Definition rfind (s : str) (c : ascii) (start end_ : Z) : Z :=
  let n := len s in
  let a := clamp_index n start in
  match last_index c (slice s start end_) with
  | Some k => a + Z.of_nat k
  | None => -1
  end.

(** [s.replace("\n", " ")]. *)
Definition replace_newlines (s : str) : str :=
  map (fun c => if Ascii.eqb c LF then " "%char else c) s.

(** [str(n)] for a non-negative integer. *)
Definition str_of_nat (n : nat) : str :=
  list_ascii_of_string (NilZero.string_of_uint (Nat.to_uint n)).

(** A value a [dict] read from the database or parsed from JSON can hold. *)
Inductive pyval : Type :=
| PNone
| PBool (b : bool)
| PInt (z : Z)
| PFloat (f : float)
| PStr (s : str)
| PList (l : list pyval)
| PDict (d : list (string * pyval)).

(** [isinstance(v, (str, int, float, bool))]. *)
Definition is_scalar (v : pyval) : bool :=
  match v with
  | PStr _ | PInt _ | PFloat _ | PBool _ => true
  | PNone | PList _ | PDict _ => false
  end.

End PyStr.

(** ** The text chunker ([chunking/text_chunker.py]) *)

Module TextChunker.
Import PyStr.

(** [ChunkingSettings] of [config.py]. *)
Record ChunkingSettings : Type := {
  chunk_size : Z;
  chunk_overlap : Z;
  max_chunk_size : Z
}.

Inductive ChunkStrategy : Type := FIXED_SIZE | SEMANTIC | RECURSIVE | SENTENCE.

Record Chunk : Type := {
  text : str;
  chunk_index : nat;
  doc_id : str;
  start_char : Z;
  end_char : Z;
  token_count : nat;
  metadata : gmap string pyval
}.

(** [{**metadata, "strategy": tag}]. *)
Definition with_strategy (metadata : gmap string pyval) (tag : string)
  : gmap string pyval :=
  <["strategy" := PStr (py tag)]> metadata.

(** [enumerate(l)]. *)
Definition enumerate {A} (l : list A) : list (nat * A) :=
  combine (seq 0 (length l)) l.

Section Chunker.

(** [self.count_tokens]: the length of the tokenizer's encoding of a
    text.  The tokenizer (tiktoken) is external. *)
Variable count_tokens : str -> nat.
Variable settings : ChunkingSettings.

(** *** Fixed size with overlap *)

(** The state of the [while] loop of [_chunk_fixed_size]. *)
Record fixed_state : Type := {
  fs_start : Z;
  fs_chunk_index : nat;
  fs_chunks : list Chunk
}.

(** The end of the window that starts at [start]: [start + chunk_size],
    pulled back to the last space of the window when the window ends
    inside the text and that space lies after [start]. *)
Definition window_end (text : str) (start : Z) : Z :=
  let end_ := start + chunk_size settings in
  if end_ <? len text then
    let last_space := rfind text " "%char start end_ in
    if start <? last_space then last_space else end_
  else end_.

(** [start = end - overlap if end - overlap > start else end]. *)
Definition next_start (start end_ : Z) : Z :=
  let overlap := chunk_overlap settings in
  if start <? end_ - overlap then end_ - overlap else end_.

(** One iteration of the loop body. *)
Definition fixed_step (text doc_id : str) (metadata : gmap string pyval)
  (st : fixed_state) : fixed_state :=
  let start := fs_start st in
  let end_ := window_end text start in
  let chunk_text := strip (slice text start end_) in
  let start' := next_start start end_ in
  if nonempty chunk_text then
    let chunk := {| text := chunk_text;
                    chunk_index := fs_chunk_index st;
                    doc_id := doc_id;
                    start_char := start;
                    end_char := end_;
                    token_count := count_tokens chunk_text;
                    metadata := with_strategy metadata "fixed_size" |} in
    {| fs_start := start';
       fs_chunk_index := S (fs_chunk_index st);
       fs_chunks := fs_chunks st ++ [chunk] |}
  else
    {| fs_start := start';
       fs_chunk_index := fs_chunk_index st;
       fs_chunks := fs_chunks st |}.

(** [while start < len(text): ...], run for at most [fuel] iterations:
    [None] when the loop is still running after them. *)
Fixpoint fixed_loop (fuel : nat) (text doc_id : str)
  (metadata : gmap string pyval) (st : fixed_state) : option (list Chunk) :=
  if fs_start st <? len text then
    match fuel with
    | O => None
    | S fuel' => fixed_loop fuel' text doc_id metadata
                   (fixed_step text doc_id metadata st)
    end
  else Some (fs_chunks st).

Definition fixed_init : fixed_state :=
  {| fs_start := 0; fs_chunk_index := 0; fs_chunks := [] |}.

Definition _chunk_fixed_size (fuel : nat) (text doc_id : str)
  (metadata : gmap string pyval) : option (list Chunk) :=
  fixed_loop fuel text doc_id metadata fixed_init.

(** *** Recursive structural split *)

Definition separators : list str := [[LF; LF]; [LF]; py ". "; py " "].

(** [if current_chunk: result.append(separator.join(current_chunk))]. *)
Definition flush (separator : str) (result current_chunk : list str) : list str :=
  if nonempty current_chunk then result ++ [join separator current_chunk]
  else result.

(** The [for split in splits] loop of [_split_text], with [recurse] the
    call on the remaining separators. *)
Fixpoint split_loop (recurse : str -> list str) (separator : str)
  (splits result current_chunk : list str) (current_size : nat) : list str :=
  match splits with
  | [] => flush separator result current_chunk
  | split :: rest =>
      let split_tokens := count_tokens split in
      if chunk_size settings <? Z.of_nat split_tokens then
        let result' := flush separator result current_chunk ++ recurse split in
        if nonempty current_chunk
        then split_loop recurse separator rest result' [] 0
        else split_loop recurse separator rest result' current_chunk current_size
      else if chunk_size settings <? Z.of_nat (current_size + split_tokens) then
        if nonempty current_chunk
        then split_loop recurse separator rest
               (result ++ [join separator current_chunk]) [split] split_tokens
        else split_loop recurse separator rest result current_chunk current_size
      else split_loop recurse separator rest result
             (current_chunk ++ [split]) (current_size + split_tokens)
  end.

Fixpoint _split_text (separators : list str) (text : str) : list str :=
  match separators with
  | [] => [text]
  | separator :: remaining_separators =>
      if Z.of_nat (count_tokens text) <=? chunk_size settings then [text]
      else split_loop (_split_text remaining_separators) separator
             (split text separator) [] [] 0
  end.

(** The loop of [_chunk_recursive] that builds the [Chunk] objects. *)
Fixpoint recursive_loop (text doc_id : str) (metadata : gmap string pyval)
  (items : list (nat * str)) (chunks : list Chunk) (char_position : Z)
  : list Chunk :=
  match items with
  | [] => chunks
  | (chunk_index, chunk_text) :: rest =>
      let chunk_text := strip chunk_text in
      if nonempty chunk_text then
        let start_char := find text chunk_text char_position in
        let end_char := start_char + len chunk_text in
        let chunk := {| text := chunk_text;
                        chunk_index := chunk_index;
                        doc_id := doc_id;
                        start_char := start_char;
                        end_char := end_char;
                        token_count := count_tokens chunk_text;
                        metadata := with_strategy metadata "recursive" |} in
        recursive_loop text doc_id metadata rest (chunks ++ [chunk]) end_char
      else recursive_loop text doc_id metadata rest chunks char_position
  end.

Definition _chunk_recursive (text doc_id : str) (metadata : gmap string pyval)
  : list Chunk :=
  recursive_loop text doc_id metadata
    (enumerate (_split_text separators text)) [] 0.

(** *** Sentence-bounded split *)

(** What the loops of [_chunk_by_sentence] write: the chunks so far, the
    next index, and the offset the next search starts from. *)
Record out_state : Type := {
  os_chunks : list Chunk;
  os_chunk_index : nat;
  os_char_position : Z
}.

(** The block the function repeats at each of its four emission points:
    join the pieces with a space, locate the text, append the chunk and
    advance the index and the search offset. *)
Definition emit (text doc_id : str) (metadata : gmap string pyval)
  (pieces : list str) (tokens : nat) (o : out_state) : out_state :=
  let chunk_text := join (py " ") pieces in
  let start_char := find text chunk_text (os_char_position o) in
  let end_char := start_char + len chunk_text in
  let chunk := {| text := chunk_text;
                  chunk_index := os_chunk_index o;
                  doc_id := doc_id;
                  start_char := start_char;
                  end_char := end_char;
                  token_count := tokens;
                  metadata := with_strategy metadata "sentence" |} in
  {| os_chunks := os_chunks o ++ [chunk];
     os_chunk_index := S (os_chunk_index o);
     os_char_position := end_char |}.

(** [if pieces: emit]. *)
Definition emit_if (text doc_id : str) (metadata : gmap string pyval)
  (pieces : list str) (tokens : nat) (o : out_state) : out_state :=
  if nonempty pieces then emit text doc_id metadata pieces tokens o else o.

(** [for word in words] over a sentence that exceeds the budget. *)
Fixpoint word_loop (text doc_id : str) (metadata : gmap string pyval)
  (words : list str) (o : out_state) (temp_chunk : list str)
  (temp_tokens : nat) : out_state * list str * nat :=
  match words with
  | [] => (o, temp_chunk, temp_tokens)
  | word :: rest =>
      let word_tokens := count_tokens word in
      if chunk_size settings <? Z.of_nat (temp_tokens + word_tokens) then
        word_loop text doc_id metadata rest
          (emit_if text doc_id metadata temp_chunk temp_tokens o)
          [word] word_tokens
      else
        word_loop text doc_id metadata rest o
          (temp_chunk ++ [word]) (temp_tokens + word_tokens)
  end.

(** [for sentence in sentences]. *)
Fixpoint sentence_loop (text doc_id : str) (metadata : gmap string pyval)
  (sentences : list str) (o : out_state) (current_chunk : list str)
  (current_tokens : nat) : out_state * list str * nat :=
  match sentences with
  | [] => (o, current_chunk, current_tokens)
  | sentence :: rest =>
      let sentence := strip sentence in
      if nonempty sentence then
        let sentence_tokens := count_tokens sentence in
        if chunk_size settings <? Z.of_nat sentence_tokens then
          let o1 := emit_if text doc_id metadata current_chunk current_tokens o in
          let '(current_chunk1, current_tokens1) :=
            if nonempty current_chunk then ([], 0%nat)
            else (current_chunk, current_tokens) in
          let '(o2, temp_chunk, temp_tokens) :=
            word_loop text doc_id metadata (split_whitespace sentence) o1 [] 0 in
          if nonempty temp_chunk
          then sentence_loop text doc_id metadata rest o2 temp_chunk temp_tokens
          else sentence_loop text doc_id metadata rest o2
                 current_chunk1 current_tokens1
        else if chunk_size settings <? Z.of_nat (current_tokens + sentence_tokens) then
          sentence_loop text doc_id metadata rest
            (emit_if text doc_id metadata current_chunk current_tokens o)
            [sentence] sentence_tokens
        else
          sentence_loop text doc_id metadata rest o
            (current_chunk ++ [sentence]) (current_tokens + sentence_tokens)
      else sentence_loop text doc_id metadata rest o current_chunk current_tokens
  end.

Definition out_init : out_state :=
  {| os_chunks := []; os_chunk_index := 0; os_char_position := 0 |}.

Definition _chunk_by_sentence (text doc_id : str)
  (metadata : gmap string pyval) : list Chunk :=
  let '(o, current_chunk, current_tokens) :=
    sentence_loop text doc_id metadata (split_sentences text) out_init [] 0 in
  os_chunks (emit_if text doc_id metadata current_chunk current_tokens o).

(** The semantic strategy falls back on the recursive one. *)
Definition _chunk_semantic (text doc_id : str) (metadata : gmap string pyval)
  : list Chunk :=
  _chunk_recursive text doc_id metadata.

(** [chunk_document]; [strategy] is [self.strategy].  [None] only when
    the fixed-size loop is still running after [fuel] iterations.  The
    strategy type is closed, so the [ValueError] branch has no case. *)
Definition chunk_document (fuel : nat) (strategy : ChunkStrategy)
  (text doc_id : str) (metadata : option (gmap string pyval))
  : option (list Chunk) :=
  let metadata := default ∅ metadata in
  match strategy with
  | FIXED_SIZE => _chunk_fixed_size fuel text doc_id metadata
  | SEMANTIC => Some (_chunk_semantic text doc_id metadata)
  | RECURSIVE => Some (_chunk_recursive text doc_id metadata)
  | SENTENCE => Some (_chunk_by_sentence text doc_id metadata)
  end.

End Chunker.

(** A stand-in for the tokenizer, to run the chunker on examples: one
    token per word and one per run of line feeds. *)
Fixpoint newline_runs (s : str) (in_run : bool) : nat :=
  match s with
  | [] => 0
  | c :: s' =>
      if Ascii.eqb c LF
      then (if in_run then newline_runs s' true else S (newline_runs s' true))
      else newline_runs s' false
  end.

Definition word_tokens (s : str) : nat :=
  (length (split_whitespace s) + newline_runs s false)%nat.

End TextChunker.

(** ** Calls that are retried *)

Module Retry.

(** [@retry(stop=stop_after_attempt(n))] around a call to a service in
    state [w]: the call is repeated until it returns, at most [attempts]
    times; [None] when every attempt raised.  The waits between attempts
    are not modelled. *)
Fixpoint retry {W A : Type} (attempts : nat) (call : W -> W * option A)
  (w : W) : W * option A :=
  match attempts with
  | O => (w, None)
  | S n =>
      match call w with
      | (w', Some a) => (w', Some a)
      | (w', None) => retry n call w'
      end
  end.

End Retry.

(** ** The context generator ([context/context_generator.py]) *)

Module ContextGenerator.
Import PyStr TextChunker Retry.

(** [EnrichedChunk], with its fields at the types the dataclass
    declares. *)
Record EnrichedChunk : Type := {
  original_chunk : Chunk;
  contextual_summary : str;
  key_concepts : list str;
  keywords : list str;
  topic : str;
  questions : list str;
  enhanced_text : str
}.

(** An [EnrichedChunk] object as [generate_context_for_chunk] builds
    it.  The dataclass does not check its fields: the five that are
    read from the reply hold whatever value the reply has under their
    key. *)
Record EnrichedObject : Type := {
  obj_original_chunk : Chunk;
  obj_contextual_summary : pyval;
  obj_key_concepts : pyval;
  obj_keywords : pyval;
  obj_topic : pyval;
  obj_questions : pyval;
  obj_enhanced_text : str
}.

(** A value that is a [str], and one that is a list of [str]. *)
Definition as_str (v : pyval) : option str :=
  match v with PStr s => Some s | _ => None end.

Definition as_str_list (v : pyval) : option (list str) :=
  match v with PList l => mapM as_str l | _ => None end.

(** The object read at the declared types, when its fields have them. *)
Definition as_declared (o : EnrichedObject) : option EnrichedChunk :=
  match as_str (obj_contextual_summary o), as_str_list (obj_key_concepts o),
        as_str_list (obj_keywords o), as_str (obj_topic o),
        as_str_list (obj_questions o) with
  | Some cs, Some kc, Some kw, Some tp, Some qs =>
      Some {| original_chunk := obj_original_chunk o;
              contextual_summary := cs;
              key_concepts := kc;
              keywords := kw;
              topic := tp;
              questions := qs;
              enhanced_text := obj_enhanced_text o |}
  | _, _, _, _, _ => None
  end.

(** [re.search(r'\{.*\}', content, re.DOTALL).group()]: from the first
    opening brace to the last closing brace after it. *)
Fixpoint upto_last_brace (s : str) : option str :=
  match s with
  | [] => None
  | c :: s' =>
      match upto_last_brace s' with
      | Some r => Some (c :: r)
      | None => if Ascii.eqb c "}"%char then Some [c] else None
      end
  end.

Fixpoint search_braces (content : str) : option str :=
  match content with
  | [] => None
  | c :: s' =>
      if Ascii.eqb c "{"%char
      then (fun r => c :: r) <$> upto_last_brace s'
      else search_braces s'
  end.

(** The value a key of a dict holds (the items of a dict hold a key
    once). *)
Fixpoint dict_lookup (d : list (string * pyval)) (key : string)
  : option pyval :=
  match d with
  | [] => None
  | (k, v) :: rest => if String.eqb k key then Some v else dict_lookup rest key
  end.

(** [result.get(key, default)]; [None] is the [AttributeError] of a
    value that is not a dict. *)
Definition value_get (result : pyval) (key : string) (dflt : pyval)
  : option pyval :=
  match result with
  | PDict d => Some (default dflt (dict_lookup d key))
  | _ => None
  end.

(** What iterating over a value yields: the elements of a list, the
    characters of a [str], the keys of a dict; [None] is the
    [TypeError] of a value that is not iterable. *)
Definition iterate (v : pyval) : option (list pyval) :=
  match v with
  | PList l => Some l
  | PStr s => Some (map (fun c => PStr [c]) s)
  | PDict d => Some (map (fun kv => PStr (py kv.1)) d)
  | PNone | PBool _ | PInt _ | PFloat _ => None
  end.

(** [sep.join(v)]; [None] is the [TypeError] of a value that is not
    iterable or yields something that is not a [str]. *)
Definition join_value (sep : str) (v : pyval) : option str :=
  match iterate v with
  | Some items =>
      match mapM as_str items with
      | Some pieces => Some (join sep pieces)
      | None => None
      end
  | None => None
  end.

(** The [EnrichedChunk] of the [except] branch, as the object built
    and at the declared types. *)
Definition fallback_object (chunk : Chunk) : EnrichedObject :=
  {| obj_original_chunk := chunk;
     obj_contextual_summary := PStr (py "Erro ao gerar contexto");
     obj_key_concepts := PList [];
     obj_keywords := PList [];
     obj_topic := PStr (py "Desconhecido");
     obj_questions := PList [];
     obj_enhanced_text := text chunk |}.

Definition fallback_chunk (chunk : Chunk) : EnrichedChunk :=
  {| original_chunk := chunk;
     contextual_summary := py "Erro ao gerar contexto";
     key_concepts := [];
     keywords := [];
     topic := py "Desconhecido";
     questions := [];
     enhanced_text := text chunk |}.

Section Generator.

(** The state of the text-generation services and their calls: the
    content of the reply, or [None] when the client raises. *)
Variable W : Type.
Variable openai_chat : W -> str -> W * option str.
Variable anthropic_messages : W -> str -> W * option str.

(** [eval(content)], which evaluates the reply as a Python expression,
    and [json.loads(text)]: the value read, or [None] when reading
    raises.  The values are those of [pyval]; a reply whose evaluation
    gives an object of another kind, or does more than compute a value,
    is not modelled. *)
Variable eval_content : str -> option pyval.
Variable json_loads : str -> option pyval.

(** [str(v)] for a value that is not a [str], as an f-string prints
    it. *)
Variable str_of_value : pyval -> str.

(** The three prompt templates, each as its [.format(text=...,
    doc_context=...)]; the wording of the prompts is left open. *)
Variable prompt_default prompt_detailed prompt_technical : str -> str -> str.

(** [self.use_provider]. *)
Variable use_provider : string.

(** [self.prompts.get(template, self.prompts["default"])]. *)
Definition prompts_get (template : string) : str -> str -> str :=
  if String.eqb template "detailed" then prompt_detailed
  else if String.eqb template "technical" then prompt_technical
  else prompt_default.

(** One attempt of [_call_openai]: it raises when the client raises or
    [eval] does, and returns whatever value [eval] read otherwise. *)
Definition openai_attempt (prompt : str) (w : W) : W * option pyval :=
  match openai_chat w prompt with
  | (w', Some content) => (w', eval_content content)
  | (w', None) => (w', None)
  end.

Definition _call_openai (prompt : str) (w : W) : W * option pyval :=
  retry 3 (openai_attempt prompt) w.

(** One attempt of [_call_anthropic]: it raises when the client
    raises, when the reply holds no braces and when [json.loads]
    raises. *)
Definition anthropic_attempt (prompt : str) (w : W) : W * option pyval :=
  match anthropic_messages w prompt with
  | (w', Some content) =>
      match search_braces content with
      | Some json => (w', json_loads json)
      | None => (w', None)
      end
  | (w', None) => (w', None)
  end.

Definition _call_anthropic (prompt : str) (w : W) : W * option pyval :=
  retry 3 (anthropic_attempt prompt) w.

(** [doc_context or "Nao especificado"] (227 is the a with tilde). *)
Definition doc_context_or_default (doc_context : option str) : str :=
  match doc_context with
  | Some (c :: s) => c :: s
  | _ => py "N" ++ [ascii_of_nat 227] ++ py "o especificado"
  end.

Definition call_llm (prompt : str) (w : W) : W * option pyval :=
  if String.eqb use_provider "openai" then _call_openai prompt w
  else _call_anthropic prompt w.

(** [f"{v}"]. *)
Definition fstring (v : pyval) : str :=
  match v with PStr s => s | _ => str_of_value v end.

(** [chr(10).join(f"- {q}" for q in v)]. *)
Definition question_lines (v : pyval) : option str :=
  match iterate v with
  | Some items => Some (join [LF] (map (fun q => py "- " ++ fstring q) items))
  | None => None
  end.

(** [_create_enhanced_text]: the fixed layout of the text that is
    embedded; [None] when reading or joining a field of [context]
    raises.  211 and 218 are the code points of the accented capitals
    of TOPICO and CONTEUDO. *)
Definition _create_enhanced_text (chunk : Chunk) (context : pyval)
  : option str :=
  match value_get context "contextual_summary" (PStr []),
        value_get context "topic" (PStr []),
        value_get context "key_concepts" (PList []),
        value_get context "questions" (PList []),
        value_get context "keywords" (PList []) with
  | Some summary, Some topic, Some concepts, Some questions, Some keywords =>
      match join_value (py ", ") concepts, question_lines questions,
            join_value (py ", ") keywords with
      | Some concepts_text, Some questions_text, Some keywords_text =>
          Some (py "CONTEXTO: " ++ fstring summary
                ++ [LF; LF] ++ py "T" ++ [ascii_of_nat 211] ++ py "PICO: "
                ++ fstring topic
                ++ [LF; LF] ++ py "CONCEITOS-CHAVE: " ++ concepts_text
                ++ [LF; LF] ++ py "CONTE" ++ [ascii_of_nat 218] ++ py "DO:"
                ++ [LF] ++ text chunk
                ++ [LF; LF] ++ py "PERGUNTAS RELACIONADAS:" ++ [LF]
                ++ questions_text
                ++ [LF; LF] ++ py "PALAVRAS-CHAVE: " ++ keywords_text)
      | _, _, _ => None
      end
  | _, _, _, _, _ => None
  end.

(** The [try] block after the call: the enhanced text, then the object
    with the fields read from [result]; [None] when a step raises. *)
Definition build_enriched (chunk : Chunk) (result : pyval)
  : option EnrichedObject :=
  match _create_enhanced_text chunk result,
        value_get result "contextual_summary" (PStr []),
        value_get result "key_concepts" (PList []),
        value_get result "keywords" (PList []),
        value_get result "topic" (PStr []),
        value_get result "questions" (PList []) with
  | Some enhanced, Some summary, Some concepts, Some keywords_, Some topic_,
    Some questions_ =>
      Some {| obj_original_chunk := chunk;
              obj_contextual_summary := summary;
              obj_key_concepts := concepts;
              obj_keywords := keywords_;
              obj_topic := topic_;
              obj_questions := questions_;
              obj_enhanced_text := enhanced |}
  | _, _, _, _, _, _ => None
  end.

(** [generate_context_for_chunk]: an exception of the call (after its
    retries) or of the steps after it gives the object of the [except]
    branch. *)
Definition generate_context_for_chunk (chunk : Chunk)
  (doc_context : option str) (template : string) (w : W)
  : W * EnrichedObject :=
  let prompt := prompts_get template (text chunk)
                  (doc_context_or_default doc_context) in
  match call_llm prompt w with
  | (w', Some result) =>
      (w', default (fallback_object chunk) (build_enriched chunk result))
  | (w', None) => (w', fallback_object chunk)
  end.

Fixpoint generate_contexts_batch (chunks : list Chunk)
  (doc_context : option str) (template : string) (w : W)
  : W * list EnrichedObject :=
  match chunks with
  | [] => (w, [])
  | chunk :: rest =>
      let '(w1, enriched_chunk) :=
        generate_context_for_chunk chunk doc_context template w in
      let '(w2, enriched_chunks) :=
        generate_contexts_batch rest doc_context template w1 in
      (w2, enriched_chunk :: enriched_chunks)
  end.

(** [generate_document_summary]: one call, not retried; the head and the
    tail of a long text; a fixed sentence when the call raises. *)
Variable summary_prompt : Z -> str -> str.

Definition text_sample (full_text : str) : str :=
  if 10000 <? len full_text
  then slice full_text 0 5000 ++ [LF] ++ py "..." ++ [LF]
       ++ drop (Z.to_nat (len full_text - 5000)) full_text
  else full_text.

Definition generate_document_summary (full_text : str) (max_length : Z)
  (w : W) : W * str :=
  let prompt := summary_prompt max_length (text_sample full_text) in
  let '(w', reply) :=
    if String.eqb use_provider "openai" then openai_chat w prompt
    else anthropic_messages w prompt in
  match reply with
  | Some content => (w', strip content)
  | None => (w', py "Documento sem resumo dispon" ++ [ascii_of_nat 237] ++ py "vel")
  end.

End Generator.
End ContextGenerator.

(** ** The embedding generator ([embeddings/embedding_generator.py]) *)

Module EmbeddingGenerator.
Import PyStr TextChunker ContextGenerator Retry.

(** An embedding: a list of floats. *)
Abbreviation vector := (list float).

(** The dict the two constructors return: [{id, values, metadata}]. *)
Record VectorRecord : Type := {
  vr_id : str;
  vr_values : vector;
  vr_metadata : gmap string pyval
}.

(** [_get_embedding_dimension]. *)
Definition _get_embedding_dimension (model : string) : nat :=
  if String.eqb model "text-embedding-3-small" then 1536
  else if String.eqb model "text-embedding-3-large" then 3072
  else if String.eqb model "text-embedding-ada-002" then 1536
  else 1536.

(** [text.replace("\n", " ").strip()]. *)
Definition clean (text : str) : str := strip (replace_newlines text).

(** The metadata both constructors build: the fields of the chunk and
    of its enrichment, then the inherited pairs with a scalar value,
    which win on a shared key (they come last in the dict display). *)
Definition base_metadata (enriched_chunk : EnrichedChunk) : gmap string pyval :=
  let chunk := original_chunk enriched_chunk in
  <["doc_id" := PStr (doc_id chunk)]>
  (<["chunk_index" := PInt (Z.of_nat (chunk_index chunk))]>
  (<["start_char" := PInt (start_char chunk)]>
  (<["end_char" := PInt (end_char chunk)]>
  (<["token_count" := PInt (Z.of_nat (token_count chunk))]>
  (<["text" := PStr (slice (text chunk) 0 1000)]>
  (<["contextual_summary" := PStr (contextual_summary enriched_chunk)]>
  (<["topic" := PStr (topic enriched_chunk)]>
  (<["key_concepts" :=
       PStr (join (py ", ") (slice (key_concepts enriched_chunk) 0 5))]>
  (<["keywords" :=
       PStr (join (py ", ") (slice (keywords enriched_chunk) 0 10))]>
  (<["questions" :=
       PStr (join (py " | ") (slice (questions enriched_chunk) 0 3))]>
   ∅)))))))))).

Definition scalar_items (m : gmap string pyval) : gmap string pyval :=
  filter (fun kv => is_scalar kv.2 = true) m.

Definition record_metadata (enriched_chunk : EnrichedChunk) : gmap string pyval :=
  scalar_items (metadata (original_chunk enriched_chunk))
  ∪ base_metadata enriched_chunk.

(** [f"{doc_id}_{chunk_index}"]. *)
Definition vector_id (enriched_chunk : EnrichedChunk) : str :=
  doc_id (original_chunk enriched_chunk) ++ py "_"
  ++ str_of_nat (chunk_index (original_chunk enriched_chunk)).

(** The text that is embedded. *)
Definition text_for_embedding (use_enhanced_text : bool)
  (enriched_chunk : EnrichedChunk) : str :=
  if use_enhanced_text then enhanced_text enriched_chunk
  else text (original_chunk enriched_chunk).

Section Generator.

(** The embedding service: a request holds the input texts, a reply the
    embeddings of [response.data], or [None] when the client raises. *)
Variable E : Type.
Variable embeddings_create : E -> list str -> E * option (list vector).

(** [self.model] and [self.dimension]. *)
Variable model : string.
Definition dimension : nat := _get_embedding_dimension model.

(** One attempt of [generate_embedding]: [response.data[0].embedding],
    which raises on an empty [data]. *)
Definition embedding_attempt (text : str) (e : E) : E * option vector :=
  match embeddings_create e [clean text] with
  | (e', Some (embedding :: _)) => (e', Some embedding)
  | (e', _) => (e', None)
  end.

Definition generate_embedding (text : str) (e : E) : E * option vector :=
  retry 3 (embedding_attempt text) e.

(** [[0.0] * self.dimension]. *)
Definition zero_vector : vector := replicate dimension PrimFloat.zero.

(** The inner loop of the [except] branch: each text on its own, a zero
    vector where that fails too. *)
Fixpoint embed_individually (batch_texts : list str) (e : E) : E * list vector :=
  match batch_texts with
  | [] => (e, [])
  | text :: rest =>
      let '(e1, r) := generate_embedding text e in
      let '(e2, vs) := embed_individually rest e1 in
      (e2, default zero_vector r :: vs)
  end.

(** The body of the loop over the batches for [batch_texts]. *)
Definition embed_group (batch_texts : list str) (e : E) : E * list vector :=
  match embeddings_create e (map clean batch_texts) with
  | (e', Some batch_embeddings) => (e', batch_embeddings)
  | (e', None) => embed_individually batch_texts e'
  end.

(** [for i in range(num_batches)], over the indices [batches]. *)
Fixpoint batch_loop (texts : list str) (batch_size : Z) (batches : list nat)
  (e : E) : E * list vector :=
  match batches with
  | [] => (e, [])
  | i :: rest =>
      let start_idx := Z.of_nat i * batch_size in
      let end_idx := Z.min ((Z.of_nat i + 1) * batch_size) (len texts) in
      let batch_texts := slice texts start_idx end_idx in
      let '(e1, vs) := embed_group batch_texts e in
      let '(e2, ws) := batch_loop texts batch_size rest e1 in
      (e2, vs ++ ws)
  end.

(** [generate_embeddings_batch]; [None] is the [ZeroDivisionError] of
    [// batch_size] at zero. *)
Definition generate_embeddings_batch (texts : list str) (batch_size : Z)
  (e : E) : E * option (list vector) :=
  if batch_size =? 0 then (e, None)
  else
    let num_batches := (len texts + batch_size - 1) / batch_size in
    let '(e', all_embeddings) :=
      batch_loop texts batch_size (seq 0 (Z.to_nat num_batches)) e in
    (e', Some all_embeddings).

(** [create_vector_for_enriched_chunk]; [None] when [generate_embedding]
    raises. *)
Definition create_vector_for_enriched_chunk (enriched_chunk : EnrichedChunk)
  (use_enhanced_text : bool) (e : E) : E * option VectorRecord :=
  match generate_embedding
          (text_for_embedding use_enhanced_text enriched_chunk) e with
  | (e', Some embedding) =>
      (e', Some {| vr_id := vector_id enriched_chunk;
                   vr_values := embedding;
                   vr_metadata := record_metadata enriched_chunk |})
  | (e', None) => (e', None)
  end.

(** [create_vectors_batch]: the embeddings of the whole list with the
    default batch size of 100, then one record per pair of [zip]. *)
Definition create_vectors_batch (enriched_chunks : list EnrichedChunk)
  (use_enhanced_text : bool) (e : E) : E * option (list VectorRecord) :=
  let texts := map (text_for_embedding use_enhanced_text) enriched_chunks in
  match generate_embeddings_batch texts 100 e with
  | (e', Some embeddings) =>
      (e', Some (map (fun '(enriched_chunk, embedding) =>
                        {| vr_id := vector_id enriched_chunk;
                           vr_values := embedding;
                           vr_metadata := record_metadata enriched_chunk |})
                     (combine enriched_chunks embeddings)))
  | (e', None) => (e', None)
  end.

End Generator.
End EmbeddingGenerator.

(** ** The document indexer ([main_indexer.py]) *)

Module DocumentIndexer.
Import PyStr TextChunker ContextGenerator EmbeddingGenerator.

(** A raised exception; [exn_str] is [str(e)]. *)
Inductive exn : Type :=
| ValueError (msg : str)
| TypeError (msg : str)
| ServiceError (msg : str).

Definition exn_str (e : exn) : str :=
  match e with ValueError m | TypeError m | ServiceError m => m end.

(** The outcome of a call that can raise. *)
Inductive result (A : Type) : Type :=
| Ok (a : A)
| Raise (e : exn).
Arguments Ok {A} a.
Arguments Raise {A} e.

(** A computation over the state [W] of the collaborators that returns
    or raises. *)
Definition M (W A : Type) : Type := W -> W * result A.

Definition ret {W A} (a : A) : M W A := fun w => (w, Ok a).
Definition raise {W A} (e : exn) : M W A := fun w => (w, Raise e).
Definition bind {W A B} (m : M W A) (k : A -> M W B) : M W B :=
  fun w => match m w with
           | (w', Ok a) => k a w'
           | (w', Raise e) => (w', Raise e)
           end.
(** A call that cannot raise. *)
Definition lift {W A} (f : W -> W * A) : M W A :=
  fun w => let '(w', a) := f w in (w', Ok a).
(** [try: m  except Exception as e: handler(e)]. *)
Definition try_except {W A} (m : M W A) (handler : exn -> M W A) : M W A :=
  fun w => match m w with
           | (w', Ok a) => (w', Ok a)
           | (w', Raise e) => handler e w'
           end.

Notation "'let*' x ':=' c 'in' k" := (bind c (fun x => k))
  (at level 10, x name, c at level 100, k at level 200).

(** [bool(v)]. *)
Definition truthy (v : pyval) : bool :=
  match v with
  | PNone => false
  | PBool b => b
  | PInt z => negb (z =? 0)
  | PFloat f => negb (PrimFloat.eqb f PrimFloat.zero)
  | PStr s => nonempty s
  | PList l => nonempty l
  | PDict d => nonempty d
  end.

(** The dict [index_document] returns. *)
Record DocStats : Type := {
  ds_doc_id : pyval;
  ds_chunks : nat;
  ds_vectors_upserted : Z;
  ds_total_tokens : nat;
  ds_use_llm_context : bool
}.

(** The dict [index_all_documents] returns; an entry of [errors] is
    [{"doc_id": doc.get("id"), "error": str(e)}]. *)
Record BatchStats : Type := {
  total_documents : nat;
  successful : nat;
  failed : nat;
  total_chunks : nat;
  total_vectors : Z;
  errors : list (pyval * str)
}.

(** [doc.get("id")]: Python's [None] when the key is missing. *)
Definition doc_get_id (doc : gmap string pyval) : pyval :=
  default PNone (doc !! "id").

(** The [EnrichedChunk] built for a chunk when the LLM is not used. *)
Definition basic_chunk (chunk : Chunk) : EnrichedChunk :=
  {| original_chunk := chunk;
     contextual_summary := [];
     key_concepts := [];
     keywords := [];
     topic := [];
     questions := [];
     enhanced_text := text chunk |}.

Section Indexer.

(** The collaborators, over one state [W]: the document source, the
    vector store, the clock, and the three stages of the pipeline as the
    indexer calls them. *)
Variable W : Type.
Variable fetch_document_by_id : pyval -> M W (option (gmap string pyval)).
Variable update_document_status : pyval -> str -> option str -> M W bool.
Variable count_documents : option (gmap string pyval) -> M W Z.
Variable fetch_documents :
  option Z -> option (gmap string pyval) -> M W (list (gmap string pyval)).
Variable upsert_batch : list VectorRecord -> Z -> str -> M W Z.
Variable now_isoformat : W -> str.
Variable chunk_document : str -> str -> gmap string pyval -> M W (list Chunk).
Variable generate_document_summary : str -> W -> W * str.
Variable generate_contexts_batch :
  list Chunk -> option str -> W -> W * list EnrichedChunk.
Variable create_vectors_batch :
  list EnrichedChunk -> bool -> M W (list VectorRecord).

(** [str(v)], as used on a document id. *)
Variable format_value : pyval -> str.

(** [self.use_llm_context]. *)
Variable use_llm_context : bool.

(** The [try] block of [index_document].  A text that is truthy and not
    a [str] makes a later step raise; the model raises where the text is
    first used as one. *)
Definition index_document_body (doc_id : pyval) (text_field : string)
  (namespace : str) (update_oracle_status : bool) : M W DocStats :=
  let* document := fetch_document_by_id doc_id in
  match document with
  | None =>
      raise (ValueError (py "Documento " ++ format_value doc_id ++ py " n"
                         ++ [ascii_of_nat 227] ++ py "o encontrado"))
  | Some document =>
      if decide (document = ∅) then
        raise (ValueError (py "Documento " ++ format_value doc_id ++ py " n"
                           ++ [ascii_of_nat 227] ++ py "o encontrado"))
      else
      let text := default (PStr []) (document !! text_field) in
      if negb (truthy text) then
        raise (ValueError (py "Campo '" ++ py text_field ++ py "' vazio ou n"
                           ++ [ascii_of_nat 227] ++ py "o encontrado"))
      else
      match text with
      | PStr text =>
          let* doc_context :=
            (if use_llm_context
             then lift (fun w => let '(w', s) := generate_document_summary text w
                                 in (w', Some s))
             else ret None) in
          let metadata := delete text_field document in
          let* chunks := chunk_document text (format_value doc_id) metadata in
          let* enriched_chunks :=
            (if use_llm_context
             then lift (generate_contexts_batch chunks doc_context)
             else ret (map basic_chunk chunks)) in
          let* vectors := create_vectors_batch enriched_chunks use_llm_context in
          let* total_upserted := upsert_batch vectors 100 namespace in
          let* _ :=
            (if update_oracle_status
             then fun w => update_document_status doc_id (py "indexed")
                             (Some (now_isoformat w)) w
             else ret true) in
          ret {| ds_doc_id := doc_id;
                 ds_chunks := length chunks;
                 ds_vectors_upserted := total_upserted;
                 ds_total_tokens := sum_list_with token_count chunks;
                 ds_use_llm_context := use_llm_context |}
      | _ => raise (TypeError (py "text is not a str"))
      end
  end.

(** [index_document]: on any exception the status of the document is
    set to [error] (when status updates are on) and the exception is
    raised again; an exception of the status update itself replaces it. *)
Definition index_document (doc_id : pyval) (text_field : string)
  (namespace : str) (update_oracle_status : bool) : M W DocStats :=
  try_except
    (index_document_body doc_id text_field namespace update_oracle_status)
    (fun e =>
       if update_oracle_status
       then let* _ := update_document_status doc_id (py "error") None in raise e
       else raise e).

(** The body of the loop of [index_all_documents] for one document; it
    cannot raise. *)
Definition index_one (doc : gmap string pyval) (text_field : string)
  (namespace : str) (update_oracle_status : bool) (stats : BatchStats)
  (w : W) : W * BatchStats :=
  match index_document (doc_get_id doc) text_field namespace
          update_oracle_status w with
  | (w', Ok result) =>
      (w', {| total_documents := total_documents stats;
              successful := S (successful stats);
              failed := failed stats;
              total_chunks := total_chunks stats + ds_chunks result;
              total_vectors := total_vectors stats + ds_vectors_upserted result;
              errors := errors stats |})
  | (w', Raise e) =>
      (w', {| total_documents := total_documents stats;
              successful := successful stats;
              failed := S (failed stats);
              total_chunks := total_chunks stats;
              total_vectors := total_vectors stats;
              errors := errors stats ++ [(doc_get_id doc, exn_str e)] |})
  end.

(** [for doc in documents]. *)
Fixpoint index_loop (documents : list (gmap string pyval))
  (text_field : string) (namespace : str) (update_oracle_status : bool)
  (stats : BatchStats) (w : W) : W * BatchStats :=
  match documents with
  | [] => (w, stats)
  | doc :: rest =>
      let '(w', stats') :=
        index_one doc text_field namespace update_oracle_status stats w in
      index_loop rest text_field namespace update_oracle_status stats' w'
  end.

Definition initial_stats (documents : list (gmap string pyval)) : BatchStats :=
  {| total_documents := length documents;
     successful := 0;
     failed := 0;
     total_chunks := 0;
     total_vectors := 0;
     errors := [] |}.

Definition index_all_documents (text_field : string) (namespace : str)
  (limit : option Z) (filters : option (gmap string pyval))
  (update_oracle_status : bool) : M W BatchStats :=
  let* total_docs := count_documents filters in
  let* documents := fetch_documents limit filters in
  lift (index_loop documents text_field namespace update_oracle_status
          (initial_stats documents)).

End Indexer.
End DocumentIndexer.

(** ** More string operations *)

Module PyMore.
Import PyStr.

(** [str(i)] for an integer. *)
Definition str_of_int (i : Z) : str :=
  if i <? 0 then "-"%char :: str_of_nat (Z.to_nat (- i))
  else str_of_nat (Z.to_nat i).

(** [s.zfill(width)]: zeros on the left up to [width], after the sign
    when the string starts with one. *)
Definition zfill (s : str) (width : nat) : str :=
  let fill := replicate (width - length s) "0"%char in
  match s with
  | c :: rest =>
      if Ascii.eqb c "+"%char || Ascii.eqb c "-"%char
      then c :: fill ++ rest
      else fill ++ s
  | [] => fill
  end.

(** The scan behind [s.replace(old, new, count)] for a non-empty [old]:
    [skip] counts the characters of a replaced occurrence still to pass
    over, [count] the replacements still allowed ([None]: no limit). *)
Fixpoint replace_go (old new s : str) (skip : nat) (count : option nat) : str :=
  match s with
  | [] => []
  | c :: s' =>
      match skip with
      | S k => replace_go old new s' k count
      | O =>
          if negb (bool_decide (count = Some 0%nat)) && startswith old s
          then new ++ replace_go old new s' (length old - 1)
                        (Nat.pred <$> count)
          else c :: replace_go old new s' 0 count
      end
  end.

(** [s.replace(old, new)] and [s.replace(old, new, count)], for a
    non-empty [old] (the code only replaces non-empty strings). *)
Definition replace (s old new : str) : str := replace_go old new s 0 None.
Definition replace_count (s old new : str) (count : nat) : str :=
  replace_go old new s 0 (Some count).

(** [range(start, stop, step)]; [None] is the [ValueError] of a zero
    step. *)
Definition py_range (start stop step : Z) : option (list Z) :=
  if step =? 0 then None
  else if 0 <? step then
    Some (map (fun k => start + Z.of_nat k * step)
            (seq 0 (Z.to_nat ((stop - start + step - 1) / step))))
  else
    Some (map (fun k => start + Z.of_nat k * step)
            (seq 0 (Z.to_nat ((start - stop - step - 1) / - step)))).

End PyMore.

(** ** The vector store client ([vectorstore/pinecone_client.py]) *)

Module PineconeClient.
Import PyStr PyMore TextChunker ContextGenerator EmbeddingGenerator
  DocumentIndexer.

Section Client.

(** The index behind the client: an upsert of a batch into a namespace
    returns the [upserted_count] of the response, or raises. *)
Variable P : Type.
Variable index_upsert : list VectorRecord -> str -> M P Z.

(** [upsert_vectors]: the call, its exception logged and raised again. *)
Definition upsert_vectors (vectors : list VectorRecord) (namespace : str)
  : M P Z :=
  try_except (index_upsert vectors namespace) (fun e => raise e).

(** [for i in range(0, len(vectors), batch_size)], over the starts. *)
Fixpoint upsert_loop (vectors : list VectorRecord) (batch_size : Z)
  (namespace : str) (starts : list Z) (total_upserted : Z) : M P Z :=
  match starts with
  | [] => ret total_upserted
  | i :: rest =>
      let batch := slice vectors i (i + batch_size) in
      let* upserted_count := upsert_vectors batch namespace in
      upsert_loop vectors batch_size namespace rest
        (total_upserted + upserted_count)
  end.

Definition upsert_batch (vectors : list VectorRecord) (batch_size : Z)
  (namespace : str) : M P Z :=
  match py_range 0 (len vectors) batch_size with
  | None => raise (ValueError (py "range() arg 3 must not be zero"))
  | Some starts => upsert_loop vectors batch_size namespace starts 0
  end.

End Client.
End PineconeClient.

(** ** The file pipeline ([pipeline.py]) *)

Module Pipeline.
Import PyStr PyMore.

(** [chunk_id]: [f"{doc_id}-c{str(i).zfill(5)}"[:128]]. *)
Definition chunk_id (doc_id : str) (i : Z) : str :=
  slice (doc_id ++ py "-c" ++ zfill (str_of_int i) 5) 0 128.

(** [MAPPINGS], in the order of the dict display. *)
Definition MAPPINGS : list (str * str) :=
  [ (py "\\blumenau.unimed\dfs\APPS", py "/mnt/APPS");
    (py "\\blumenau.unimed\dfs\Qualidade", py "/mnt/Qualidade");
    (py "R:\Qualidade", py "/mnt/Qualidade") ].

(** [s.replace("\\", "/")]. *)
Definition slashes (s : str) : str := replace s (py "\") (py "/").

(** The [for] loop of [converte_path_to_linux] over the mappings. *)
Fixpoint rebase (mappings : list (str * str)) (path : str) : str :=
  match mappings with
  | [] => path
  | (win_prefix, linux_prefix) :: rest =>
      if startswith (slashes win_prefix) path
      then replace_count path (slashes win_prefix) linux_prefix 1
      else rebase rest path
  end.

Definition converte_path_to_linux (win_path : str) : str :=
  rebase MAPPINGS (slashes win_path).

End Pipeline.

(** ** The command line ([scripts/run_indexer.py]) *)

Module RunIndexer.
Import PyStr DocumentIndexer.

(** The parsed arguments [main] looks at. *)
Record Args : Type := {
  arg_all : bool;
  arg_doc_id : option Z;
  arg_search : option str;
  arg_stats : bool
}.

Inductive Command : Type := IndexAll | IndexDocument | Search | ShowStats.

(** The [if]/[elif] chain of [main], each test by truthiness. *)
Definition dispatch (args : Args) : option Command :=
  if arg_all args then Some IndexAll
  else if match arg_doc_id args with Some i => negb (i =? 0) | None => false end
  then Some IndexDocument
  else if match arg_search args with Some q => nonempty q | None => false end
  then Some Search
  else if arg_stats args then Some ShowStats
  else None.

(** [main] after parsing: the command, if any, is run; an exception
    makes the exit status 1. *)
Definition main {W : Type} (run : Command -> M W unit) (args : Args) (w : W)
  : W * Z :=
  match dispatch args with
  | None => (w, 0)
  | Some c =>
      match run c w with
      | (w', Ok _) => (w', 0)
      | (w', Raise _) => (w', 1)
      end
  end.

(** What the parser accepts: exactly one of the four commands (the
    group is required and mutually exclusive). *)
Definition one_command (args : Args) : Prop :=
  (if arg_all args then 1 else 0)
  + (if arg_doc_id args is Some _ then 1 else 0)
  + (if arg_search args is Some _ then 1 else 0)
  + (if arg_stats args then 1 else 0) = 1.

End RunIndexer.

(** * Properties *)

(** ** Facts about the string operations *)

Module PyStrFacts.
Import PyStr.

(** Consisting of whitespace only (the empty string included). *)
Definition whitespace_only (s : str) : bool := forallb isspace s.

Lemma startswith_app (p t : str) : startswith p (p ++ t) = true.
Proof.
  induction p as [|a p IH]; [reflexivity|].
  simpl. rewrite IH, Ascii.eqb_refl. reflexivity.
Qed.

Lemma startswith_spec (p s : str) :
  startswith p s = true <-> exists t, s = p ++ t.
Proof.
  split.
  - revert s. induction p as [|a p IH]; intros s H.
    + exists s. reflexivity.
    + destruct s as [|b s]; [discriminate|]. simpl in H.
      apply andb_prop in H as [Hab H]. apply Ascii.eqb_eq in Hab. subst b.
      destruct (IH _ H) as [t ->]. exists t. reflexivity.
  - intros [t ->]. apply startswith_app.
Qed.

Lemma startswith_nil_false (sep : str) : sep <> [] -> startswith sep [] = false.
Proof. destruct sep; [congruence | reflexivity]. Qed.

Lemma contains_startswith (x s : str) :
  startswith x s = true -> contains x s = true.
Proof. intros H. destruct s; simpl; rewrite H; reflexivity. Qed.

Lemma contains_spec (x s : str) :
  contains x s = true <-> exists a b, s = a ++ x ++ b.
Proof.
  split.
  - induction s as [|c s IH]; simpl; intros H.
    + apply orb_prop in H as [H|H]; [|discriminate].
      apply startswith_spec in H as [t Ht]. exists [], t. exact Ht.
    + apply orb_prop in H as [H|H].
      * apply startswith_spec in H as [t Ht]. exists [], t. exact Ht.
      * destruct (IH H) as (a & b & ->). exists (c :: a), b. reflexivity.
  - intros (a & b & ->). induction a as [|c a IH].
    + rewrite app_nil_l. apply contains_startswith, startswith_app.
    + simpl. rewrite IH. apply orb_true_r.
Qed.

(** A part of a string holds no separator the string does not hold. *)
Lemma contains_infix (x p a b : str) :
  contains x (a ++ p ++ b) = false -> contains x p = false.
Proof.
  intros H. destruct (contains x p) eqn:E; [|reflexivity].
  apply contains_spec in E as (a' & b' & ->).
  assert (contains x (a ++ (a' ++ x ++ b') ++ b) = true) as H'.
  { apply contains_spec. exists (a ++ a'), (b' ++ b).
    rewrite <- !app_assoc. reflexivity. }
  congruence.
Qed.

(** [lstrip] leaves nothing or a string that starts with a character
    that is not whitespace, and [rstrip] keeps such a start. *)
Lemma lstrip_head (s : str) :
  lstrip s = [] \/ exists c r, lstrip s = c :: r /\ isspace c = false.
Proof.
  induction s as [|c s IH]; [left; reflexivity|].
  simpl. destruct (isspace c) eqn:E; [exact IH|].
  right. exists c, s. split; [reflexivity | exact E].
Qed.

Lemma rstrip_head (c : ascii) (s : str) :
  isspace c = false -> exists r, rstrip (c :: s) = c :: r.
Proof.
  intros E. simpl. destruct (rstrip s) as [|d r].
  - rewrite E. exists []. reflexivity.
  - exists (d :: r). reflexivity.
Qed.

Lemma strip_head (s : str) :
  strip s = [] \/ exists c r, strip s = c :: r /\ isspace c = false.
Proof.
  unfold strip. destruct (lstrip_head s) as [->|(c & r & -> & E)].
  - left. reflexivity.
  - right. destruct (rstrip_head c r E) as [r' ->]. exists c, r'. auto.
Qed.

(** A stripped text that is not empty is not whitespace only. *)
Lemma strip_not_whitespace (s : str) :
  nonempty (strip s) = true -> whitespace_only (strip s) = false.
Proof.
  destruct (strip_head s) as [->|(c & r & -> & E)]; [discriminate|].
  intros _. unfold whitespace_only. simpl. rewrite E. reflexivity.
Qed.

Lemma whitespace_only_app (a b : str) :
  whitespace_only (a ++ b) = whitespace_only a && whitespace_only b.
Proof. apply forallb_app. Qed.

Lemma whitespace_only_nonempty (s : str) :
  whitespace_only s = false -> s <> [].
Proof. intros H ->. discriminate. Qed.

(** Joining pieces, the first of which is not whitespace only. *)
Lemma join_not_whitespace (sep p : str) (rest : list str) :
  whitespace_only p = false -> whitespace_only (join sep (p :: rest)) = false.
Proof.
  intros H. destruct rest as [|q rest]; [exact H|].
  change (join sep (p :: q :: rest)) with (p ++ sep ++ join sep (q :: rest)).
  rewrite whitespace_only_app, H. reflexivity.
Qed.

(** The words of [split()] are not whitespace only. *)
Lemma words_go_not_whitespace (s cur : str) :
  (cur <> [] -> whitespace_only (rev cur) = false) ->
  Forall (fun w => whitespace_only w = false) (words_go s cur).
Proof.
  revert cur. induction s as [|c s IH]; intros cur Hcur; simpl.
  - destruct cur; simpl; [constructor|].
    constructor; [apply Hcur; congruence | constructor].
  - destruct (isspace c) eqn:E.
    + destruct cur as [|d cur]; simpl.
      * apply IH. congruence.
      * constructor; [apply Hcur; congruence | apply IH; congruence].
    + apply IH. intros _. simpl.
      rewrite whitespace_only_app. unfold whitespace_only at 2. simpl.
      rewrite E. apply andb_false_r.
Qed.

Lemma split_whitespace_not_whitespace (s : str) :
  Forall (fun w => whitespace_only w = false) (split_whitespace s).
Proof. apply words_go_not_whitespace. congruence. Qed.

(** *** [split]: every piece is a part of the text and holds no separator *)

Lemma split_go_infix (sep s : str) :
  forall (skip : nat) (cur p : str),
    (skip <> 0%nat -> cur = []) ->
    p ∈ split_go sep s skip cur ->
    exists a b, rev cur ++ s = a ++ p ++ b.
Proof.
  induction s as [|c s IH]; intros skip cur p Hcur Hp; simpl in Hp.
  - apply list_elem_of_singleton in Hp as ->. exists [], [].
    rewrite app_nil_r. reflexivity.
  - destruct skip as [|k].
    + destruct (startswith sep (c :: s)).
      * apply elem_of_cons in Hp as [->|Hp].
        { exists [], (c :: s). reflexivity. }
        apply IH in Hp as (a & b & Hab); [|reflexivity].
        simpl in Hab. exists (rev cur ++ c :: a), b.
        rewrite Hab, <- app_assoc. reflexivity.
      * apply IH in Hp as (a & b & Hab); [|congruence].
        exists a, b. rewrite <- Hab. simpl. rewrite <- app_assoc. reflexivity.
    + rewrite (Hcur ltac:(congruence)) in *.
      apply IH in Hp as (a & b & Hab); [|reflexivity].
      simpl in Hab. exists (c :: a), b. simpl. rewrite Hab. reflexivity.
Qed.

Lemma split_infix (s sep p : str) :
  p ∈ split s sep -> exists a b, s = a ++ p ++ b.
Proof. intros Hp. apply split_go_infix in Hp; [exact Hp | congruence]. Qed.

Lemma contains_false_intro (sep s : str) :
  (forall k, (k <= length s)%nat -> startswith sep (drop k s) = false) ->
  contains sep s = false.
Proof.
  induction s as [|c s IH]; intros H;
    pose proof (H 0%nat (Nat.le_0_l _)) as H0; simpl in H0; simpl; rewrite H0.
  - reflexivity.
  - simpl. apply IH. intros k Hk. apply (H (S k)). simpl. lia.
Qed.

(** No occurrence of [sep] starts inside the piece being read. *)
Definition clean_piece (sep cur s : str) : Prop :=
  forall k, (k < length cur)%nat ->
            startswith sep (drop k (rev cur ++ s)) = false.

Lemma clean_piece_no_sep (sep cur s : str) :
  sep <> [] -> clean_piece sep cur s -> contains sep (rev cur) = false.
Proof.
  intros Hsep Hclean. apply contains_false_intro. intros k Hk.
  rewrite length_rev in Hk.
  destruct (decide (k = length cur)) as [->|Hne].
  - rewrite <- (length_rev cur), drop_all. apply startswith_nil_false, Hsep.
  - destruct (startswith sep (drop k (rev cur))) eqn:E; [|reflexivity].
    apply startswith_spec in E as [t Ht].
    rewrite <- (Hclean k ltac:(lia)).
    rewrite drop_app_le by (rewrite length_rev; lia).
    rewrite Ht, <- app_assoc. symmetry. apply startswith_app.
Qed.

Lemma clean_piece_step (sep cur s : str) (c : ascii) :
  clean_piece sep cur (c :: s) -> startswith sep (c :: s) = false ->
  clean_piece sep (c :: cur) s.
Proof.
  intros Hclean Hc k Hk. simpl in Hk. simpl. rewrite <- app_assoc. simpl.
  destruct (decide (k = length cur)) as [->|Hne].
  - rewrite <- (length_rev cur), drop_app_length. exact Hc.
  - apply Hclean. lia.
Qed.

Lemma split_go_no_sep (sep s : str) :
  sep <> [] ->
  forall (skip : nat) (cur : str),
    (skip = 0%nat -> clean_piece sep cur s) ->
    (skip <> 0%nat -> cur = []) ->
    Forall (fun p => contains sep p = false) (split_go sep s skip cur).
Proof.
  intros Hsep. induction s as [|c s IH]; intros skip cur Hclean Hcur; simpl.
  - constructor; [|constructor]. destruct skip as [|k].
    + apply (clean_piece_no_sep sep cur []); auto.
    + rewrite Hcur by congruence. simpl.
      rewrite (startswith_nil_false sep Hsep). reflexivity.
  - destruct skip as [|k].
    + destruct (startswith sep (c :: s)) eqn:E.
      * constructor.
        { apply (clean_piece_no_sep sep cur (c :: s)); auto. }
        apply IH; [|reflexivity]. intros _ k Hk. simpl in Hk. lia.
      * apply IH; [|congruence]. intros _.
        apply clean_piece_step; auto.
    + apply IH; [|intros _; apply Hcur; congruence].
      intros _. rewrite Hcur by congruence. intros k' Hk'. simpl in Hk'. lia.
Qed.

Lemma split_no_sep (s sep : str) :
  sep <> [] -> Forall (fun p => contains sep p = false) (split s sep).
Proof.
  intros Hsep. apply split_go_no_sep; [exact Hsep | | congruence].
  intros _ k Hk. simpl in Hk. lia.
Qed.

End PyStrFacts.

(** ** Properties of the text chunker *)

Module TextChunkerFacts.
Import PyStr PyStrFacts TextChunker.

(** A configuration used in the examples. *)
Definition example_settings (size overlap : Z) : ChunkingSettings :=
  {| chunk_size := size; chunk_overlap := overlap; max_chunk_size := 2000 |}.

(** What the specification asks of every emitted chunk. *)
Definition well_formed_chunk (c : Chunk) : Prop :=
  start_char c < end_char c /\ text c <> [] /\ whitespace_only (text c) = false.

(** The indices of a chunk sequence count up from zero. *)
Definition contiguous_indices (chunks : list Chunk) : Prop :=
  map chunk_index chunks = seq 0 (length chunks).

Lemma contiguous_snoc (chunks : list Chunk) (c : Chunk) :
  contiguous_indices chunks -> chunk_index c = length chunks ->
  contiguous_indices (chunks ++ [c]).
Proof.
  unfold contiguous_indices. intros H Hc.
  rewrite map_app, length_app, H. simpl.
  rewrite Nat.add_1_r, seq_S, Hc. reflexivity.
Qed.

Lemma stripped_well_formed (s doc : str) (i tokens : nat) (start : Z)
  (md : gmap string pyval) :
  nonempty (strip s) = true ->
  well_formed_chunk {| text := strip s; chunk_index := i; doc_id := doc;
                       start_char := start; end_char := start + len (strip s);
                       token_count := tokens; metadata := md |}.
Proof.
  intros Hne. pose proof (strip_not_whitespace s Hne) as Hws.
  repeat split; simpl; [|apply whitespace_only_nonempty, Hws | exact Hws].
  unfold len. destruct (strip s); [discriminate | simpl; lia].
Qed.

Section Facts.

Variable count_tokens : str -> nat.
Variable settings : ChunkingSettings.

(** *** The fixed-size loop *)

(** The window start moves forward when the window has a positive size
    or the overlap is smaller than the window. *)
Definition makes_progress : Prop :=
  0 < chunk_size settings \/ chunk_overlap settings < chunk_size settings.

Lemma window_end_cases (text : str) (start : Z) :
  window_end settings text start = start + chunk_size settings
  \/ start < window_end settings text start.
Proof.
  unfold window_end.
  destruct (start + chunk_size settings <? len text); [|left; reflexivity].
  destruct (Z.ltb_spec start
              (rfind text " " start (start + chunk_size settings)));
    [right; assumption | left; reflexivity].
Qed.

Lemma window_end_after_start (text : str) (start : Z) :
  0 < chunk_size settings -> start < window_end settings text start.
Proof. intros H. destruct (window_end_cases text start); lia. Qed.

Lemma next_start_after_start (text : str) (start : Z) :
  makes_progress ->
  start < next_start settings start (window_end settings text start).
Proof.
  intros H. unfold next_start.
  destruct (Z.ltb_spec start
              (window_end settings text start - chunk_overlap settings));
    [assumption|].
  destruct (window_end_cases text start) as [E|E]; [|exact E].
  rewrite E in *. destruct H; lia.
Qed.

Lemma fixed_step_start (text doc : str) (md : gmap string pyval)
  (st : fixed_state) :
  fs_start (fixed_step count_tokens settings text doc md st)
  = next_start settings (fs_start st) (window_end settings text (fs_start st)).
Proof. unfold fixed_step. destruct (nonempty _); reflexivity. Qed.

Lemma fixed_loop_terminates (text doc : str) (md : gmap string pyval) :
  makes_progress ->
  forall (fuel : nat) (st : fixed_state),
    len text - fs_start st <= Z.of_nat fuel ->
    is_Some (fixed_loop count_tokens settings fuel text doc md st).
Proof.
  intros H. induction fuel as [|fuel IH]; intros st Hfuel; simpl.
  - destruct (Z.ltb_spec (fs_start st) (len text)); [lia | eauto].
  - destruct (Z.ltb_spec (fs_start st) (len text)); [|eauto].
    apply IH. rewrite fixed_step_start.
    pose proof (next_start_after_start text (fs_start st) H). lia.
Qed.

Lemma fixed_step_well_formed (text doc : str) (md : gmap string pyval)
  (st : fixed_state) :
  0 < chunk_size settings ->
  Forall well_formed_chunk (fs_chunks st) ->
  Forall well_formed_chunk
    (fs_chunks (fixed_step count_tokens settings text doc md st)).
Proof.
  intros Hsize Hst. unfold fixed_step.
  destruct (nonempty _) eqn:Hne; simpl; [|exact Hst].
  apply Forall_app. split; [exact Hst|]. constructor; [|constructor].
  pose proof (strip_not_whitespace _ Hne) as Hws.
  repeat split; simpl;
    [apply window_end_after_start, Hsize
    | apply whitespace_only_nonempty, Hws | exact Hws].
Qed.

Lemma fixed_loop_well_formed (text doc : str) (md : gmap string pyval) :
  0 < chunk_size settings ->
  forall (fuel : nat) (st : fixed_state) (chunks : list Chunk),
    Forall well_formed_chunk (fs_chunks st) ->
    fixed_loop count_tokens settings fuel text doc md st = Some chunks ->
    Forall well_formed_chunk chunks.
Proof.
  intros Hsize. induction fuel as [|fuel IH]; intros st chunks Hst; simpl;
    destruct (fs_start st <? len text); try congruence.
  apply IH, fixed_step_well_formed; assumption.
Qed.

(** The counter of the loop is the number of chunks written. *)
Definition fixed_counter_ok (st : fixed_state) : Prop :=
  fs_chunk_index st = length (fs_chunks st)
  /\ contiguous_indices (fs_chunks st).

Lemma fixed_step_contiguous (text doc : str) (md : gmap string pyval)
  (st : fixed_state) :
  fixed_counter_ok st ->
  fixed_counter_ok (fixed_step count_tokens settings text doc md st).
Proof.
  intros [Hn Hc]. unfold fixed_step, fixed_counter_ok.
  destruct (nonempty _); simpl; [|auto]. split.
  - rewrite length_app, Hn. simpl. lia.
  - apply contiguous_snoc; auto.
Qed.

Lemma fixed_loop_contiguous (text doc : str) (md : gmap string pyval) :
  forall (fuel : nat) (st : fixed_state) (chunks : list Chunk),
    fixed_counter_ok st ->
    fixed_loop count_tokens settings fuel text doc md st = Some chunks ->
    contiguous_indices chunks.
Proof.
  induction fuel as [|fuel IH]; intros st chunks Hst; simpl;
    destruct (fs_start st <? len text); try congruence.
  - intros [= <-]. apply Hst.
  - apply IH, fixed_step_contiguous, Hst.
  - intros [= <-]. apply Hst.
Qed.

(** *** The loop that builds the chunks of the recursive strategy *)

Lemma recursive_loop_well_formed (text doc : str) (md : gmap string pyval) :
  forall (items : list (nat * str)) (chunks : list Chunk) (pos : Z),
    Forall well_formed_chunk chunks ->
    Forall well_formed_chunk
      (recursive_loop count_tokens text doc md items chunks pos).
Proof.
  induction items as [|[i s] items IH]; intros chunks pos Hc; simpl;
    [exact Hc|].
  destruct (nonempty (strip s)) eqn:Hne; [|apply IH, Hc].
  apply IH, Forall_app. split; [exact Hc|]. constructor; [|constructor].
  apply stripped_well_formed, Hne.
Qed.

(** *** The loops of the sentence strategy *)

(** Pieces that are not whitespace only. *)
Definition solid (pieces : list str) : Prop :=
  Forall (fun p => whitespace_only p = false) pieces.

(** The invariant of the loops: the chunks written are well formed and
    numbered from zero by the counter. *)
Definition out_ok (o : out_state) : Prop :=
  Forall well_formed_chunk (os_chunks o)
  /\ os_chunk_index o = length (os_chunks o)
  /\ contiguous_indices (os_chunks o).

Lemma emit_ok (text doc : str) (md : gmap string pyval)
  (pieces : list str) (tokens : nat) (o : out_state) :
  pieces <> [] -> solid pieces -> out_ok o ->
  out_ok (emit text doc md pieces tokens o).
Proof.
  intros Hne Hsolid (Hwf & Hn & Hc).
  destruct pieces as [|p rest]; [congruence|].
  apply Forall_cons in Hsolid as [Hp _].
  pose proof (join_not_whitespace (py " ") p rest Hp) as Hws.
  unfold emit, out_ok.
  generalize dependent (join (py " ") (p :: rest)). intros j Hws. simpl.
  repeat split.
  - apply Forall_app. split; [exact Hwf|]. constructor; [|constructor].
    repeat split; simpl;
      [|apply whitespace_only_nonempty, Hws | exact Hws].
    unfold len. destruct j; [discriminate | simpl; lia].
  - rewrite length_app, Hn. simpl. lia.
  - apply contiguous_snoc; auto.
Qed.

Lemma emit_if_ok (text doc : str) (md : gmap string pyval)
  (pieces : list str) (tokens : nat) (o : out_state) :
  solid pieces -> out_ok o -> out_ok (emit_if text doc md pieces tokens o).
Proof.
  intros Hsolid Ho. unfold emit_if.
  destruct pieces; simpl; [exact Ho|]. apply emit_ok; auto; congruence.
Qed.

Lemma word_loop_ok (text doc : str) (md : gmap string pyval) :
  forall (words : list str) (o : out_state) (temp : list str) (n : nat),
    solid words -> solid temp -> out_ok o ->
    out_ok (word_loop count_tokens settings text doc md words o temp n).1.1
    /\ solid (word_loop count_tokens settings text doc md words o temp n).1.2.
Proof.
  induction words as [|w words IH]; intros o temp n Hw Ht Ho; simpl; [auto|].
  apply Forall_cons in Hw as [Hw Hws].
  destruct (_ <? _).
  - apply IH; [exact Hws | repeat constructor; exact Hw | ].
    apply emit_if_ok; assumption.
  - apply IH; [exact Hws | | exact Ho].
    apply Forall_app. split; [exact Ht | repeat constructor; exact Hw].
Qed.

Lemma sentence_loop_ok (text doc : str) (md : gmap string pyval) :
  forall (sentences : list str) (o : out_state) (cur : list str) (n : nat),
    solid cur -> out_ok o ->
    out_ok (sentence_loop count_tokens settings text doc md sentences o cur n).1.1
    /\ solid (sentence_loop count_tokens settings text doc md sentences o cur n).1.2.
Proof.
  induction sentences as [|s sentences IH]; intros o cur n Hcur Ho; simpl;
    [auto|].
  destruct (nonempty (strip s)) eqn:Hne; [|apply IH; assumption].
  pose proof (strip_not_whitespace s Hne) as Hs.
  destruct (_ <? _).
  - pose proof (word_loop_ok text doc md (split_whitespace (strip s))
                  (emit_if text doc md cur n o) [] 0
                  (split_whitespace_not_whitespace _)
                  (Forall_nil_2 _)
                  (emit_if_ok text doc md cur n o Hcur Ho)) as [Ho2 Ht].
    destruct (nonempty cur) eqn:Hc;
      destruct (word_loop _ _ _ _ _ _ _ _ _) as [[o2 temp] tn];
      simpl in Ho2, Ht; destruct (nonempty temp); apply IH;
      solve [assumption | constructor].
  - destruct (_ <? _).
    + apply IH; [repeat constructor; exact Hs | apply emit_if_ok; assumption].
    + apply IH; [|exact Ho]. apply Forall_app.
      split; [exact Hcur | repeat constructor; exact Hs].
Qed.

Lemma out_init_ok : out_ok out_init.
Proof. repeat split; constructor. Qed.

Lemma chunk_by_sentence_ok (text doc : str) (md : gmap string pyval) :
  Forall well_formed_chunk
    (_chunk_by_sentence count_tokens settings text doc md)
  /\ contiguous_indices (_chunk_by_sentence count_tokens settings text doc md).
Proof.
  unfold _chunk_by_sentence.
  pose proof (sentence_loop_ok text doc md (split_sentences text) out_init
                [] 0 (Forall_nil_2 _) out_init_ok) as [Ho Hcur].
  destruct (sentence_loop _ _ _ _ _ _ _ _ _) as [[o cur] n].
  simpl in Ho, Hcur.
  destruct (emit_if_ok text doc md cur n o Hcur Ho) as (H1 & _ & H2). auto.
Qed.

End Facts.

(** *** The window start of the fixed-size strategy *)

(** C8.  When the window has a positive size, or the overlap is smaller
    than the window (the invariant of a chunking configuration), every
    iteration of the fixed-size loop sets the start to [end - overlap] if
    that lies after the current start and to [end] otherwise, the new
    start lies strictly after the old one, and the loop ends: run for
    [len(text)] iterations it returns its chunks. *)
Theorem C8_fixed_size_start_increases (count_tokens : str -> nat)
  (settings : ChunkingSettings) (text doc : str) (md : gmap string pyval) :
  0 < chunk_size settings \/ chunk_overlap settings < chunk_size settings ->
  (forall st : fixed_state,
     let start := fs_start st in
     let end_ := window_end settings text start in
     let start' := fs_start (fixed_step count_tokens settings text doc md st) in
     start' = (if start <? end_ - chunk_overlap settings
               then end_ - chunk_overlap settings else end_)
     /\ start < start')
  /\ exists chunks,
       _chunk_fixed_size count_tokens settings (length text) text doc md
       = Some chunks.
Proof.
  intros H. split.
  - intros st start end_ start'. subst start'. rewrite fixed_step_start.
    split; [reflexivity|]. apply next_start_after_start, H.
  - apply (fixed_loop_terminates count_tokens settings text doc md H).
    unfold len. simpl. lia.
Qed.

(** An overlap that is larger than the window: the loop still ends. *)
Lemma C8_witness_large_overlap :
  exists chunks,
    _chunk_fixed_size word_tokens (example_settings 5 7)
      (length (py "hello big world")) (py "hello big world") (py "doc") ∅
    = Some chunks.
Proof.
  apply (C8_fixed_size_start_increases word_tokens (example_settings 5 7)
           (py "hello big world") (py "doc") ∅).
  left. reflexivity.
Defined.

(** Outside that domain the start can stay where it is: with a window
    and an overlap of zero the loop never ends. *)
Example fixed_size_empty_window_never_ends :
  forall fuel,
    _chunk_fixed_size word_tokens (example_settings 0 0) fuel (py "a")
      (py "doc") ∅ = None.
Proof.
  unfold _chunk_fixed_size. induction fuel as [|fuel IH]; [reflexivity|].
  exact IH.
Qed.

(** *** Every emitted chunk spans text and is not blank *)

(** C9.  Whatever the strategy, every chunk of the returned sequence has
    [start_char < end_char] and a text that is neither empty nor
    whitespace only, and the chunker does return a sequence.  The
    fixed-size strategy needs a positive [chunk_size] for it. *)
Theorem C9_chunks_span_text_and_are_not_blank (count_tokens : str -> nat)
  (settings : ChunkingSettings) (strategy : ChunkStrategy) (text doc : str)
  (md : option (gmap string pyval)) :
  (strategy = FIXED_SIZE -> 0 < chunk_size settings) ->
  (forall fuel chunks,
     chunk_document count_tokens settings fuel strategy text doc md
     = Some chunks ->
     Forall well_formed_chunk chunks)
  /\ exists chunks,
       chunk_document count_tokens settings (length text) strategy text doc md
       = Some chunks.
Proof.
  intros Hsize. split.
  - intros fuel chunks. destruct strategy; simpl.
    + apply fixed_loop_well_formed; [auto | constructor].
    + intros [= <-]. apply recursive_loop_well_formed. constructor.
    + intros [= <-]. apply recursive_loop_well_formed. constructor.
    + intros [= <-]. apply chunk_by_sentence_ok.
  - destruct strategy; simpl; eauto.
    apply fixed_loop_terminates; [left; auto | unfold len; simpl; lia].
Qed.

Lemma C9_witness_fixed_size :
  (forall fuel chunks,
     chunk_document word_tokens (example_settings 5 2) fuel FIXED_SIZE
       (py "hello big world") (py "doc") None = Some chunks ->
     Forall well_formed_chunk chunks)
  /\ exists chunks,
       chunk_document word_tokens (example_settings 5 2)
         (length (py "hello big world")) FIXED_SIZE
         (py "hello big world") (py "doc") None = Some chunks.
Proof.
  apply C9_chunks_span_text_and_are_not_blank. intros _. reflexivity.
Defined.

(** A negative [chunk_size] is read as a slice bound that counts from
    the end of the text, and the chunk then ends before it starts. *)
Example fixed_size_negative_window :
  option_map (map (fun c => (start_char c, end_char c)))
    (_chunk_fixed_size word_tokens (example_settings (-1) (-5)) 2 (py "ab")
       (py "doc") ∅)
  = Some [(0, -1)].
Proof. vm_compute. reflexivity. Qed.

(** *** Chunk indices *)

(** The fixed-size strategy numbers its chunks from zero without gaps. *)
Theorem fixed_size_indices_contiguous (count_tokens : str -> nat)
  (settings : ChunkingSettings) (fuel : nat) (text doc : str)
  (md : gmap string pyval) (chunks : list Chunk) :
  _chunk_fixed_size count_tokens settings fuel text doc md = Some chunks ->
  contiguous_indices chunks.
Proof.
  apply fixed_loop_contiguous. split; reflexivity.
Qed.

Lemma fixed_size_indices_witness :
  contiguous_indices
    (default [] (_chunk_fixed_size word_tokens (example_settings 5 2) 15
                   (py "hello big world") (py "doc") ∅)).
Proof.
  apply (fixed_size_indices_contiguous word_tokens (example_settings 5 2) 15
           (py "hello big world") (py "doc") ∅).
  vm_compute. reflexivity.
Defined.

(** The sentence strategy numbers its chunks from zero without gaps. *)
Theorem sentence_indices_contiguous (count_tokens : str -> nat)
  (settings : ChunkingSettings) (text doc : str) (md : gmap string pyval) :
  contiguous_indices (_chunk_by_sentence count_tokens settings text doc md).
Proof. apply chunk_by_sentence_ok. Qed.

(** Symbolic execution of the splitter under an unknown tokenizer: settle
    a comparison from the hypotheses, evaluate a [split] of literals, put
    the literal argument of a hypothesis in normal form. *)
Ltac decide_test :=
  match goal with
  | |- context [?a <? ?b] =>
      first [ rewrite (proj2 (Z.ltb_lt a b)) by (simpl; lia)
            | rewrite (proj2 (Z.ltb_ge a b)) by (simpl; lia) ]
  | |- context [?a <=? ?b] =>
      first [ rewrite (proj2 (Z.leb_le a b)) by (simpl; lia)
            | rewrite (proj2 (Z.leb_gt a b)) by (simpl; lia) ]
  end.

Ltac run_split :=
  match goal with
  | |- context [split ?s ?sep] =>
      let v := eval vm_compute in (split s sep) in
      change (split s sep) with v
  end.

Ltac literal_in H :=
  match type of H with
  | context [?f ?s] =>
      match type of s with
      | list ascii =>
          let v := eval vm_compute in s in
          progress change s with v in H
      end
  end.

Lemma split_text_cons (count_tokens : str -> nat) (settings : ChunkingSettings)
  (sep : str) (rest : list str) (text : str) :
  _split_text count_tokens settings (sep :: rest) text =
  if Z.of_nat (count_tokens text) <=? chunk_size settings then [text]
  else split_loop count_tokens settings (_split_text count_tokens settings rest)
         sep (split text sep) [] [] 0.
Proof. reflexivity. Qed.

(** A text that opens with a paragraph break. *)
Definition gap_text : str := [LF; LF] ++ py "hello world".

(** C1, the recursive strategy at a failing input.  With a budget of one
    token, under any tokenizer that counts one token for each of [hello]
    and [world], more than one for the two together and for the whole
    text, and at most one for the empty string, the text
    ["\n\nhello world"] yields two chunks whose indices are 1 and 2: the
    empty first span takes index 0 of [enumerate] and is then skipped. *)
Theorem C1_recursive_indices_skip_blank_span (count_tokens : str -> nat)
  (overlap : Z) (doc : str) (md : gmap string pyval) :
  (count_tokens [] <= 1)%nat ->
  (1 < count_tokens gap_text)%nat ->
  (1 < count_tokens (py "hello world"))%nat ->
  count_tokens (py "hello") = 1%nat ->
  count_tokens (py "world") = 1%nat ->
  map chunk_index
    (_chunk_recursive count_tokens (example_settings 1 overlap) gap_text doc md)
  = [1; 2]%nat.
Proof.
  intros H0 HT Hhw Hh Hw.
  assert (_split_text count_tokens (example_settings 1 overlap) separators
            gap_text = [[]; py "hello"; py "world"]) as Hsplit.
  { literal_in HT. literal_in Hhw. literal_in Hh. literal_in Hw.
    unfold separators.
    let v := eval vm_compute in gap_text in change gap_text with v.
    do 4 (rewrite split_text_cons; decide_test; run_split;
          cbn [split_loop]; repeat decide_test; cbn [nonempty flush app]).
    reflexivity. }
  unfold _chunk_recursive. rewrite Hsplit. reflexivity.
Qed.

Lemma C1_witness_word_tokens :
  map chunk_index
    (_chunk_recursive word_tokens (example_settings 1 0) gap_text (py "doc") ∅)
  = [1; 2]%nat.
Proof.
  apply (C1_recursive_indices_skip_blank_span word_tokens 0 (py "doc") ∅);
    vm_compute; first [reflexivity | lia].
Defined.

(** *** The token budget of the recursive strategy *)

(** A span that none of the separators can split. *)
Definition irreducible (s : str) : Prop :=
  Forall (fun sep => contains sep s = false) separators.

(** C2 as stated, for one chunk. *)
Definition within_budget_or_irreducible (settings : ChunkingSettings)
  (c : Chunk) : Prop :=
  Z.of_nat (token_count c) <= chunk_size settings \/ irreducible (text c).

(** Two one-token paragraphs under a budget of two tokens. *)
Definition two_paragraphs : str := py "hello" ++ [LF; LF] ++ py "world".

(** C2 fails: the two paragraphs are grouped, because their counts sum
    to the budget, and the chunk that joins them with the paragraph break
    counts three tokens and holds a separator. *)
Lemma C2_counterexample_joined_group_over_budget :
  ~ Forall (within_budget_or_irreducible (example_settings 2 0))
      (_chunk_recursive word_tokens (example_settings 2 0) two_paragraphs
         (py "doc") ∅).
Proof.
  intros H.
  assert (exists c rest,
            _chunk_recursive word_tokens (example_settings 2 0) two_paragraphs
              (py "doc") ∅ = c :: rest
            /\ token_count c = 3%nat /\ text c = two_paragraphs)
    as (c & rest & E & Ht & Hx) by (vm_compute; eauto).
  rewrite E in H. apply Forall_inv in H as [H|H].
  - rewrite Ht in H. simpl in H. lia.
  - unfold irreducible in H. rewrite Hx in H. apply Forall_inv in H.
    vm_compute in H. discriminate.
Qed.

Section Budget.

Variable count_tokens : str -> nat.
Variable settings : ChunkingSettings.

(** The tokens of the pieces of a group, counted one piece at a time as
    the splitter does. *)
Definition tokens_of (pieces : list str) : nat :=
  sum_list_with count_tokens pieces.

(** What the splitter ensures of a span it returns, after the separators
    [used] and with the separators [seps] still to try. *)
Definition span_ok (used seps : list str) (r : str) : Prop :=
  Z.of_nat (count_tokens r) <= chunk_size settings
  \/ (exists sep pieces, sep ∈ seps /\ r = join sep pieces
                         /\ Z.of_nat (tokens_of pieces) <= chunk_size settings)
  \/ Forall (fun x => contains x r = false) (used ++ seps).

Lemma span_ok_weaken (used rest : list str) (sep r : str) :
  span_ok (used ++ [sep]) rest r -> span_ok used (sep :: rest) r.
Proof.
  intros [H|[(s & ps & Hs & Hr & Hb)|H]].
  - left. exact H.
  - right. left. exists s, ps. repeat split; auto. apply elem_of_cons. auto.
  - right. right. rewrite <- app_assoc in H. exact H.
Qed.

Lemma tokens_of_snoc (pieces : list str) (p : str) :
  tokens_of (pieces ++ [p]) = (tokens_of pieces + count_tokens p)%nat.
Proof. unfold tokens_of. rewrite sum_list_with_app. simpl. lia. Qed.

Lemma flush_span_ok (used rest : list str) (sep : str)
  (result cur : list str) :
  Forall (span_ok used (sep :: rest)) result ->
  (cur <> [] -> Z.of_nat (tokens_of cur) <= chunk_size settings) ->
  Forall (span_ok used (sep :: rest)) (flush sep result cur).
Proof.
  intros Hres Hcur. unfold flush. destruct cur as [|p cur]; [exact Hres|].
  simpl nonempty. cbv iota. apply Forall_app. split; [exact Hres|].
  constructor; [|constructor]. right. left. exists sep, (p :: cur).
  repeat split; [apply elem_of_cons; auto | apply Hcur; congruence].
Qed.

Lemma split_loop_span_ok (recurse : str -> list str) (used rest : list str)
  (sep : str) :
  (forall p, Forall (fun x => contains x p = false) (used ++ [sep]) ->
             Forall (span_ok (used ++ [sep]) rest) (recurse p)) ->
  forall (splits result cur : list str) (size : nat),
    Forall (fun p => Forall (fun x => contains x p = false) (used ++ [sep]))
      splits ->
    Forall (span_ok used (sep :: rest)) result ->
    size = tokens_of cur ->
    (cur <> [] -> Z.of_nat size <= chunk_size settings) ->
    Forall (span_ok used (sep :: rest))
      (split_loop count_tokens settings recurse sep splits result cur size).
Proof.
  intros Hrec. induction splits as [|p splits IH];
    intros result cur size Hsplits Hres Hsize Hcur; simpl.
  - apply flush_span_ok; [exact Hres | rewrite <- Hsize; exact Hcur].
  - apply Forall_cons in Hsplits as [Hp Hsplits].
    assert (Forall (span_ok used (sep :: rest))
              (flush sep result cur ++ recurse p)) as Hflush.
    { apply Forall_app. split.
      - apply flush_span_ok; [exact Hres | rewrite <- Hsize; exact Hcur].
      - eapply Forall_impl; [apply Hrec, Hp|].
        intros r. apply span_ok_weaken. }
    destruct (Z.ltb_spec (chunk_size settings) (Z.of_nat (count_tokens p))).
    + destruct (nonempty cur); apply IH; auto; congruence.
    + destruct (Z.ltb_spec (chunk_size settings)
                  (Z.of_nat (size + count_tokens p))).
      * destruct cur as [|q cur]; simpl nonempty; cbv iota.
        { apply IH; auto. }
        apply IH; [exact Hsplits | | unfold tokens_of; simpl; lia | intros _; lia].
        apply Forall_app. split; [exact Hres|].
        constructor; [|constructor]. right. left. exists sep, (q :: cur).
        repeat split; [apply elem_of_cons; auto|].
        rewrite <- Hsize. apply Hcur. congruence.
      * apply IH; [exact Hsplits | exact Hres | | intros _; lia].
        rewrite tokens_of_snoc, Hsize. reflexivity.
Qed.

Lemma split_text_span_ok :
  forall (seps used : list str) (text : str),
    Forall (fun sep => sep <> []) seps ->
    Forall (fun x => contains x text = false) used ->
    Forall (span_ok used seps) (_split_text count_tokens settings seps text).
Proof.
  induction seps as [|sep rest IH]; intros used text Hseps Hused.
  - constructor; [|constructor]. right. right. rewrite app_nil_r. exact Hused.
  - apply Forall_cons in Hseps as [Hsep Hrest]. rewrite split_text_cons.
    destruct (Z.leb_spec (Z.of_nat (count_tokens text)) (chunk_size settings)).
    { constructor; [|constructor]. left. assumption. }
    apply split_loop_span_ok; try solve [constructor | reflexivity | congruence].
    + intros p Hp. apply IH; assumption.
    + apply Forall_forall. intros p Hp. apply Forall_app. split.
      * apply split_infix in Hp as (a & b & ->).
        eapply Forall_impl; [exact Hused|]. intros x. apply contains_infix.
      * constructor; [|constructor].
        pose proof (split_no_sep text sep Hsep) as Hno.
        rewrite Forall_forall in Hno. apply Hno, Hp.
Qed.

Lemma separators_nonempty : Forall (fun sep : str => sep <> []) separators.
Proof. repeat constructor; discriminate. Qed.

(** Every chunk of the recursive strategy is the stripped form of a span
    of the splitter, and carries the token count of that stripped text. *)
Lemma recursive_loop_spans (R : str -> Prop) (text doc : str)
  (md : gmap string pyval) :
  let Q := fun c : Chunk =>
             exists span, R span /\ TextChunker.text c = strip span
                          /\ token_count c = count_tokens (strip span) in
  forall (items : list (nat * str)) (chunks : list Chunk) (pos : Z),
    Forall (fun item => R item.2) items ->
    Forall Q chunks ->
    Forall Q (recursive_loop count_tokens text doc md items chunks pos).
Proof.
  intros Q. induction items as [|[i s] items IH]; intros chunks pos Hi Hc;
    simpl; [exact Hc|].
  apply Forall_cons in Hi as [Hs Hi].
  destruct (nonempty (strip s)); [|apply IH; assumption].
  apply IH; [exact Hi|]. apply Forall_app. split; [exact Hc|].
  constructor; [|constructor]. exists s. simpl. auto.
Qed.

Lemma enumerate_snd {A} (P : A -> Prop) (l : list A) :
  Forall P l -> Forall (fun item => P item.2) (enumerate l).
Proof.
  unfold enumerate. generalize 0%nat. induction l as [|x l IH]; intros n H;
    simpl; [constructor|].
  apply Forall_cons in H as [Hx H]. constructor; [exact Hx | apply IH, H].
Qed.

End Budget.

(** C2, amended.  Every chunk of the recursive strategy is the stripped
    form of a span that (i) counts at most [chunk_size] tokens, or (ii)
    is the join, by one of the separators, of pieces whose token counts
    taken one by one sum to at most [chunk_size], or (iii) holds none of
    the separators; the chunk's [token_count] is the count of the
    stripped text.  The tokens of the joining separators are not part of
    the sum in (ii). *)
Theorem C2_recursive_spans_budgeted_piecewise (count_tokens : str -> nat)
  (settings : ChunkingSettings) (text doc : str) (md : gmap string pyval) :
  Forall
    (fun c : Chunk =>
       exists span,
         (Z.of_nat (count_tokens span) <= chunk_size settings
          \/ (exists sep pieces,
                 sep ∈ separators /\ span = join sep pieces
                 /\ Z.of_nat (tokens_of count_tokens pieces)
                    <= chunk_size settings)
          \/ irreducible span)
         /\ TextChunker.text c = strip span
         /\ token_count c = count_tokens (strip span))
    (_chunk_recursive count_tokens settings text doc md).
Proof.
  unfold _chunk_recursive.
  apply (recursive_loop_spans count_tokens
           (span_ok count_tokens settings [] separators));
    [|constructor].
  apply enumerate_snd, split_text_span_ok;
    [apply separators_nonempty | constructor].
Qed.

End TextChunkerFacts.

(** ** Properties of the embedding generator *)

Module EmbeddingGeneratorFacts.
Import PyStr PyStrFacts TextChunker ContextGenerator Retry EmbeddingGenerator.

Lemma clamp_index_nonneg (n i : Z) :
  0 <= n -> 0 <= i -> clamp_index n i = Z.min i n.
Proof.
  intros Hn Hi. unfold clamp_index.
  destruct (Z.ltb_spec i 0); [lia|].
  destruct (Z.ltb_spec i 0); [lia|].
  destruct (Z.ltb_spec n i); lia.
Qed.

(** The slice the batch loop takes for batch [i] of size [b]. *)
Lemma slice_batch {A} (l : list A) (b i : nat) :
  (0 < b)%nat ->
  slice l (Z.of_nat i * Z.of_nat b)
    (Z.min ((Z.of_nat i + 1) * Z.of_nat b) (len l))
  = take b (drop (i * b) l).
Proof.
  intros Hb. unfold slice, len.
  set (n := length l).
  rewrite !clamp_index_nonneg by lia.
  destruct (decide (n < i * b)%nat) as [Hout|Hin].
  - rewrite !drop_ge by (fold n; lia). rewrite !take_nil. reflexivity.
  - replace (Z.to_nat (Z.min (Z.of_nat i * Z.of_nat b) (Z.of_nat n)))
      with (i * b)%nat by lia.
    destruct (decide ((i + 1) * b <= n)%nat) as [Hle|Hgt].
    + f_equal. lia.
    + rewrite !take_ge; [reflexivity | |];
        rewrite length_drop; fold n; lia.
Qed.

(** Enough batches cover the whole list. *)
Lemma batches_cover (n b : nat) :
  (0 < b)%nat ->
  (n <= Z.to_nat ((Z.of_nat n + Z.of_nat b - 1) / Z.of_nat b) * b)%nat.
Proof.
  intros Hb.
  pose proof (Z.div_mod (Z.of_nat n + Z.of_nat b - 1) (Z.of_nat b)
                ltac:(lia)) as Hdm.
  pose proof (Z.mod_pos_bound (Z.of_nat n + Z.of_nat b - 1) (Z.of_nat b)
                ltac:(lia)) as Hmod.
  assert (0 <= (Z.of_nat n + Z.of_nat b - 1) / Z.of_nat b)
    by (apply Z.div_pos; lia).
  nia.
Qed.

Section Facts.

Variable E : Type.
Variable embeddings_create : E -> list str -> E * option (list vector).
Variable model : string.

(** What the interface of the embedding service promises: a reply holds
    one embedding per input text. *)
Definition service_contract : Prop :=
  forall e req e' reply,
    embeddings_create e req = (e', Some reply) -> length reply = length req.

(** Where the vector [v] returned for [text] comes from: the reply to a
    group request, at the position of the text in the request; a reply
    to the text on its own; or the zero vector, after the text failed on
    its own as well. *)
Definition item_result (text : str) (v : vector) : Prop :=
  (exists e e' req reply i,
      embeddings_create e req = (e', Some reply)
      /\ req !! i = Some (clean text) /\ reply !! i = Some v)
  \/ (exists e e',
        generate_embedding E embeddings_create text e = (e', Some v))
  \/ (v = zero_vector model
      /\ exists e e',
           generate_embedding E embeddings_create text e = (e', None)).

Lemma embed_individually_spec (batch : list str) :
  forall e,
    Forall2 item_result batch
      (embed_individually E embeddings_create model batch e).2.
Proof.
  induction batch as [|text batch IH]; intros e; simpl; [constructor|].
  destruct (generate_embedding E embeddings_create text e) as [e1 r] eqn:Hg.
  specialize (IH e1).
  destruct (embed_individually E embeddings_create model batch e1)
    as [e2 vs].
  simpl in *. constructor; [|exact IH].
  destruct r as [v|]; simpl.
  - right. left. eauto.
  - right. right. eauto.
Qed.

Lemma embed_group_spec (batch : list str) (e : E) :
  service_contract ->
  Forall2 item_result batch (embed_group E embeddings_create model batch e).2.
Proof.
  intros Hcontract. unfold embed_group.
  destruct (embeddings_create e (map clean batch)) as [e' [reply|]] eqn:Hc.
  - simpl. apply Forall2_same_length_lookup_2.
    + apply Hcontract in Hc. rewrite length_map in Hc. congruence.
    + intros i text v Ht Hv. left. exists e, e', (map clean batch), reply, i.
      repeat split; [exact Hc | | exact Hv].
      change (map clean batch) with (clean <$> batch).
      rewrite list_lookup_fmap, Ht. reflexivity.
  - apply embed_individually_spec.
Qed.

Lemma batch_loop_spec (texts : list str) (b : nat) :
  service_contract -> (0 < b)%nat ->
  forall (m k : nat) (e : E),
    Forall2 item_result (take (m * b) (drop (k * b) texts))
      (batch_loop E embeddings_create model texts (Z.of_nat b) (seq k m) e).2.
Proof.
  intros Hcontract Hb. induction m as [|m IH]; intros k e; simpl seq.
  - simpl. constructor.
  - cbn [batch_loop]. rewrite slice_batch by exact Hb.
    pose proof (embed_group_spec (take b (drop (k * b) texts)) e Hcontract)
      as Hgroup.
    destruct (embed_group E embeddings_create model
                (take b (drop (k * b) texts)) e) as [e1 vs].
    specialize (IH (S k) e1).
    destruct (batch_loop E embeddings_create model texts (Z.of_nat b)
                (seq (S k) m) e1) as [e2 ws].
    simpl in *.
    replace (b + m * b)%nat with (b + m * b)%nat by reflexivity.
    rewrite <- take_take_drop, drop_drop.
    replace (k * b + b)%nat with (b + k * b)%nat by lia.
    apply Forall2_app; assumption.
Qed.

Lemma generate_embeddings_batch_nat (texts : list str) (b : nat) (e : E) :
  service_contract -> (0 < b)%nat ->
  exists e' vs,
    generate_embeddings_batch E embeddings_create model texts (Z.of_nat b) e
    = (e', Some vs)
    /\ Forall2 item_result texts vs.
Proof.
  intros Hcontract Hb. unfold generate_embeddings_batch.
  destruct (Z.eqb_spec (Z.of_nat b) 0) as [?|_]; [lia|].
  set (m := Z.to_nat ((len texts + Z.of_nat b - 1) / Z.of_nat b)).
  pose proof (batch_loop_spec texts b Hcontract Hb m 0 e) as Hloop.
  destruct (batch_loop E embeddings_create model texts (Z.of_nat b)
              (seq 0 m) e) as [e' vs].
  exists e', vs. split; [reflexivity|].
  simpl in Hloop. rewrite take_ge in Hloop; [exact Hloop|].
  subst m. unfold len. apply batches_cover, Hb.
Qed.

Lemma generate_embeddings_batch_spec (texts : list str) (batch_size : Z)
  (e : E) :
  service_contract -> 0 < batch_size ->
  exists e' vs,
    generate_embeddings_batch E embeddings_create model texts batch_size e
    = (e', Some vs)
    /\ Forall2 item_result texts vs.
Proof.
  intros Hcontract Hb.
  replace batch_size with (Z.of_nat (Z.to_nat batch_size)) by lia.
  apply generate_embeddings_batch_nat; [exact Hcontract | lia].
Qed.

(** *** The result, batch by batch *)

(** The batches the loop cuts the input into. *)
Definition batches_from (texts : list str) (b k m : nat) : list (list str) :=
  map (fun i => take b (drop (i * b) texts)) (seq k m).

Definition batches (texts : list str) (batch_size : Z) : list (list str) :=
  batches_from texts (Z.to_nat batch_size) 0
    (Z.to_nat ((len texts + batch_size - 1) / batch_size)).

(** The vector for a text after the request for its group raised: the
    reply to the text on its own, or the zero vector when that raised
    too. *)
Definition retried_alone (text : str) (v : vector) : Prop :=
  (exists e e', generate_embedding E embeddings_create text e = (e', Some v))
  \/ (v = zero_vector model
      /\ exists e e',
           generate_embedding E embeddings_create text e = (e', None)).

(** The vectors [group] returned for the texts of [batch]: as many as
    the texts, and position by position the embedding at that position
    of a reply to the request for the whole batch, or, that request
    having raised, the vector of the text retried alone. *)
Definition group_result (batch : list str) (group : list vector) : Prop :=
  length group = length batch
  /\ forall i text v,
       batch !! i = Some text -> group !! i = Some v ->
       (exists e e' reply,
           embeddings_create e (map clean batch) = (e', Some reply)
           /\ reply !! i = Some v)
       \/ ((exists e e', embeddings_create e (map clean batch) = (e', None))
           /\ retried_alone text v).

Lemma embed_individually_retried (batch : list str) :
  forall e,
    Forall2 retried_alone batch
      (embed_individually E embeddings_create model batch e).2.
Proof.
  induction batch as [|text batch IH]; intros e; simpl; [constructor|].
  destruct (generate_embedding E embeddings_create text e) as [e1 r] eqn:Hg.
  specialize (IH e1).
  destruct (embed_individually E embeddings_create model batch e1)
    as [e2 vs].
  simpl in *. constructor; [|exact IH].
  destruct r as [v|]; simpl; [left | right]; eauto.
Qed.

Lemma embed_group_result (batch : list str) (e : E) :
  service_contract ->
  group_result batch (embed_group E embeddings_create model batch e).2.
Proof.
  intros Hcontract. unfold embed_group, group_result.
  destruct (embeddings_create e (map clean batch)) as [e' [reply|]] eqn:Hc.
  - simpl. split.
    + apply Hcontract in Hc. rewrite length_map in Hc. exact Hc.
    + intros i text v _ Hv. left. eauto.
  - pose proof (embed_individually_retried batch e') as Hall. split.
    + symmetry. eapply Forall2_length, Hall.
    + intros i text v Ht Hv. right. split; [eauto|].
      eapply Forall2_lookup_lr; eassumption.
Qed.

Lemma batch_loop_groups (texts : list str) (b : nat) :
  service_contract -> (0 < b)%nat ->
  forall (m k : nat) (e : E),
    exists groups,
      (batch_loop E embeddings_create model texts (Z.of_nat b) (seq k m) e).2
      = concat groups
      /\ Forall2 group_result (batches_from texts b k m) groups.
Proof.
  intros Hcontract Hb. induction m as [|m IH]; intros k e.
  - exists []. split; [reflexivity | constructor].
  - simpl seq. cbn [batch_loop]. rewrite slice_batch by exact Hb.
    pose proof (embed_group_result (take b (drop (k * b) texts)) e Hcontract)
      as Hgroup.
    destruct (embed_group E embeddings_create model
                (take b (drop (k * b) texts)) e) as [e1 vs].
    destruct (IH (S k) e1) as (groups & Hg & Hall).
    destruct (batch_loop E embeddings_create model texts (Z.of_nat b)
                (seq (S k) m) e1) as [e2 ws].
    simpl in *. exists (vs :: groups). split; [rewrite Hg; reflexivity|].
    constructor; assumption.
Qed.

Lemma concat_batches_from (texts : list str) (b : nat) :
  forall m k,
    concat (batches_from texts b k m) = take (m * b) (drop (k * b) texts).
Proof.
  unfold batches_from. induction m as [|m IH]; intros k; simpl;
    [reflexivity|].
  rewrite IH, <- take_take_drop, drop_drop.
  replace (k * b + b)%nat with (b + k * b)%nat by lia. reflexivity.
Qed.

Lemma concat_batches (texts : list str) (batch_size : Z) :
  0 < batch_size -> concat (batches texts batch_size) = texts.
Proof.
  intros Hb. unfold batches. rewrite concat_batches_from. simpl.
  apply take_ge. unfold len.
  pose proof (batches_cover (length texts) (Z.to_nat batch_size)
                ltac:(lia)) as H.
  rewrite Z2Nat.id in H by lia. exact H.
Qed.

Lemma generate_embeddings_batch_groups (texts : list str) (batch_size : Z)
  (e : E) :
  service_contract -> 0 < batch_size ->
  exists groups,
    (generate_embeddings_batch E embeddings_create model texts batch_size e).2
    = Some (concat groups)
    /\ Forall2 group_result (batches texts batch_size) groups.
Proof.
  intros Hcontract Hb. unfold generate_embeddings_batch, batches.
  destruct (Z.eqb_spec batch_size 0) as [?|_]; [lia|].
  destruct (batch_loop_groups texts (Z.to_nat batch_size) Hcontract
              ltac:(lia)
              (Z.to_nat ((len texts + batch_size - 1) / batch_size)) 0%nat e)
    as (groups & Hg & Hall).
  rewrite Z2Nat.id in Hg by lia.
  destruct (batch_loop E embeddings_create model texts batch_size _ e)
    as [e' vs].
  simpl in *. exists groups. split; [congruence | exact Hall].
Qed.

(** *** Records *)

Lemma combine_map_fst {A B C} (f : A -> C) (g : A -> B -> C)
  (l : list A) (k : list B) :
  (forall a b, g a b = f a) -> length l = length k ->
  map (fun '(a, b) => g a b) (combine l k) = map f l.
Proof.
  intros Hg. revert k. induction l as [|a l IH]; intros [|b k] Hlen;
    simpl in *; try congruence.
  rewrite Hg, IH by lia. reflexivity.
Qed.

Lemma combine_map_snd {A B C} (g : A -> B -> C) (h : C -> B)
  (l : list A) (k : list B) :
  (forall a b, h (g a b) = b) -> length l = length k ->
  map h (map (fun '(a, b) => g a b) (combine l k)) = k.
Proof.
  intros Hg. revert k. induction l as [|a l IH]; intros [|b k] Hlen;
    simpl in *; try congruence.
  rewrite Hg, IH by lia. reflexivity.
Qed.

Lemma create_vectors_batch_spec (enriched_chunks : list EnrichedChunk)
  (use_enhanced_text : bool) (e : E) :
  service_contract ->
  exists e' vs,
    generate_embeddings_batch E embeddings_create model
      (map (text_for_embedding use_enhanced_text) enriched_chunks) 100 e
    = (e', Some vs)
    /\ length vs = length enriched_chunks
    /\ exists rs,
         create_vectors_batch E embeddings_create model enriched_chunks
           use_enhanced_text e = (e', Some rs)
         /\ map vr_id rs = map vector_id enriched_chunks
         /\ map vr_values rs = vs
         /\ map vr_metadata rs = map record_metadata enriched_chunks.
Proof.
  intros Hcontract.
  destruct (generate_embeddings_batch_spec
              (map (text_for_embedding use_enhanced_text) enriched_chunks)
              100 e Hcontract ltac:(lia)) as (e' & vs & Hg & Hall).
  apply Forall2_length in Hall. rewrite length_map in Hall.
  exists e', vs. split; [exact Hg|]. split; [congruence|].
  unfold create_vectors_batch. rewrite Hg. eexists. split; [reflexivity|].
  split; [|split].
  - rewrite map_map.
    rewrite <- (combine_map_fst vector_id
                  (fun ec v => vr_id {| vr_id := vector_id ec; vr_values := v;
                                        vr_metadata := record_metadata ec |})
                  enriched_chunks vs) by auto.
    apply map_ext. intros [ec v]. reflexivity.
  - rewrite <- (combine_map_snd
                  (fun ec v => {| vr_id := vector_id ec; vr_values := v;
                                  vr_metadata := record_metadata ec |})
                  vr_values enriched_chunks vs) at 2 by auto.
    reflexivity.
  - rewrite map_map.
    rewrite <- (combine_map_fst record_metadata
                  (fun ec v => vr_metadata
                                 {| vr_id := vector_id ec; vr_values := v;
                                    vr_metadata := record_metadata ec |})
                  enriched_chunks vs) by auto.
    apply map_ext. intros [ec v]. reflexivity.
Qed.


End Facts.

(** *** The metadata of a record *)

Lemma base_metadata_scalar (ec : EnrichedChunk) (k : string) (v : pyval) :
  base_metadata ec !! k = Some v -> is_scalar v = true.
Proof.
  unfold base_metadata. intros H.
  repeat (apply lookup_insert_Some in H as [[_ <-]|[_ H]]; [reflexivity|]).
  rewrite lookup_empty in H. discriminate.
Qed.

(** What the record's metadata [md] holds of the metadata the chunk of
    [ec] inherited: each pair with a scalar value, as it is; no pair with
    another value, the key then holding what the chunk's own fields give
    it, if anything; and nothing but scalar values, each an inherited
    pair or a field of the chunk. *)
Definition scalar_only_copied (ec : EnrichedChunk) (md : gmap string pyval)
  : Prop :=
  (forall k v, metadata (original_chunk ec) !! k = Some v ->
               is_scalar v = true -> md !! k = Some v)
  /\ (forall k v, metadata (original_chunk ec) !! k = Some v ->
                  is_scalar v = false ->
                  md !! k <> Some v /\ md !! k = base_metadata ec !! k)
  /\ (forall k v, md !! k = Some v ->
                  is_scalar v = true
                  /\ (metadata (original_chunk ec) !! k = Some v
                      \/ base_metadata ec !! k = Some v)).

Lemma record_metadata_scalar_only (ec : EnrichedChunk) :
  scalar_only_copied ec (record_metadata ec).
Proof.
  unfold record_metadata, scalar_items. repeat split.
  - intros k v Hk Hv. apply lookup_union_Some_l.
    apply map_lookup_filter_Some. auto.
  - intros E. rewrite lookup_union_r in E.
    + apply base_metadata_scalar in E. congruence.
    + apply map_lookup_filter_None. right. intros x Hx. simpl. congruence.
  - apply lookup_union_r, map_lookup_filter_None. right.
    intros x Hx. simpl. congruence.
  - apply lookup_union_Some_raw in H as [H|[_ H]].
    + apply map_lookup_filter_Some in H as [_ H]. exact H.
    + apply base_metadata_scalar in H. exact H.
  - apply lookup_union_Some_raw in H as [H|[_ H]]; [|auto].
    apply map_lookup_filter_Some in H as [H _]. auto.
Qed.

Lemma lookup_combine {A B} (l : list A) (k : list B) (i : nat) (a : A) (b : B) :
  combine l k !! i = Some (a, b) -> l !! i = Some a /\ k !! i = Some b.
Proof.
  revert k i. induction l as [|x l IH]; intros [|y k] [|i]; simpl;
    try discriminate.
  - intros [= -> ->]. auto.
  - apply IH.
Qed.

Lemma create_vectors_batch_returns (E : Type)
  (embeddings_create : E -> list str -> E * option (list vector))
  (model : string) (ecs : list EnrichedChunk) (use : bool) (e : E) :
  exists e' vs,
    create_vectors_batch E embeddings_create model ecs use e
    = (e', Some (map (fun '(ec, v) =>
                        {| vr_id := vector_id ec;
                           vr_values := v;
                           vr_metadata := record_metadata ec |})
                   (combine ecs vs))).
Proof.
  unfold create_vectors_batch, generate_embeddings_batch. cbv zeta.
  change (100 =? 0) with false. cbv iota.
  destruct (batch_loop E embeddings_create model _ 100 _ e) as [e' vs].
  eauto.
Qed.

(** C10.  Building the metadata of a record cannot raise: the
    constructor for one chunk returns a record whenever the embedding of
    its text is returned (and raises only when that raises), and the
    batch constructor always returns.  In the record of a chunk, the
    inherited pairs of that chunk's metadata that hold a [str], [int],
    [float] or [bool] are copied as they are; a pair with any other
    value (a list, a dict, [None]) is left out; and every value of the
    record's metadata is a scalar.  The i-th record of the batch is the
    record of the i-th chunk, and there is one per chunk when the
    service answers with one embedding per text. *)
Theorem C10_only_scalar_metadata_is_copied (E : Type)
  (embeddings_create : E -> list str -> E * option (list vector))
  (model : string) :
  (forall ec use e e' v,
     generate_embedding E embeddings_create (text_for_embedding use ec) e
     = (e', Some v) ->
     exists r,
       create_vector_for_enriched_chunk E embeddings_create ec use e
       = (e', Some r)
       /\ scalar_only_copied ec (vr_metadata r))
  /\ (forall ec use e e',
        create_vector_for_enriched_chunk E embeddings_create ec use e
        = (e', None)
        <-> generate_embedding E embeddings_create
              (text_for_embedding use ec) e = (e', None))
  /\ (forall ecs use e,
        exists e' rs,
          create_vectors_batch E embeddings_create model ecs use e
          = (e', Some rs)
          /\ forall i r,
               rs !! i = Some r ->
               exists ec, ecs !! i = Some ec
                          /\ scalar_only_copied ec (vr_metadata r))
  /\ (service_contract E embeddings_create ->
      forall ecs use e,
        exists e' rs,
          create_vectors_batch E embeddings_create model ecs use e
          = (e', Some rs)
          /\ Forall2 (fun ec r => scalar_only_copied ec (vr_metadata r))
               ecs rs).
Proof.
  assert (Hbatch : forall ecs use e,
            exists e' rs,
              create_vectors_batch E embeddings_create model ecs use e
              = (e', Some rs)
              /\ forall i r,
                   rs !! i = Some r ->
                   exists ec, ecs !! i = Some ec
                              /\ scalar_only_copied ec (vr_metadata r)).
  { intros ecs use e.
    destruct (create_vectors_batch_returns E embeddings_create model ecs use e)
      as (e' & vs & Hr).
    eexists _, _. split; [exact Hr|]. intros i r Hi.
    rewrite list_lookup_fmap in Hi.
    destruct (combine ecs vs !! i) as [[ec v]|] eqn:Hc; [|discriminate].
    injection Hi as <-. apply lookup_combine in Hc as [Hec _].
    exists ec. split; [exact Hec | apply record_metadata_scalar_only]. }
  split; [|split; [|split; [exact Hbatch|]]].
  - intros ec use e e' v H. unfold create_vector_for_enriched_chunk.
    rewrite H. eexists. split; [reflexivity|].
    apply record_metadata_scalar_only.
  - intros ec use e e'. unfold create_vector_for_enriched_chunk.
    destruct (generate_embedding _ _ _ _) as [e1 [v|]];
      split; congruence.
  - intros Hcontract ecs use e.
    destruct (Hbatch ecs use e) as (e' & rs & Hr & Hall).
    exists e', rs. split; [exact Hr|].
    destruct (create_vectors_batch_spec E embeddings_create model ecs use e
                Hcontract) as (e2 & vs & _ & _ & rs2 & Hr2 & Hids & _ & _).
    rewrite Hr in Hr2. injection Hr2 as _ <-.
    apply (f_equal (@length _)) in Hids. rewrite !length_map in Hids.
    apply Forall2_same_length_lookup_2; [congruence|].
    intros i ec r Hec Hi. destruct (Hall i r Hi) as (ec' & Hec' & H).
    congruence.
Qed.

(** *** A service to run the generator on examples *)

(** The state counts the requests.  A request that holds the text [bad]
    raises; any other is answered with one vector per text, as long as
    the text. *)
Definition toy_vector (t : str) : vector := replicate (length t) PrimFloat.one.

Definition toy_create (e : nat) (req : list str) : nat * option (list vector) :=
  if existsb (fun t => bool_decide (t = py "bad")) req then (S e, None)
  else (S e, Some (map toy_vector req)).

Lemma toy_contract : service_contract nat toy_create.
Proof.
  intros e req e' reply. unfold toy_create.
  destruct (existsb _ req); [discriminate|].
  intros [= _ <-]. apply length_map.
Qed.

Definition example_chunk : Chunk :=
  {| text := py "hi";
     chunk_index := 7;
     doc_id := py "doc";
     start_char := 0;
     end_char := 2;
     token_count := 1;
     metadata := <["title" := PStr (py "Guide")]>
                 (<["page" := PInt 3]>
                 (<["tags" := PList [PStr (py "a"); PStr (py "b")]]>
                 (<["deleted_at" := PNone]> ∅))) |}.

(** *** One vector per text, in order *)

(** C3.  With a positive batch size and a service that answers a
    request with one embedding per text, [generate_embeddings_batch]
    returns, and returns exactly one vector per input text, in input
    order.  The result is the concatenation of one group of vectors per
    batch of the input, each as long as its batch; in a group, the
    vector at the place of a text is the embedding at that place of the
    reply to the batch or, the request for the batch having raised, the
    reply to the text on its own, or the zero vector of the configured
    dimension when that raised too. *)
Theorem C3_one_vector_per_text_in_order (E : Type)
  (embeddings_create : E -> list str -> E * option (list vector))
  (model : string) (texts : list str) (batch_size : Z) (e : E) :
  service_contract E embeddings_create ->
  0 < batch_size ->
  exists e' vs,
    generate_embeddings_batch E embeddings_create model texts batch_size e
    = (e', Some vs)
    /\ length vs = length texts
    /\ Forall2 (item_result E embeddings_create model) texts vs
    /\ (exists groups,
          vs = concat groups
          /\ concat (batches texts batch_size) = texts
          /\ Forall2 (group_result E embeddings_create model)
               (batches texts batch_size) groups)
    /\ length (zero_vector model) = dimension model.
Proof.
  intros Hcontract Hb.
  destruct (generate_embeddings_batch_spec E embeddings_create model texts
              batch_size e Hcontract Hb) as (e' & vs & Hg & Hall).
  destruct (generate_embeddings_batch_groups E embeddings_create model texts
              batch_size e Hcontract Hb) as (groups & Hgs & Hgroups).
  rewrite Hg in Hgs. simpl in Hgs. injection Hgs as ->.
  exists e', (concat groups). split; [exact Hg|].
  split; [symmetry; eapply Forall2_length, Hall|].
  split; [exact Hall|]. split.
  - exists groups. split; [reflexivity|].
    split; [apply concat_batches, Hb | exact Hgroups].
  - apply length_replicate.
Qed.

(** A batch size of zero: the division raises before any request. *)
Example batch_size_zero_raises :
  generate_embeddings_batch nat toy_create "text-embedding-3-small"
    [py "a"] 0 0%nat = (0%nat, None).
Proof. reflexivity. Qed.

(** 250 texts, the one at position 150 failing. *)
Definition scenario_texts : list str :=
  map (fun i => if (i =? 150)%nat then py "bad" else str_of_nat i) (seq 0 250).

Lemma C3_witness_250_texts :
  exists e' vs,
    generate_embeddings_batch nat toy_create "text-embedding-3-small"
      scenario_texts 100 0%nat = (e', Some vs)
    /\ length vs = length scenario_texts
    /\ Forall2 (item_result nat toy_create "text-embedding-3-small")
         scenario_texts vs
    /\ (exists groups,
          vs = concat groups
          /\ concat (batches scenario_texts 100) = scenario_texts
          /\ Forall2 (group_result nat toy_create "text-embedding-3-small")
               (batches scenario_texts 100) groups)
    /\ length (zero_vector "text-embedding-3-small")
       = dimension "text-embedding-3-small".
Proof.
  apply (C3_one_vector_per_text_in_order nat toy_create
           "text-embedding-3-small" scenario_texts 100 0%nat).
  - exact toy_contract.
  - reflexivity.
Defined.

(** The scenario of the specification, run: 250 vectors come back, the
    one at position 150 is the zero vector, every other is the vector of
    the text at its position. *)
Example batch_scenario_250 :
  (generate_embeddings_batch nat toy_create "text-embedding-3-small"
     scenario_texts 100 0%nat).2
  = Some (map (fun t => if bool_decide (t = py "bad")
                        then zero_vector "text-embedding-3-small"
                        else toy_vector t) scenario_texts).
Proof. vm_compute. reflexivity. Qed.

(** *** The length of a vector is not checked *)

(** C4.  The length of a vector is not checked when a record is built.
    An embedding whose length is not the configured dimension, returned
    by the service for the chunk's text, becomes the values of the
    record of [create_vector_for_enriched_chunk] as it is, and nothing
    is raised; [create_vectors_batch] never raises, whatever the service
    returns, and under the service contract its records hold the vectors
    of [generate_embeddings_batch] one by one. *)
Theorem C4_wrong_length_vector_is_accepted (E : Type)
  (embeddings_create : E -> list str -> E * option (list vector))
  (model : string) :
  (forall ec use e e' v rest,
     embeddings_create e [clean (text_for_embedding use ec)]
     = (e', Some (v :: rest)) ->
     length v <> dimension model ->
     exists r,
       create_vector_for_enriched_chunk E embeddings_create ec use e
       = (e', Some r)
       /\ vr_values r = v
       /\ length (vr_values r) <> dimension model)
  /\ (forall ecs use e,
        exists e' rs,
          create_vectors_batch E embeddings_create model ecs use e
          = (e', Some rs))
  /\ (service_contract E embeddings_create ->
      forall ecs use e,
      exists e' vs rs,
        generate_embeddings_batch E embeddings_create model
          (map (text_for_embedding use) ecs) 100 e = (e', Some vs)
        /\ create_vectors_batch E embeddings_create model ecs use e
           = (e', Some rs)
        /\ map vr_values rs = vs).
Proof.
  split; [|split].
  - intros ec use e e' v rest H Hlen.
    unfold create_vector_for_enriched_chunk, generate_embedding.
    unfold retry, embedding_attempt. rewrite H. eauto.
  - intros ecs use e.
    destruct (create_vectors_batch_returns E embeddings_create model ecs use e)
      as (e' & vs & Hr).
    eauto.
  - intros Hcontract ecs use e.
    destruct (create_vectors_batch_spec E embeddings_create model ecs use e
                Hcontract) as (e' & vs & Hg & _ & rs & Hr & _ & Hv & _).
    exists e', vs, rs. auto.
Qed.

(** The run that shows it: the service answers with a vector of two
    components under a model of dimension 3072, and the record holds
    that vector. *)
Lemma C4_witness_short_vector :
  dimension "text-embedding-3-large" = 3072%nat
  /\ exists r,
       create_vector_for_enriched_chunk nat toy_create
         (fallback_chunk example_chunk) true 0%nat = (1%nat, Some r)
       /\ vr_values r = toy_vector (py "hi")
       /\ length (vr_values r) <> dimension "text-embedding-3-large".
Proof.
  split; [reflexivity|].
  apply (proj1 (C4_wrong_length_vector_is_accepted nat toy_create
                  "text-embedding-3-large")
           (fallback_chunk example_chunk) true 0%nat 1%nat
           (toy_vector (py "hi")) []).
  - reflexivity.
  - vm_compute. discriminate.
Defined.

(** The batch constructor on the same reply. *)
Example short_vector_accepted_in_batch :
  exists e' r,
    create_vectors_batch nat toy_create "text-embedding-3-large"
      [fallback_chunk example_chunk] true 0%nat = (e', Some [r])
    /\ length (vr_values r) = 2%nat.
Proof. vm_compute. eauto. Qed.

(** *** Record identifiers *)





End EmbeddingGeneratorFacts.

(** ** Properties of the context generator *)

Module ContextGeneratorFacts.
Import PyStr TextChunker Retry ContextGenerator.

Section Facts.

Variable W : Type.
Variable openai_chat : W -> str -> W * option str.
Variable anthropic_messages : W -> str -> W * option str.
Variable eval_content : str -> option pyval.
Variable json_loads : str -> option pyval.
Variable str_of_value : pyval -> str.
Variable prompt_default prompt_detailed prompt_technical : str -> str -> str.
Variable use_provider : string.

Local Abbreviation call :=
  (call_llm W openai_chat anthropic_messages eval_content json_loads
     use_provider).
Local Abbreviation enrich :=
  (generate_context_for_chunk W openai_chat anthropic_messages eval_content
     json_loads str_of_value prompt_default prompt_detailed prompt_technical
     use_provider).
Local Abbreviation enrich_all :=
  (generate_contexts_batch W openai_chat anthropic_messages eval_content
     json_loads str_of_value prompt_default prompt_detailed prompt_technical
     use_provider).

(** A call whose attempts all raise, whatever the state, raises. *)
Lemma retry_all_fail {A} (attempt : W -> W * option A) (n : nat) :
  (forall w, (attempt w).2 = None) ->
  forall w, (retry n attempt w).2 = None.
Proof.
  intros Hfail. induction n as [|n IH]; intros w; simpl; [reflexivity|].
  specialize (Hfail w). destruct (attempt w) as [w' [a|]]; simpl in *;
    [discriminate | apply IH].
Qed.

(** An attempt that returns ends the call: nothing is tried again. *)
Lemma retry_first_returns {A} (attempt : W -> W * option A) (n : nat)
  (w w' : W) (a : A) :
  attempt w = (w', Some a) -> retry (S n) attempt w = (w', Some a).
Proof. intros H. simpl. now rewrite H. Qed.

(** The outcome of a call whose attempts do not depend on the state
    does not depend on it either. *)
Lemma retry_stateless {A} (attempt : W -> W * option A) :
  (forall w1 w2, (attempt w1).2 = (attempt w2).2) ->
  forall n w1 w2, (retry n attempt w1).2 = (retry n attempt w2).2.
Proof.
  intros Hs. induction n as [|n IH]; intros w1 w2; simpl; [reflexivity|].
  specialize (Hs w1 w2).
  destruct (attempt w1) as [w1' [a1|]], (attempt w2) as [w2' [a2|]];
    simpl in *; try congruence.
  apply IH.
Qed.

Lemma build_enriched_original (chunk : Chunk) (result : pyval)
  (o : EnrichedObject) :
  build_enriched str_of_value chunk result = Some o ->
  obj_original_chunk o = chunk.
Proof.
  unfold build_enriched.
  destruct (_create_enhanced_text str_of_value chunk result);
    [|discriminate].
  destruct result; simpl; try discriminate. now intros [= <-].
Qed.

Lemma enrich_original (chunk : Chunk) (dc : option str) (t : string) (w : W) :
  obj_original_chunk (enrich chunk dc t w).2 = chunk.
Proof.
  unfold generate_context_for_chunk. cbv zeta.
  destruct (call _ w) as [w' [r|]]; [|reflexivity].
  simpl.
  destruct (build_enriched str_of_value chunk r) as [o|] eqn:E;
    [|reflexivity].
  exact (build_enriched_original chunk r o E).
Qed.

Lemma enrich_all_originals (chunks : list Chunk) (dc : option str)
  (t : string) :
  forall w, map obj_original_chunk (enrich_all chunks dc t w).2 = chunks.
Proof.
  induction chunks as [|c chunks IH]; intros w; simpl; [reflexivity|].
  pose proof (enrich_original c dc t w) as Hc.
  destruct (enrich c dc t w) as [w1 ec]. specialize (IH w1).
  destruct (enrich_all chunks dc t w1) as [w2 ecs].
  simpl in *. congruence.
Qed.

(** A reply of the OpenAI client that [eval] cannot read, or no reply. *)
Definition openai_fails_on (prompt : str) : Prop :=
  forall w, match openai_chat w prompt with
            | (_, Some content) => eval_content content = None
            | (_, None) => True
            end.

(** A reply of the Anthropic client with no JSON object in it or with
    one that [json.loads] cannot read, or no reply. *)
Definition anthropic_fails_on (prompt : str) : Prop :=
  forall w, match anthropic_messages w prompt with
            | (_, Some content) =>
                match search_braces content with
                | Some json => json_loads json = None
                | None => True
                end
            | (_, None) => True
            end.

Lemma call_fails (prompt : str) :
  (if String.eqb use_provider "openai" then openai_fails_on prompt
   else anthropic_fails_on prompt) ->
  forall w, (call prompt w).2 = None.
Proof.
  unfold call_llm, _call_openai, _call_anthropic.
  destruct (String.eqb use_provider "openai"); intros Hfail;
    apply retry_all_fail; intros w; specialize (Hfail w).
  - unfold openai_attempt.
    destruct (openai_chat w prompt) as [w' [c|]]; [exact Hfail | reflexivity].
  - unfold anthropic_attempt.
    destruct (anthropic_messages w prompt) as [w' [c|]]; [|reflexivity].
    destruct (search_braces c); [exact Hfail | reflexivity].
Qed.

(** The replies of the services depend on the prompt only. *)
Definition replies_by_prompt : Prop :=
  (forall w1 w2 prompt, (openai_chat w1 prompt).2 = (openai_chat w2 prompt).2)
  /\ (forall w1 w2 prompt,
         (anthropic_messages w1 prompt).2 = (anthropic_messages w2 prompt).2).

Lemma call_by_prompt (prompt : str) :
  replies_by_prompt -> forall w1 w2, (call prompt w1).2 = (call prompt w2).2.
Proof.
  intros [Ho Ha] w1 w2. unfold call_llm, _call_openai, _call_anthropic.
  destruct (String.eqb use_provider "openai"); apply retry_stateless;
    intros v1 v2.
  - unfold openai_attempt. specialize (Ho v1 v2 prompt).
    destruct (openai_chat v1 prompt) as [? [?|]],
             (openai_chat v2 prompt) as [? [?|]]; simpl in *; congruence.
  - unfold anthropic_attempt. specialize (Ha v1 v2 prompt).
    destruct (anthropic_messages v1 prompt) as [? [c1|]],
             (anthropic_messages v2 prompt) as [? [c2|]]; simpl in *;
      try congruence.
    injection Ha as ->. destruct (search_braces c2); reflexivity.
Qed.

Lemma enrich_by_prompt (chunk : Chunk) (dc : option str) (t : string) :
  replies_by_prompt ->
  forall w1 w2, (enrich chunk dc t w1).2 = (enrich chunk dc t w2).2.
Proof.
  intros Hs w1 w2. unfold generate_context_for_chunk. cbv zeta.
  pose proof (call_by_prompt
                (prompts_get prompt_default prompt_detailed prompt_technical t
                   (text chunk) (doc_context_or_default dc)) Hs w1 w2) as H.
  destruct (call _ w1) as [? [r1|]], (call _ w2) as [? [r2|]];
    simpl in *; congruence.
Qed.

(** With such services every chunk of a batch gets the result it gets
    when it is enriched alone. *)
Lemma enrich_all_by_prompt (dc : option str) (t : string) :
  replies_by_prompt ->
  forall (chunks : list Chunk) (w w0 : W) (i : nat) (chunk : Chunk),
    chunks !! i = Some chunk ->
    (enrich_all chunks dc t w).2 !! i = Some (enrich chunk dc t w0).2.
Proof.
  intros Hs. induction chunks as [|c chunks IH]; intros w w0 i chunk Hi;
    [discriminate|].
  cbn [generate_contexts_batch].
  pose proof (enrich_by_prompt c dc t Hs w w0) as Hc.
  destruct (enrich c dc t w) as [w1 ec].
  specialize (IH w1 w0).
  destruct (enrich_all chunks dc t w1) as [w2 ecs].
  destruct i as [|i]; simpl in *.
  - injection Hi as <-. now rewrite Hc.
  - now apply IH.
Qed.

(** The batch is the chunks enriched one after the other. *)
Lemma enrich_all_app (pre post : list Chunk) (dc : option str) (t : string) :
  forall w,
    enrich_all (pre ++ post) dc t w
    = let '(w1, r1) := enrich_all pre dc t w in
      let '(w2, r2) := enrich_all post dc t w1 in
      (w2, r1 ++ r2).
Proof.
  induction pre as [|c pre IH]; intros w; simpl.
  - destruct (enrich_all post dc t w); reflexivity.
  - destruct (enrich c dc t w) as [w1 ec]. rewrite IH.
    destruct (enrich_all pre dc t w1) as [w2 r1].
    destruct (enrich_all post dc t w2) as [w3 r2]. reflexivity.
Qed.

(** A value that is not a dict cannot be read. *)
Lemma build_enriched_not_dict (chunk : Chunk) (result : pyval) :
  (forall d, result <> PDict d) ->
  build_enriched str_of_value chunk result = None.
Proof.
  intros H. unfold build_enriched, _create_enhanced_text.
  destruct result; try reflexivity. now destruct (H d).
Qed.

End Facts.

(** C5.  A call to the model whose attempts all raise (the client
    raises, or the reply cannot be parsed) fails; an attempt that
    brings a value ends the call, whatever the value.
    [generate_context_for_chunk] returns the placeholder of its chunk
    when the call fails and when the value it brought cannot be read
    as the expected structure (as every value that is not a dict): no
    key concepts, keywords or questions, the topic [Desconhecido], and
    the chunk's own text as enhanced text.  It always returns.  The
    batch returns one object per chunk, each wrapping its own chunk, in
    order; the results of the chunks before a given one are those of
    the batch without it and the chunks after it; and with services
    whose replies depend on the prompt only, every chunk gets the
    result it gets when it is enriched alone, so a chunk that fails
    takes nothing from the others. *)
Theorem C5_failed_enrichment_yields_placeholder (W : Type)
  (openai_chat anthropic_messages : W -> str -> W * option str)
  (eval_content json_loads : str -> option pyval)
  (str_of_value : pyval -> str)
  (prompt_default prompt_detailed prompt_technical : str -> str -> str)
  (use_provider : string) :
  let call :=
    call_llm W openai_chat anthropic_messages eval_content json_loads
      use_provider in
  let enrich :=
    generate_context_for_chunk W openai_chat anthropic_messages eval_content
      json_loads str_of_value prompt_default prompt_detailed prompt_technical
      use_provider in
  let enrich_all :=
    generate_contexts_batch W openai_chat anthropic_messages eval_content
      json_loads str_of_value prompt_default prompt_detailed prompt_technical
      use_provider in
  let prompt_of := fun (chunk : Chunk) (dc : option str) (t : string) =>
    prompts_get prompt_default prompt_detailed prompt_technical t
      (text chunk) (doc_context_or_default dc) in
  (forall prompt,
     (if String.eqb use_provider "openai"
      then openai_fails_on W openai_chat eval_content prompt
      else anthropic_fails_on W anthropic_messages json_loads prompt) ->
     forall w, (call prompt w).2 = None)
  /\ (forall prompt w w1 content v,
        String.eqb use_provider "openai" = true ->
        openai_chat w prompt = (w1, Some content) ->
        eval_content content = Some v ->
        call prompt w = (w1, Some v))
  /\ (forall prompt w w1 content json v,
        String.eqb use_provider "openai" = false ->
        anthropic_messages w prompt = (w1, Some content) ->
        search_braces content = Some json ->
        json_loads json = Some v ->
        call prompt w = (w1, Some v))
  /\ (forall chunk dc t w w',
        call (prompt_of chunk dc t) w = (w', None) ->
        enrich chunk dc t w = (w', fallback_object chunk))
  /\ (forall chunk dc t w w' result,
        call (prompt_of chunk dc t) w = (w', Some result) ->
        build_enriched str_of_value chunk result = None ->
        enrich chunk dc t w = (w', fallback_object chunk))
  /\ (forall chunk result,
        (forall d, result <> PDict d) ->
        build_enriched str_of_value chunk result = None)
  /\ (forall chunk,
        obj_original_chunk (fallback_object chunk) = chunk
        /\ obj_key_concepts (fallback_object chunk) = PList []
        /\ obj_keywords (fallback_object chunk) = PList []
        /\ obj_questions (fallback_object chunk) = PList []
        /\ obj_topic (fallback_object chunk) = PStr (py "Desconhecido")
        /\ obj_enhanced_text (fallback_object chunk) = text chunk
        /\ as_declared (fallback_object chunk) = Some (fallback_chunk chunk))
  /\ (forall chunks dc t w,
        length (enrich_all chunks dc t w).2 = length chunks
        /\ map obj_original_chunk (enrich_all chunks dc t w).2 = chunks)
  /\ (forall pre post dc t w,
        take (length pre) (enrich_all (pre ++ post) dc t w).2
        = (enrich_all pre dc t w).2)
  /\ (replies_by_prompt W openai_chat anthropic_messages ->
      forall chunks dc t w w0 i chunk,
        chunks !! i = Some chunk ->
        (enrich_all chunks dc t w).2 !! i = Some (enrich chunk dc t w0).2).
Proof.
  intros call enrich enrich_all prompt_of.
  split; [apply call_fails|].
  split.
  { intros prompt w w1 content v Hp Hc Hv. subst call.
    unfold call_llm. rewrite Hp. unfold _call_openai.
    apply retry_first_returns. unfold openai_attempt.
    rewrite Hc, Hv. reflexivity. }
  split.
  { intros prompt w w1 content json v Hp Hc Hj Hv. subst call.
    unfold call_llm. rewrite Hp. unfold _call_anthropic.
    apply retry_first_returns. unfold anthropic_attempt.
    rewrite Hc, Hj, Hv. reflexivity. }
  split.
  { intros chunk dc t w w' Hfail. subst enrich call prompt_of.
    unfold generate_context_for_chunk. cbv zeta. cbv beta in Hfail.
    now rewrite Hfail. }
  split.
  { intros chunk dc t w w' result Hcall Hbuild. subst enrich call prompt_of.
    unfold generate_context_for_chunk. cbv zeta. cbv beta in Hcall.
    now rewrite Hcall, Hbuild. }
  split; [apply build_enriched_not_dict|].
  split; [intros chunk; repeat split|].
  split.
  { intros chunks dc t w. subst enrich_all. split.
    - rewrite <- (length_map obj_original_chunk).
      now rewrite enrich_all_originals.
    - apply enrich_all_originals. }
  split.
  { intros pre post dc t w. subst enrich_all. rewrite enrich_all_app.
    pose proof (enrich_all_originals W openai_chat anthropic_messages
                  eval_content json_loads str_of_value prompt_default
                  prompt_detailed prompt_technical use_provider pre dc t w)
      as Hlen.
    apply (f_equal (@length _)) in Hlen. rewrite length_map in Hlen.
    destruct (generate_contexts_batch _ _ _ _ _ _ _ _ _ _ pre dc t w)
      as [w1 r1].
    destruct (generate_contexts_batch _ _ _ _ _ _ _ _ _ _ post dc t w1)
      as [w2 r2].
    simpl in *. rewrite <- Hlen. apply take_app_length. }
  intros Hs chunks dc t w w0 i chunk Hi. subst enrich_all enrich.
  now apply enrich_all_by_prompt.
Qed.

(** *** The generator on replies that are not the expected structure *)

(** A service that counts its requests and answers each with the same
    text. *)
Definition constant_chat (reply : str) (requests : nat) (prompt : str)
  : nat * option str :=
  (S requests, Some reply).

(** [eval] on the two replies of the examples. *)
Definition toy_eval (content : str) : option pyval :=
  if bool_decide (content = py "[1, 2]") then Some (PList [PInt 1; PInt 2])
  else if bool_decide (content = py "{'topic': 5, 'key_concepts': 'ab'}")
  then Some (PDict [("topic", PInt 5); ("key_concepts", PStr (py "ab"))])
  else None.

Definition toy_str (v : pyval) : str :=
  match v with
  | PInt z => str_of_nat (Z.to_nat z)
  | _ => py "?"
  end.

Definition sample_chunk : Chunk :=
  {| text := py "hi"; chunk_index := 0; doc_id := py "doc";
     start_char := 0; end_char := 2; token_count := 1; metadata := ∅ |}.

(** A reply that [eval] reads as a list: one request is made, the value
    has no [get], and the chunk gets the placeholder. *)
Example list_reply_gives_placeholder_after_one_request :
  generate_context_for_chunk nat (constant_chat (py "[1, 2]"))
    (constant_chat (py "[1, 2]")) toy_eval toy_eval toy_str
    (fun t _ => t) (fun t _ => t) (fun t _ => t) "openai"
    sample_chunk None "default" 0%nat
  = (1%nat, fallback_object sample_chunk).
Proof. vm_compute. reflexivity. Qed.

(** A dict with fields that are not of the declared types: they are
    copied as they are, the [str] under [key_concepts] is joined
    character by character, and the object has no reading at the
    declared types. *)
Example ill_typed_fields_are_copied :
  let '(requests, o) :=
    generate_context_for_chunk nat
      (constant_chat (py "{'topic': 5, 'key_concepts': 'ab'}"))
      (constant_chat (py "{'topic': 5, 'key_concepts': 'ab'}"))
      toy_eval toy_eval toy_str
      (fun t _ => t) (fun t _ => t) (fun t _ => t) "openai"
      sample_chunk None "default" 0%nat in
  requests = 1%nat
  /\ obj_topic o = PInt 5
  /\ obj_key_concepts o = PStr (py "ab")
  /\ obj_keywords o = PList []
  /\ as_declared o = None
  /\ obj_enhanced_text o
     = py "CONTEXTO: " ++ [LF; LF] ++ py "T" ++ [ascii_of_nat 211]
       ++ py "PICO: 5" ++ [LF; LF] ++ py "CONCEITOS-CHAVE: a, b"
       ++ [LF; LF] ++ py "CONTE" ++ [ascii_of_nat 218] ++ py "DO:" ++ [LF]
       ++ py "hi" ++ [LF; LF] ++ py "PERGUNTAS RELACIONADAS:" ++ [LF]
       ++ [LF; LF] ++ py "PALAVRAS-CHAVE: ".
Proof. vm_compute. repeat split. Qed.

End ContextGeneratorFacts.

(** ** Properties of the document indexer *)

Module DocumentIndexerFacts.
Import PyStr TextChunker ContextGenerator EmbeddingGenerator DocumentIndexer.


Section Facts.

Variable W : Type.
Variable fetch_document_by_id : pyval -> M W (option (gmap string pyval)).
Variable update_document_status : pyval -> str -> option str -> M W bool.
Variable count_documents : option (gmap string pyval) -> M W Z.
Variable fetch_documents :
  option Z -> option (gmap string pyval) -> M W (list (gmap string pyval)).
Variable upsert_batch : list VectorRecord -> Z -> str -> M W Z.
Variable now_isoformat : W -> str.
Variable chunk_document : str -> str -> gmap string pyval -> M W (list Chunk).
Variable generate_document_summary : str -> W -> W * str.
Variable generate_contexts_batch :
  list Chunk -> option str -> W -> W * list EnrichedChunk.
Variable create_vectors_batch :
  list EnrichedChunk -> bool -> M W (list VectorRecord).
Variable format_value : pyval -> str.
Variable use_llm_context : bool.

Local Abbreviation index_doc :=
  (index_document W fetch_document_by_id update_document_status upsert_batch
     now_isoformat chunk_document generate_document_summary
     generate_contexts_batch create_vectors_batch format_value
     use_llm_context).
Local Abbreviation one :=
  (index_one W fetch_document_by_id update_document_status upsert_batch
     now_isoformat chunk_document generate_document_summary
     generate_contexts_batch create_vectors_batch format_value
     use_llm_context).
Local Abbreviation loop :=
  (index_loop W fetch_document_by_id update_document_status upsert_batch
     now_isoformat chunk_document generate_document_summary
     generate_contexts_batch create_vectors_batch format_value
     use_llm_context).








End Facts.


(** *** Five documents, one fetch raising *)

Import TextChunkerFacts EmbeddingGeneratorFacts.

(** A small world to run the indexer in: the requests made to the
    embedding service and the status updates written to the source. *)
Record world : Type := {
  w_requests : nat;
  w_status : list (pyval * str)
}.

Definition toy_doc (i : Z) : gmap string pyval :=
  <["id" := PInt i]>
  (<["content" := PStr (py "First part. Second part.")]>
  (<["title" := PStr (py "Guide")]> ∅)).

(** The fetch of document 3 raises. *)
Definition toy_fetch (id : pyval) : M world (option (gmap string pyval)) :=
  fun w => match id with
           | PInt 3 => (w, Raise (ServiceError (py "connection lost")))
           | PInt i => (w, Ok (Some (toy_doc i)))
           | _ => (w, Ok None)
           end.

Definition toy_update (id : pyval) (status : str) (indexed_at : option str)
  : M world bool :=
  fun w => ({| w_requests := w_requests w;
               w_status := w_status w ++ [(id, status)] |}, Ok true).

Definition toy_count (filters : option (gmap string pyval)) : M world Z :=
  ret 5.

Definition toy_documents (limit : option Z)
  (filters : option (gmap string pyval)) : M world (list (gmap string pyval)) :=
  ret (map toy_doc [1; 2; 3; 4; 5]).

Definition toy_upsert (vectors : list VectorRecord) (batch_size : Z)
  (namespace : str) : M world Z :=
  ret (len vectors).

(** The recursive chunker under a budget of two tokens. *)
Definition toy_chunk (text doc : str) (md : gmap string pyval)
  : M world (list Chunk) :=
  match chunk_document word_tokens (example_settings 2 0) (length text)
          RECURSIVE text doc (Some md) with
  | Some chunks => ret chunks
  | None => raise (ServiceError (py "no result"))
  end.

(** A text-generation service that is down. *)
Definition toy_chat (w : world) (prompt : str) : world * option str :=
  (w, None).

Definition toy_embed (w : world) (req : list str)
  : world * option (list vector) :=
  let '(n, r) := toy_create (w_requests w) req in
  ({| w_requests := n; w_status := w_status w |}, r).

Definition toy_vectors (ecs : list EnrichedChunk) (use : bool)
  : M world (list VectorRecord) :=
  fun w =>
    match create_vectors_batch world toy_embed "text-embedding-3-large"
            ecs use w with
    | (w', Some rs) => (w', Ok rs)
    | (w', None) => (w', Raise (ServiceError (py "batch size")))
    end.

Definition toy_format (v : pyval) : str :=
  match v with
  | PInt z => str_of_nat (Z.to_nat z)
  | PStr s => s
  | _ => py "?"
  end.

(** The indexer over the chunker, the context generator and the
    embedding generator of this development.  No reply of this service
    can be read, so every chunk gets the placeholder, whose fields have
    the declared types. *)
Definition toy_index_all : string -> str -> option Z ->
  option (gmap string pyval) -> bool -> M world BatchStats :=
  index_all_documents world toy_fetch toy_update toy_count toy_documents
    toy_upsert (fun _ => py "2025-01-01") toy_chunk
    (fun text =>
       generate_document_summary world toy_chat toy_chat "openai"
         (fun _ sample => sample) text 500)
    (fun chunks doc_context w =>
       let '(w', objects) :=
         generate_contexts_batch world toy_chat toy_chat
           (fun _ => None) (fun _ => None) (fun _ => [])
           (fun t _ => t) (fun t _ => t) (fun t _ => t) "openai"
           chunks doc_context "default" w in
       (w', omap as_declared objects))
    toy_vectors toy_format true.

(** The scenario of the specification: four documents are indexed (two
    chunks each), document 3 is counted as failed, named in the error
    list and marked [error] at the source. *)
Example index_all_five_documents_one_fetch_fails :
  exists w stats,
    toy_index_all "content" [] None None true
      {| w_requests := 0; w_status := [] |} = (w, Ok stats)
    /\ total_documents stats = 5%nat
    /\ successful stats = 4%nat
    /\ failed stats = 1%nat
    /\ total_chunks stats = 8%nat
    /\ errors stats = [(PInt 3, py "connection lost")]
    /\ w_status w = [(PInt 1, py "indexed"); (PInt 2, py "indexed");
                     (PInt 3, py "error"); (PInt 4, py "indexed");
                     (PInt 5, py "indexed")].
Proof. vm_compute. eexists _, _. repeat split. Qed.

End DocumentIndexerFacts.

(** * Further properties *)

Module PyMoreFacts.
Import PyStr PyStrFacts PyMore.

(** *** Joining and splitting *)

Lemma join_cons (sep p : str) (rest : list str) :
  rest <> [] -> join sep (p :: rest) = p ++ sep ++ join sep rest.
Proof. destruct rest; [congruence | reflexivity]. Qed.

Lemma join_snoc (sep p : str) (pieces : list str) :
  pieces <> [] -> join sep (pieces ++ [p]) = join sep pieces ++ sep ++ p.
Proof.
  induction pieces as [|q rest IH]; [congruence|]. intros _.
  destruct rest as [|r rest]; [reflexivity|].
  change ((q :: r :: rest) ++ [p]) with (q :: ((r :: rest) ++ [p])).
  rewrite join_cons by (simpl; congruence).
  rewrite IH by congruence.
  rewrite (join_cons sep q (r :: rest)) by congruence.
  now rewrite <- !app_assoc.
Qed.

Lemma split_go_nonempty (sep s : str) (skip : nat) (cur : str) :
  split_go sep s skip cur <> [].
Proof.
  revert skip cur. induction s as [|c s IH]; intros skip cur; simpl.
  - congruence.
  - destruct skip; [|apply IH].
    destruct (startswith sep (c :: s)); [congruence | apply IH].
Qed.

Lemma split_go_skip (sep u t cur : str) :
  split_go sep (u ++ t) (length u) cur = split_go sep t 0 cur.
Proof. induction u as [|c u IH]; simpl; [reflexivity | exact IH]. Qed.

Lemma split_go_join (sep : str) :
  sep <> [] ->
  forall (n : nat) (s cur : str),
    (length s <= n)%nat ->
    join sep (split_go sep s 0 cur) = rev cur ++ s.
Proof.
  intros Hsep n. induction n as [|n IH]; intros s cur Hn.
  - destruct s; [|simpl in Hn; lia]. simpl. now rewrite app_nil_r.
  - destruct s as [|c s]; [simpl; now rewrite app_nil_r|].
    cbn [split_go].
    destruct (startswith sep (c :: s)) eqn:Hst.
    + apply startswith_spec in Hst as [t Ht].
      destruct sep as [|d sep']; [congruence|].
      simpl in Ht. injection Ht as Hc Hs. subst d s.
      replace (length (c :: sep') - 1)%nat with (length sep')
        by (simpl; lia).
      rewrite split_go_skip.
      rewrite join_cons by apply split_go_nonempty.
      rewrite IH by (simpl in Hn; rewrite length_app in Hn; lia).
      reflexivity.
    + rewrite IH by (simpl in Hn; lia).
      simpl. now rewrite <- app_assoc.
Qed.

Lemma join_split (s sep : str) : sep <> [] -> join sep (split s sep) = s.
Proof.
  intros Hsep. unfold split.
  now rewrite (split_go_join sep Hsep (length s) s []).
Qed.

Lemma split_nonempty (s sep : str) : split s sep <> [].
Proof. apply split_go_nonempty. Qed.

(** *** Stripping *)

Lemma lstrip_suffix (s : str) : exists l, s = l ++ lstrip s /\ whitespace_only l = true.
Proof.
  induction s as [|c s [l [IH Hl]]]; simpl.
  - now exists [].
  - destruct (isspace c) eqn:Hc.
    + exists (c :: l). simpl. rewrite Hc, Hl. split; [congruence | reflexivity].
    + now exists [].
Qed.

Lemma rstrip_prefix (s : str) : exists r, s = rstrip s ++ r /\ whitespace_only r = true.
Proof.
  induction s as [|c s [r [IH Hr]]]; simpl.
  - now exists [].
  - destruct (rstrip s) as [|d t] eqn:Hrs.
    + destruct (isspace c) eqn:Hc.
      * exists (c :: s). simpl in *. subst s. simpl. rewrite Hc, Hr. now split.
      * exists s. simpl in IH. split; [reflexivity|]. now subst s.
    + exists r. split; [|exact Hr]. simpl. f_equal. exact IH.
Qed.

Lemma strip_infix (s : str) :
  exists l r, s = l ++ strip s ++ r
              /\ whitespace_only l = true /\ whitespace_only r = true.
Proof.
  destruct (lstrip_suffix s) as [l [Hl Wl]].
  destruct (rstrip_prefix (lstrip s)) as [r [Hr Wr]].
  exists l, r. unfold strip. now rewrite <- Hr.
Qed.

Lemma strip_whitespace_only (s : str) :
  whitespace_only s = true -> strip s = [].
Proof.
  intros H. destruct (strip_head s) as [E | [c [r [E Hc]]]]; [exact E|].
  destruct (strip_infix s) as [l [r' [Hs _]]].
  rewrite Hs, E in H. rewrite !whitespace_only_app in H. simpl in H.
  rewrite Hc in H. simpl in H. rewrite andb_false_r in H. discriminate.
Qed.

Lemma length_strip (s : str) : (length (strip s) <= length s)%nat.
Proof.
  destruct (strip_infix s) as [l [r [Hs _]]].
  rewrite Hs at 2. rewrite !length_app. lia.
Qed.

(** *** Slices *)

Lemma clamp_index_range (n i : Z) : 0 <= n -> 0 <= clamp_index n i <= n.
Proof.
  intros Hn. unfold clamp_index. cbv zeta.
  repeat match goal with |- context [?a <? ?b] => destruct (Z.ltb_spec a b) end;
    lia.
Qed.

Lemma length_slice {A} (l : list A) (i j : Z) :
  0 <= i -> 0 <= j -> len (slice l i j) <= Z.max 0 (j - i).
Proof.
  intros Hi Hj0. unfold slice, len. rewrite length_take, length_drop.
  assert (Hn : 0 <= Z.of_nat (length l)) by lia.
  pose proof (clamp_index_range (Z.of_nat (length l)) j Hn) as Hj.
  pose proof (clamp_index_range (Z.of_nat (length l)) i Hn) as Hi'.
  fold (len l).
  assert (Hle : clamp_index (len l) j - clamp_index (len l) i <= Z.max 0 (j - i)).
  { unfold len.
    rewrite !EmbeddingGeneratorFacts.clamp_index_nonneg by lia. lia. }
  unfold len in *. lia.
Qed.

(** *** Searching *)

Lemma find_first_Some (sub s : str) (k : nat) :
  find_first sub s = Some k ->
  (k <= length s)%nat /\ exists t, drop k s = sub ++ t.
Proof.
  revert k. induction s as [|c s IH]; intros k; simpl.
  - destruct (startswith sub []) eqn:E; [|discriminate].
    intros [= <-]. split; [simpl; lia|]. now apply startswith_spec.
  - destruct (startswith sub (c :: s)) eqn:E.
    + intros [= <-]. split; [lia|]. now apply startswith_spec.
    + destruct (find_first sub s) as [j|]; [|discriminate].
      intros [= <-]. destruct (IH j eq_refl) as [Hj Ht].
      split; [lia | exact Ht].
Qed.

Lemma find_first_le (sub a b : str) :
  exists k, find_first sub (a ++ sub ++ b) = Some k /\ (k <= length a)%nat.
Proof.
  induction a as [|c a [k [IH Hk]]].
  - exists 0%nat. simpl app. split; [|simpl; lia].
    destruct (sub ++ b) eqn:E; simpl; rewrite <- ?E, startswith_app;
      reflexivity.
  - simpl app. cbn [find_first].
    destruct (startswith sub (c :: a ++ sub ++ b)).
    + exists 0%nat. split; [reflexivity | lia].
    + exists (S k). rewrite IH. split; [reflexivity | simpl; lia].
Qed.

Lemma slice_located {A} (p x t : list A) :
  slice (p ++ x ++ t) (len p) (len p + len x) = x.
Proof.
  unfold slice, len.
  rewrite !EmbeddingGeneratorFacts.clamp_index_nonneg
    by (rewrite ?length_app; lia).
  rewrite !length_app.
  rewrite !Z.min_l by lia.
  rewrite Nat2Z.id.
  replace (Z.to_nat (Z.of_nat (length p) + Z.of_nat (length x)
                     - Z.of_nat (length p))) with (length x) by lia.
  rewrite drop_app_length. now rewrite take_app_length.
Qed.

(** [s.find(sub, start)] when [sub] occurs at an offset not before
    [start]: the result lies between [start] and that offset, and the
    text read there is [sub]. *)
Lemma find_located (s sub p t : str) (start : Z) :
  s = p ++ sub ++ t -> 0 <= start <= len p ->
  start <= find s sub start <= len p
  /\ slice s (find s sub start) (find s sub start + len sub) = sub.
Proof.
  intros Hs Hstart. unfold find. cbv zeta.
  destruct (Z.ltb_spec start 0) as [?|_]; [lia|].
  assert (Hlen : len s = len p + len sub + len t)
    by (subst s; unfold len; rewrite !length_app; lia).
  destruct (Z.ltb_spec (len s) start) as [?|_]; [unfold len in *; lia|].
  assert (Hdrop : drop (Z.to_nat start) s
                  = drop (Z.to_nat start) p ++ sub ++ t).
  { subst s. rewrite drop_app_le; [reflexivity | unfold len in *; lia]. }
  destruct (find_first_le sub (drop (Z.to_nat start) p) t) as [k [Hk Hle]].
  rewrite <- Hdrop in Hk. rewrite Hk.
  rewrite length_drop in Hle.
  split; [unfold len in *; lia|].
  apply find_first_Some in Hk as [_ [u Hu]].
  rewrite drop_drop in Hu.
  replace (Z.to_nat start + k)%nat with (Z.to_nat (start + Z.of_nat k)) in Hu
    by lia.
  set (j := start + Z.of_nat k) in *.
  assert (Hj : 0 <= j <= len p) by (unfold j, len in *; lia).
  assert (Hp : len (take (Z.to_nat j) s) = j)
    by (unfold len; rewrite length_take; unfold len in *; lia).
  assert (Hs2 : s = take (Z.to_nat j) s ++ sub ++ u)
    by (now rewrite <- Hu, take_drop).
  remember (take (Z.to_nat j) s) as q eqn:Hq.
  clearbody j. clear Hq Hu Hdrop Hlen Hs.
  rewrite Hs2, <- Hp. apply slice_located.
Qed.

(** [s.find(sub, start)] in general: [-1], or an offset at or after
    the start where the text read is [sub]. *)
Lemma find_cases (s sub : str) (start : Z) :
  0 <= start ->
  find s sub start = -1
  \/ (start <= find s sub start
      /\ find s sub start + len sub <= len s
      /\ slice s (find s sub start) (find s sub start + len sub) = sub).
Proof.
  intros Hstart. unfold find. cbv zeta.
  destruct (Z.ltb_spec start 0) as [?|_]; [lia|].
  destruct (Z.ltb_spec (len s) start) as [?|Hle]; [now left|].
  destruct (find_first sub (drop (Z.to_nat start) s)) as [k|] eqn:Hk;
    [right | now left].
  apply find_first_Some in Hk as [Hkl [u Hu]].
  rewrite length_drop in Hkl. rewrite drop_drop in Hu.
  replace (Z.to_nat start + k)%nat with (Z.to_nat (start + Z.of_nat k)) in Hu
    by lia.
  set (j := start + Z.of_nat k) in *.
  assert (Hj : 0 <= j <= len s) by (unfold j, len in *; lia).
  assert (Hs : s = take (Z.to_nat j) s ++ sub ++ u)
    by (now rewrite <- Hu, take_drop).
  assert (Hp : len (take (Z.to_nat j) s) = j)
    by (unfold len; rewrite length_take; unfold len in *; lia).
  remember (take (Z.to_nat j) s) as q eqn:Hq.
  split; [unfold j; lia|].
  clearbody j. clear Hq Hu.
  split.
  - rewrite Hs. unfold len in *. rewrite !length_app. lia.
  - rewrite Hs, <- Hp. apply slice_located.
Qed.

End PyMoreFacts.

Module TextChunkerMore.
Import PyStr PyStrFacts PyMore PyMoreFacts TextChunker TextChunkerFacts.

(** *** The recursive split loses no text *)

(** [glued seps spans s]: [s] is the spans in order with one of the
    separators between each two neighbours. *)
Fixpoint glued (seps : list str) (spans : list str) (s : str) : Prop :=
  match spans with
  | [] => False
  | x :: rest =>
      match rest with
      | [] => s = x
      | _ => exists sep s', sep ∈ seps /\ s = x ++ sep ++ s' /\ glued seps rest s'
      end
  end.

Lemma glued_nonempty (seps spans : list str) (s : str) :
  glued seps spans s -> spans <> [].
Proof. destruct spans; simpl; [tauto | congruence]. Qed.

Lemma glued_cons (seps : list str) (x sep s' : str) (rest : list str) :
  sep ∈ seps -> glued seps rest s' -> glued seps (x :: rest) (x ++ sep ++ s').
Proof.
  intros Hsep H. destruct rest as [|y rest]; [destruct H|].
  change (exists sep0 s0, sep0 ∈ seps /\ x ++ sep ++ s' = x ++ sep0 ++ s0
                          /\ glued seps (y :: rest) s0).
  eauto.
Qed.

Lemma glued_app (seps a b : list str) (s1 s2 sep : str) :
  sep ∈ seps -> glued seps a s1 -> glued seps b s2 ->
  glued seps (a ++ b) (s1 ++ sep ++ s2).
Proof.
  intros Hsep. revert s1. induction a as [|x a IH]; intros s1 Ha Hb.
  - destruct Ha.
  - destruct a as [|y a].
    + simpl in Ha. subst s1. simpl. now apply glued_cons.
    + destruct Ha as [sep0 [s0 [H0 [-> Hg]]]].
      change ((x :: y :: a) ++ b) with (x :: ((y :: a) ++ b)).
      rewrite <- !app_assoc.
      apply glued_cons; [exact H0|].
      now apply IH.
Qed.

Lemma glued_cons_inv (seps : list str) (x s : str) (rest : list str) :
  rest <> [] -> glued seps (x :: rest) s ->
  exists sep s', sep ∈ seps /\ s = x ++ sep ++ s' /\ glued seps rest s'.
Proof. destruct rest; [congruence | intros _ H; exact H]. Qed.

Lemma glued_extend_last (seps a : list str) (x s sep p : str) :
  sep ∈ seps -> glued seps (a ++ [x]) s ->
  glued seps (a ++ [x ++ sep ++ p]) (s ++ sep ++ p).
Proof.
  intros Hsep. revert s. induction a as [|y a IH]; intros s H.
  - simpl in *. now subst s.
  - change ((y :: a) ++ [x]) with (y :: (a ++ [x])) in H.
    change ((y :: a) ++ [x ++ sep ++ p]) with (y :: (a ++ [x ++ sep ++ p])).
    apply glued_cons_inv in H as [sep0 [s0 [H0 [-> Hg]]]];
      [|destruct a; discriminate].
    rewrite <- !app_assoc.
    apply glued_cons; [exact H0|].
    now apply IH.
Qed.

Lemma glued_mono (seps seps' spans : list str) (s : str) :
  (forall x, x ∈ seps -> x ∈ seps') ->
  glued seps spans s -> glued seps' spans s.
Proof.
  intros Hsub. revert s. induction spans as [|x rest IH]; intros s H.
  - destruct H.
  - destruct rest as [|y rest]; [exact H|].
    destruct H as [sep [s' [H0 [-> Hg]]]].
    exists sep, s'. split; [auto|]. split; [reflexivity|]. now apply IH.
Qed.

Section Tiling.

Variable count_tokens : str -> nat.
Variable settings : ChunkingSettings.

Abbreviation tokens_of := (TextChunkerFacts.tokens_of count_tokens).

Lemma split_loop_glued (recurse : str -> list str) (seps : list str)
  (sep : str) :
  sep ∈ seps ->
  (forall p, glued seps (recurse p) p) ->
  forall (splits done result cur : list str) (size : nat),
    size = tokens_of cur ->
    (done = [] -> result = [] /\ cur = []) ->
    (done <> [] -> glued seps (flush sep result cur) (join sep done)) ->
    done ++ splits <> [] ->
    glued seps
      (split_loop count_tokens settings recurse sep splits result cur size)
      (join sep (done ++ splits)).
Proof.
  intros Hsep Hrec.
  induction splits as [|p rest IH]; intros done result cur size Hsize H0 H1 Hne.
  - rewrite app_nil_r in *. simpl. auto.
  - replace (done ++ p :: rest) with ((done ++ [p]) ++ rest)
      by now rewrite <- app_assoc.
    assert (Hdone : done ++ [p] <> []) by (destruct done; discriminate).
    assert (Hne' : (done ++ [p]) ++ rest <> [])
      by (destruct done; discriminate).
    assert (Hstep : forall spans,
               (done = [] -> spans = []) ->
               (done <> [] -> glued seps spans (join sep done)) ->
               forall tail, glued seps tail p ->
               glued seps (spans ++ tail) (join sep (done ++ [p]))).
    { intros spans E0 E1 tail Ht. destruct done as [|d done].
      - rewrite E0 by reflexivity. exact Ht.
      - rewrite join_snoc by discriminate.
        apply glued_app; [exact Hsep | apply E1; discriminate | exact Ht]. }
    assert (Hnil : done ++ [p] = [] -> forall P : Prop, P)
      by (intros E; destruct done; discriminate).
    cbn [split_loop]. cbv zeta.
    destruct (chunk_size settings <? Z.of_nat (count_tokens p)) eqn:Hbig.
    + assert (Hg : glued seps (flush sep result cur ++ recurse p)
                     (join sep (done ++ [p]))).
      { apply Hstep; [| exact H1 | apply Hrec].
        intros E. destruct (H0 E) as [-> ->]. reflexivity. }
      destruct (nonempty cur) eqn:Hcur.
      * apply IH; [reflexivity | intros E; now apply Hnil | | exact Hne'].
        intros _. exact Hg.
      * destruct cur; [|discriminate].
        apply IH; [exact Hsize | intros E; now apply Hnil | | exact Hne'].
        intros _. exact Hg.
    + destruct (chunk_size settings <? Z.of_nat (size + count_tokens p)) eqn:Hover.
      * destruct (nonempty cur) eqn:Hcur.
        -- apply IH; [| intros E; now apply Hnil | | exact Hne'].
           ++ unfold TextChunkerFacts.tokens_of. simpl. lia.
           ++ intros _. unfold flush. simpl.
              change (glued seps ((result ++ [join sep cur]) ++ [p])
                        (join sep (done ++ [p]))).
              apply Hstep.
              ** intros E. destruct (H0 E) as [_ ->]. discriminate.
              ** intros E. specialize (H1 E). unfold flush in H1.
                 now rewrite Hcur in H1.
              ** reflexivity.
        -- destruct cur; [|discriminate].
           unfold TextChunkerFacts.tokens_of in Hsize. simpl in Hsize. subst size.
           apply Z.ltb_ge in Hbig. apply Z.ltb_lt in Hover. simpl in Hover. lia.
      * apply IH; [| intros E; now apply Hnil | | exact Hne'].
        -- subst size. unfold TextChunkerFacts.tokens_of.
           rewrite sum_list_with_app. simpl. lia.
        -- intros _. unfold flush.
           replace (nonempty (cur ++ [p])) with true by (now destruct cur).
           destruct cur as [|c cur].
           ++ change (glued seps (result ++ [p]) (join sep (done ++ [p]))).
              apply Hstep; [| |reflexivity].
              ** intros E. now destruct (H0 E).
              ** intros E. specialize (H1 E). exact H1.
           ++ destruct done as [|d done];
                [destruct (H0 eq_refl); discriminate|].
              rewrite join_snoc by discriminate.
              rewrite (join_snoc sep p (d :: done)) by discriminate.
              apply glued_extend_last; [exact Hsep|].
              apply H1. discriminate.
Qed.

Lemma split_text_glued (all : list str) :
  forall (seps : list str) (text : str),
    Forall (fun sep => sep <> [] /\ sep ∈ all) seps ->
    glued all (_split_text count_tokens settings seps text) text.
Proof.
  induction seps as [|sep rest IH]; intros text Hs.
  - reflexivity.
  - rewrite split_text_cons.
    destruct (Z.of_nat (count_tokens text) <=? chunk_size settings);
      [reflexivity|].
    apply Forall_cons in Hs as [[Hne Hin] Hrest].
    rewrite <- (join_split text sep Hne) at 2.
    apply (split_loop_glued _ all sep Hin (fun p => IH p Hrest)
             (split text sep) [] [] [] 0%nat); auto.
    + congruence.
    + simpl. apply split_nonempty.
Qed.

(** The spans of the recursive split, with the separators that were
    dropped between them put back, are the text. *)
Lemma recursive_split_glued (text : str) :
  glued separators (_split_text count_tokens settings separators text) text.
Proof.
  apply split_text_glued.
  apply Forall_forall. intros sep Hin. split; [|exact Hin].
  apply list_elem_of_In in Hin. simpl in Hin.
  intros ->. vm_compute in Hin. intuition discriminate.
Qed.

Lemma glued_infix (seps spans : list str) (s x : str) :
  glued seps spans s -> x ∈ spans -> exists a b, s = a ++ x ++ b.
Proof.
  revert s. induction spans as [|y rest IH]; intros s Hg Hx.
  - destruct Hg.
  - destruct rest as [|z rest].
    + apply list_elem_of_singleton in Hx as ->. simpl in Hg. subst s.
      exists [], []. now rewrite app_nil_r.
    + destruct Hg as [sep [s' [_ [-> Hg]]]].
      apply elem_of_cons in Hx as [-> | Hx].
      * exists [], (sep ++ s'). reflexivity.
      * destruct (IH s' Hg Hx) as [a [b ->]].
        exists (y ++ sep ++ a), b. now rewrite <- !app_assoc.
Qed.

(** *** Offsets of the recursive chunks *)

Lemma recursive_loop_acc (text doc : str) (md : gmap string pyval) :
  forall (items : list (nat * str)) (chunks : list Chunk) (pos : Z),
    recursive_loop count_tokens text doc md items chunks pos
    = chunks ++ recursive_loop count_tokens text doc md items [] pos.
Proof.
  induction items as [|[i x] items IH]; intros chunks pos; simpl.
  - now rewrite app_nil_r.
  - destruct (nonempty (strip x)).
    + rewrite IH. rewrite (IH [_]). now rewrite <- app_assoc.
    + apply IH.
Qed.

(** The chunks lie in the text one after the other: each is read at
    its offsets, which start at or after [pos] and at or after the end
    of the chunk before. *)
Fixpoint located (text : str) (pos : Z) (chunks : list Chunk) : Prop :=
  match chunks with
  | [] => True
  | c :: rest =>
      pos <= start_char c
      /\ end_char c = start_char c + len (TextChunker.text c)
      /\ end_char c <= len text
      /\ slice text (start_char c) (end_char c) = TextChunker.text c
      /\ located text (end_char c) rest
  end.

Lemma recursive_loop_located (seps : list str) (text doc : str)
  (md : gmap string pyval) :
  forall (items : list (nat * str)) (p r : str) (pos : Z),
    text = p ++ r -> 0 <= pos <= len p ->
    (items = [] \/ glued seps (map snd items) r) ->
    located text pos (recursive_loop count_tokens text doc md items [] pos).
Proof.
  induction items as [|[i x] items IH]; intros p r pos Ht Hpos Hg;
    [exact I|].
  destruct Hg as [Hg | Hg]; [discriminate|].
  change (map snd ((i, x) :: items)) with (x :: map snd items) in Hg.
  assert (Hx : exists r', r = x ++ r'
                 /\ (items = [] \/ exists sep r2,
                        r' = sep ++ r2 /\ glued seps (map snd items) r2)).
  { destruct items as [|it items].
    - simpl in Hg. exists []. rewrite app_nil_r. auto.
    - destruct Hg as [sep [s' [_ [-> Hg]]]].
      exists (sep ++ s'). split; [reflexivity|]. right. eauto. }
  destruct Hx as [r' [-> Hrest]].
  assert (Hnext : forall pos', 0 <= pos' <= len (p ++ x) ->
            located text pos'
              (recursive_loop count_tokens text doc md items [] pos')).
  { intros pos' Hpos'. destruct Hrest as [-> | [sep [r2 [-> Hg2]]]];
      [exact I|].
    apply (IH ((p ++ x) ++ sep) r2).
    - subst text. now rewrite <- !app_assoc.
    - unfold len in *. rewrite !length_app in *. lia.
    - now right. }
  cbn [recursive_loop]. cbv zeta.
  destruct (nonempty (strip x)) eqn:Hne.
  - destruct (strip_infix x) as [l [rr [Hxs _]]].
    assert (Htext : text = (p ++ l) ++ strip x ++ (rr ++ r')).
    { subst text. rewrite Hxs at 1. now rewrite <- !app_assoc. }
    assert (Hlen : len (p ++ x) = len (p ++ l) + len (strip x) + len rr).
    { rewrite Hxs at 1. unfold len. rewrite !length_app. lia. }
    destruct (find_located text (strip x) (p ++ l) (rr ++ r') pos Htext)
      as [Hk Hslice].
    { unfold len in *. rewrite length_app. lia. }
    rewrite recursive_loop_acc.
    cbn [app located start_char end_char TextChunker.text].
    repeat split.
    + lia.
    + rewrite Htext at 2. unfold len in *. rewrite !length_app in *. lia.
    + exact Hslice.
    + apply Hnext. unfold len in *. lia.
  - apply Hnext. unfold len in *. rewrite length_app. lia.
Qed.

Lemma enumerate_map_snd {A} (l : list A) : map snd (enumerate l) = l.
Proof.
  unfold enumerate. generalize 0%nat.
  induction l as [|x l IH]; intros n; simpl; [reflexivity|].
  now rewrite IH.
Qed.

Lemma recursive_loop_blank (text doc : str) (md : gmap string pyval) :
  forall (items : list (nat * str)) (pos : Z),
    Forall (fun item => whitespace_only item.2 = true) items ->
    recursive_loop count_tokens text doc md items [] pos = [].
Proof.
  induction items as [|[i x] items IH]; intros pos H; [reflexivity|].
  apply Forall_cons in H as [Hx H]. simpl in Hx.
  cbn [recursive_loop]. cbv zeta.
  rewrite (strip_whitespace_only x Hx). simpl. now apply IH.
Qed.

Lemma whitespace_only_infix (a x b : str) :
  whitespace_only (a ++ x ++ b) = true -> whitespace_only x = true.
Proof.
  rewrite !whitespace_only_app. intros H.
  apply andb_true_iff in H as [_ H]. now apply andb_true_iff in H as [H _].
Qed.

Lemma chunk_recursive_blank (text doc : str) (md : gmap string pyval) :
  whitespace_only text = true ->
  _chunk_recursive count_tokens settings text doc md = [].
Proof.
  intros Hw. unfold _chunk_recursive. apply recursive_loop_blank.
  apply (enumerate_snd (fun x : str => whitespace_only x = true)).
  apply Forall_forall. intros x Hx.
  destruct (glued_infix _ _ _ _ (recursive_split_glued text) Hx)
    as [a [b Hab]].
  rewrite Hab in Hw. now apply whitespace_only_infix in Hw.
Qed.

(** *** Blank text *)

Lemma whitespace_only_slice (s : str) (i j : Z) :
  whitespace_only s = true -> whitespace_only (slice s i j) = true.
Proof.
  intros H. unfold slice. cbv zeta.
  rewrite <- (take_drop (Z.to_nat (clamp_index (len s) i)) s) in H.
  rewrite whitespace_only_app in H. apply andb_true_iff in H as [_ H].
  set (d := drop _ s) in *.
  rewrite <- (take_drop (Z.to_nat (clamp_index (len s) j
                                   - clamp_index (len s) i)) d) in H.
  rewrite whitespace_only_app in H. now apply andb_true_iff in H as [H _].
Qed.

Lemma fixed_loop_blank (text doc : str) (md : gmap string pyval) :
  whitespace_only text = true ->
  forall (fuel : nat) (st : fixed_state) (chunks : list Chunk),
    fs_chunks st = [] ->
    fixed_loop count_tokens settings fuel text doc md st = Some chunks ->
    chunks = [].
Proof.
  intros Hw. induction fuel as [|fuel IH]; intros st chunks Hst; simpl.
  - destruct (fs_start st <? len text); [discriminate|].
    intros [= <-]. exact Hst.
  - destruct (fs_start st <? len text); [|intros [= <-]; exact Hst].
    apply IH. unfold fixed_step. cbv zeta.
    rewrite (strip_whitespace_only _ (whitespace_only_slice text _ _ Hw)).
    exact Hst.
Qed.

Lemma sentences_go_blank (s cur : str) :
  whitespace_only s = true ->
  sentences_go s false false cur = [rev cur ++ s].
Proof.
  revert cur. induction s as [|c s IH]; intros cur H; simpl.
  - now rewrite app_nil_r.
  - simpl in H. apply andb_true_iff in H as [Hc H]. rewrite Hc.
    rewrite IH by exact H. simpl. now rewrite <- app_assoc.
Qed.

Lemma chunk_by_sentence_blank (text doc : str) (md : gmap string pyval) :
  whitespace_only text = true ->
  _chunk_by_sentence count_tokens settings text doc md = [].
Proof.
  intros Hw. unfold _chunk_by_sentence, split_sentences.
  rewrite sentences_go_blank by exact Hw.
  cbn [sentence_loop rev app]. cbv zeta.
  rewrite (strip_whitespace_only text Hw). reflexivity.
Qed.

End Tiling.

(** The recursive strategy loses no text but separators: the spans it
    cuts, with one of the four separators put back between each two
    neighbours, are the text.  (No piece of a split is dropped: the
    branch of the loop that would drop one, a piece within the budget
    that does not fit an empty group, cannot be taken.) *)
Theorem recursive_split_keeps_text (count_tokens : str -> nat)
  (settings : ChunkingSettings) (text : str) :
  glued separators (_split_text count_tokens settings separators text) text
  /\ forall span, span ∈ _split_text count_tokens settings separators text ->
                  exists before after, text = before ++ span ++ after.
Proof.
  split; [apply recursive_split_glued|].
  intros span Hin.
  exact (glued_infix _ _ _ _ (recursive_split_glued count_tokens settings text)
           Hin).
Qed.

(** The offsets of the recursive strategy are never [-1]: every chunk
    is found in the text, [text[start_char:end_char]] is the chunk's
    text, and the chunks follow each other without overlap, the first
    at or after offset 0. *)
Theorem recursive_chunks_located (count_tokens : str -> nat)
  (settings : ChunkingSettings) (text doc : str) (md : gmap string pyval) :
  located text 0 (_chunk_recursive count_tokens settings text doc md).
Proof.
  unfold _chunk_recursive.
  apply (recursive_loop_located count_tokens separators text doc md _ [] text).
  - reflexivity.
  - unfold len. simpl. lia.
  - right. rewrite enumerate_map_snd. apply recursive_split_glued.
Qed.

Lemma chunk_document_blank (count_tokens : str -> nat)
  (settings : ChunkingSettings) (fuel : nat) (strategy : ChunkStrategy)
  (text doc : str) (md : option (gmap string pyval)) (chunks : list Chunk) :
  whitespace_only text = true ->
  chunk_document count_tokens settings fuel strategy text doc md = Some chunks ->
  chunks = [].
Proof.
  intros Hw. unfold chunk_document. cbv zeta. destruct strategy.
  - apply fixed_loop_blank; [exact Hw | reflexivity].
  - unfold _chunk_semantic. rewrite chunk_recursive_blank by exact Hw.
    now intros [= <-].
  - rewrite chunk_recursive_blank by exact Hw. now intros [= <-].
  - rewrite chunk_by_sentence_blank by exact Hw. now intros [= <-].
Qed.


Lemma chunk_document_blank_returns (count_tokens : str -> nat)
  (settings : ChunkingSettings) (strategy : ChunkStrategy)
  (text doc : str) (md : option (gmap string pyval)) :
  whitespace_only text = true ->
  (strategy = FIXED_SIZE ->
   text = [] \/ 0 < chunk_size settings
   \/ chunk_overlap settings < chunk_size settings) ->
  chunk_document count_tokens settings (length text) strategy text doc md
  = Some [].
Proof.
  intros Hw Hfixed.
  assert (Hsome : is_Some (chunk_document count_tokens settings (length text)
                             strategy text doc md)).
  { destruct strategy; try (eexists; reflexivity).
    destruct (Hfixed eq_refl) as [-> | Hprogress]; [eexists; reflexivity|].
    unfold chunk_document, _chunk_fixed_size. cbv zeta.
    apply fixed_loop_terminates; [exact Hprogress|].
    unfold len. simpl. lia. }
  destruct Hsome as [chunks Hrun]. rewrite Hrun. f_equal.
  exact (chunk_document_blank _ _ _ _ _ _ _ _ Hw Hrun).
Qed.



(** Without a window that advances the fixed-size loop does not return
    on a blank text that is not empty. *)
Example fixed_size_blank_text_never_ends :
  forall fuel,
    _chunk_fixed_size word_tokens (example_settings 0 0) fuel (py " ")
      (py "doc") ∅ = None.
Proof.
  unfold _chunk_fixed_size. induction fuel as [|fuel IH]; [reflexivity|].
  exact IH.
Qed.

(** *** The sentence strategy: groups, budget and offsets *)

(** A word of [s.split()]: not empty, no whitespace inside. *)
Definition word (w : str) : Prop :=
  w <> [] /\ Forall (fun c => isspace c = false) w.

Lemma words_go_words (s cur : str) :
  Forall (fun c => isspace c = false) cur ->
  Forall word (words_go s cur).
Proof.
  revert cur. induction s as [|c s IH]; intros cur Hcur; simpl.
  - destruct cur as [|d cur]; simpl; [constructor|].
    constructor; [|constructor]. split.
    + intros E. apply (f_equal (@length _)) in E.
      rewrite length_app in E. simpl in E. lia.
    + exact (Forall_rev Hcur).
  - destruct (isspace c) eqn:Hc.
    + destruct cur as [|d cur]; simpl; [apply IH; constructor|].
      constructor; [|apply IH; constructor]. split.
      * intros E. apply (f_equal (@length _)) in E.
        rewrite length_app in E. simpl in E. lia.
      * exact (Forall_rev Hcur).
    + apply IH. constructor; assumption.
Qed.

Lemma split_whitespace_words (s : str) : Forall word (split_whitespace s).
Proof. apply words_go_words. constructor. Qed.

Lemma word_solid (w : str) : word w -> whitespace_only w = false.
Proof.
  intros [Hne Hw]. destruct w as [|c w]; [congruence|].
  apply Forall_cons in Hw as [Hc _]. simpl. now rewrite Hc.
Qed.

Section Sentences.

Variable count_tokens : str -> nat.
Variable settings : ChunkingSettings.
Variables text doc : str.
Variable md : gmap string pyval.

Abbreviation tokens_of := (TextChunkerFacts.tokens_of count_tokens).

(** What the loops keep about the group being filled. *)
Definition group_ok (pieces : list str) (tokens : nat) : Prop :=
  solid pieces /\ tokens = tokens_of pieces
  /\ (pieces = [] \/ Z.of_nat tokens <= chunk_size settings
      \/ exists w, pieces = [w] /\ word w).

(** What every chunk of the strategy satisfies. *)
Definition sentence_chunk (c : Chunk) : Prop :=
  (exists pieces,
      pieces <> [] /\ TextChunker.text c = join (py " ") pieces
      /\ token_count c = tokens_of pieces
      /\ (Z.of_nat (token_count c) <= chunk_size settings
          \/ exists w, pieces = [w] /\ word w))
  /\ doc_id c = doc /\ metadata c = with_strategy md "sentence"
  /\ end_char c = start_char c + len (TextChunker.text c)
  /\ (start_char c = -1
      \/ (0 <= start_char c /\ end_char c <= len text
          /\ slice text (start_char c) (end_char c) = TextChunker.text c)).

Definition out_inv (o : out_state) : Prop :=
  Forall sentence_chunk (os_chunks o) /\ 0 <= os_char_position o.

Lemma emit_inv (pieces : list str) (tokens : nat) (o : out_state) :
  pieces <> [] -> group_ok pieces tokens -> out_inv o ->
  out_inv (emit text doc md pieces tokens o).
Proof.
  intros Hne (Hsolid & Htok & Hbudget) [Hq Hpos].
  assert (Hlen : 0 < len (join (py " ") pieces)).
  { destruct pieces as [|p rest]; [congruence|].
    apply Forall_cons in Hsolid as [Hp _].
    pose proof (join_not_whitespace (py " ") p rest Hp) as Hws.
    apply whitespace_only_nonempty in Hws.
    destruct (join (py " ") (p :: rest)); [congruence|]. unfold len. simpl. lia. }
  pose proof (find_cases text (join (py " ") pieces) (os_char_position o) Hpos)
    as Hfind.
  unfold emit, out_inv. cbv zeta.
  cbn [os_chunks os_char_position].
  split.
  - apply Forall_app. split; [exact Hq|]. constructor; [|constructor].
    unfold sentence_chunk.
    cbn [TextChunker.text token_count doc_id metadata start_char end_char].
    split; [|split; [reflexivity|split; [reflexivity|split; [reflexivity|]]]].
    + exists pieces. repeat split; try assumption.
      destruct Hbudget as [E | [H | H]]; [congruence | now left | now right].
    + destruct Hfind as [E | (H1 & H2 & H3)]; [now left|right].
      repeat split; [lia | exact H2 | exact H3].
  - destruct Hfind as [E | (H1 & _)]; [rewrite E|]; lia.
Qed.

Lemma emit_if_inv (pieces : list str) (tokens : nat) (o : out_state) :
  group_ok pieces tokens -> out_inv o ->
  out_inv (emit_if text doc md pieces tokens o).
Proof.
  intros Hg Ho. unfold emit_if.
  destruct (nonempty pieces) eqn:E; [|exact Ho].
  apply emit_inv; [|exact Hg | exact Ho]. now destruct pieces.
Qed.

Lemma group_ok_nil : group_ok [] 0.
Proof. repeat split; [constructor | now left]. Qed.

Lemma group_ok_single_word (w : str) : word w -> group_ok [w] (count_tokens w).
Proof.
  intros Hw. repeat split.
  - constructor; [now apply word_solid | constructor].
  - unfold TextChunkerFacts.tokens_of. simpl. lia.
  - right. right. now exists w.
Qed.

Lemma group_ok_snoc (pieces : list str) (tokens : nat) (p : str) :
  group_ok pieces tokens -> whitespace_only p = false ->
  Z.of_nat (tokens + count_tokens p) <= chunk_size settings ->
  group_ok (pieces ++ [p]) (tokens + count_tokens p).
Proof.
  intros (Hs & Ht & _) Hp Hle. repeat split.
  - apply Forall_app. split; [exact Hs | constructor; [exact Hp | constructor]].
  - subst tokens. unfold TextChunkerFacts.tokens_of.
    rewrite sum_list_with_app. simpl. lia.
  - right. now left.
Qed.

Lemma word_loop_inv :
  forall (words : list str) (o : out_state) (temp : list str) (n : nat),
    Forall word words -> group_ok temp n -> out_inv o ->
    out_inv (word_loop count_tokens settings text doc md words o temp n).1.1
    /\ group_ok
         (word_loop count_tokens settings text doc md words o temp n).1.2
         (word_loop count_tokens settings text doc md words o temp n).2.
Proof.
  induction words as [|w words IH]; intros o temp n Hw Ht Ho; simpl; [auto|].
  apply Forall_cons in Hw as [Hw Hws].
  destruct (Z.ltb_spec (chunk_size settings) (Z.of_nat (n + count_tokens w))).
  - apply IH; [exact Hws | now apply group_ok_single_word |].
    now apply emit_if_inv.
  - apply IH; [exact Hws | | exact Ho].
    apply group_ok_snoc; [exact Ht | now apply word_solid | lia].
Qed.

Lemma sentence_loop_inv :
  forall (sentences : list str) (o : out_state) (cur : list str) (n : nat),
    group_ok cur n -> out_inv o ->
    out_inv
      (sentence_loop count_tokens settings text doc md sentences o cur n).1.1
    /\ group_ok
         (sentence_loop count_tokens settings text doc md sentences o cur n).1.2
         (sentence_loop count_tokens settings text doc md sentences o cur n).2.
Proof.
  induction sentences as [|s sentences IH]; intros o cur n Hcur Ho; simpl;
    [auto|].
  destruct (nonempty (strip s)) eqn:Hne; [|apply IH; assumption].
  pose proof (strip_not_whitespace s Hne) as Hs.
  destruct (Z.ltb_spec (chunk_size settings) (Z.of_nat (count_tokens (strip s))))
    as [Hbig | Hfit].
  - pose proof (word_loop_inv (split_whitespace (strip s))
                  (emit_if text doc md cur n o) [] 0
                  (split_whitespace_words _) group_ok_nil
                  (emit_if_inv cur n o Hcur Ho)) as [Ho2 Ht].
    destruct (nonempty cur) eqn:Hc;
      destruct (word_loop _ _ _ _ _ _ _ _ _) as [[o2 temp] tn];
      simpl in Ho2, Ht; destruct (nonempty temp); apply IH;
      solve [assumption | apply group_ok_nil].
  - destruct (Z.ltb_spec (chunk_size settings)
                (Z.of_nat (n + count_tokens (strip s)))).
    + apply IH; [|now apply emit_if_inv].
      repeat split.
      * constructor; [exact Hs | constructor].
      * unfold TextChunkerFacts.tokens_of. simpl. lia.
      * right. now left.
    + apply IH; [|exact Ho]. apply group_ok_snoc; [exact Hcur | exact Hs | lia].
Qed.

Lemma chunk_by_sentence_inv :
  Forall sentence_chunk (_chunk_by_sentence count_tokens settings text doc md).
Proof.
  unfold _chunk_by_sentence.
  assert (Hinit : out_inv out_init) by (split; [constructor | simpl; lia]).
  pose proof (sentence_loop_inv (split_sentences text) out_init [] 0
                group_ok_nil Hinit) as [Ho Hcur].
  destruct (sentence_loop _ _ _ _ _ _ _ _ _) as [[o cur] n].
  simpl in Ho, Hcur.
  apply (emit_if_inv cur n o Hcur Ho).
Qed.

End Sentences.

(** The sentence strategy fills a chunk with sentences (or, for a
    sentence over the budget, its words), joined by one space.  The
    [token_count] it records is the sum of the pieces' counts, and it
    is at most [chunk_size] unless the chunk is one single word. *)
Theorem sentence_chunks_within_budget (count_tokens : str -> nat)
  (settings : ChunkingSettings) (text doc : str) (md : gmap string pyval) :
  Forall
    (fun c : Chunk =>
       exists pieces,
         pieces <> [] /\ TextChunker.text c = join (py " ") pieces
         /\ token_count c = TextChunkerFacts.tokens_of count_tokens pieces
         /\ (Z.of_nat (token_count c) <= chunk_size settings
             \/ exists w, pieces = [w] /\ word w))
    (_chunk_by_sentence count_tokens settings text doc md).
Proof.
  eapply Forall_impl; [apply chunk_by_sentence_inv|].
  intros c H. exact (proj1 H).
Qed.

(** The offsets of the sentence strategy: [end_char] is [start_char]
    plus the length of the chunk's text, and [start_char] is [-1] (the
    joined text is not found, as when two sentences of the chunk are
    separated by more than one space) or an offset where the text reads
    the chunk's text. *)
Theorem sentence_chunks_offsets (count_tokens : str -> nat)
  (settings : ChunkingSettings) (text doc : str) (md : gmap string pyval) :
  Forall
    (fun c : Chunk =>
       end_char c = start_char c + len (TextChunker.text c)
       /\ (start_char c = -1
           \/ (0 <= start_char c /\ end_char c <= len text
               /\ slice text (start_char c) (end_char c) = TextChunker.text c)))
    (_chunk_by_sentence count_tokens settings text doc md).
Proof.
  eapply Forall_impl; [apply chunk_by_sentence_inv|].
  intros c (_ & _ & _ & H). exact H.
Qed.

(** Two sentences separated by two spaces: the chunk that holds both
    is not found in the text and gets the offsets [-1] and [9]. *)
Example sentence_offset_not_found :
  map (fun c => (TextChunker.text c, start_char c, end_char c))
    (_chunk_by_sentence word_tokens (example_settings 10 0)
       (py "Hi.  Yo. Ok") (py "doc") ∅)
  = [(py "Hi. Yo. Ok", -1, 9)].
Proof. vm_compute. reflexivity. Qed.

(** *** The windows of the fixed-size strategy *)

Lemma last_index_lt (c : ascii) (l : str) (k : nat) :
  last_index c l = Some k -> (k < length l)%nat.
Proof.
  revert k. induction l as [|x l IH]; intros k; simpl; [discriminate|].
  destruct (last_index c l) as [j|].
  - intros [= <-]. specialize (IH j eq_refl). lia.
  - destruct (Ascii.eqb x c); [|discriminate]. intros [= <-]. lia.
Qed.

Lemma rfind_range (s : str) (c : ascii) (start end_ : Z) :
  0 <= start <= len s -> start < end_ ->
  rfind s c start end_ = -1 \/ start <= rfind s c start end_ < end_.
Proof.
  intros Hs He. unfold rfind. cbv zeta.
  destruct (last_index c (slice s start end_)) as [k|] eqn:Hk; [right | now left].
  apply last_index_lt in Hk.
  pose proof (length_slice s start end_ ltac:(lia) ltac:(lia)) as Hl.
  rewrite EmbeddingGeneratorFacts.clamp_index_nonneg by (unfold len in *; lia).
  unfold len in *. lia.
Qed.

Lemma strip_nil_whitespace_only (s : str) :
  strip s = [] -> whitespace_only s = true.
Proof.
  intros E. destruct (strip_infix s) as [l [r [Hs [Hl Hr]]]].
  rewrite Hs, E, !whitespace_only_app, Hl, Hr. reflexivity.
Qed.

Lemma lookup_slice {A} (l : list A) (i j : Z) (p : nat) (x : A) :
  l !! p = Some x -> 0 <= i <= Z.of_nat p -> Z.of_nat p < j ->
  x ∈ slice l i j.
Proof.
  intros Hp Hi Hj. pose proof (lookup_lt_Some _ _ _ Hp) as Hlt.
  unfold slice. cbv zeta.
  rewrite !EmbeddingGeneratorFacts.clamp_index_nonneg by (unfold len; lia).
  apply list_elem_of_lookup. exists (p - Z.to_nat i)%nat.
  rewrite lookup_take_lt by (unfold len; lia).
  rewrite lookup_drop.
  replace (Z.to_nat (Z.min i (len l)) + (p - Z.to_nat i))%nat with p
    by (unfold len; lia).
  exact Hp.
Qed.

Section Windows.

Variable count_tokens : str -> nat.
Variable settings : ChunkingSettings.
Variables text doc : str.
Variable md : gmap string pyval.

Abbreviation step := (fixed_step count_tokens settings text doc md).

(** A property kept by every iteration holds when the loop ends, and
    the loop ends with the start at or beyond the end of the text. *)
Lemma fixed_loop_invariant (I : fixed_state -> Prop) :
  (forall st, I st -> fs_start st < len text -> I (step st)) ->
  forall (fuel : nat) (st : fixed_state) (chunks : list Chunk),
    I st ->
    fixed_loop count_tokens settings fuel text doc md st = Some chunks ->
    exists st', I st' /\ fs_chunks st' = chunks /\ len text <= fs_start st'.
Proof.
  intros Hstep. induction fuel as [|fuel IH]; intros st chunks Hst; simpl;
    destruct (Z.ltb_spec (fs_start st) (len text)) as [Hlt | Hge];
    try discriminate.
  - intros [= <-]. eauto.
  - apply IH. now apply Hstep.
  - intros [= <-]. eauto.
Qed.

Lemma window_end_range (start : Z) :
  0 < chunk_size settings -> 0 <= start < len text ->
  start < window_end settings text start <= start + chunk_size settings.
Proof.
  intros Hcs Hs. unfold window_end. cbv zeta.
  destruct (Z.ltb_spec (start + chunk_size settings) (len text)); [|lia].
  destruct (rfind_range text " "%char start (start + chunk_size settings))
    as [E | H1]; [lia | lia | |];
    destruct (Z.ltb_spec start
                (rfind text " "%char start (start + chunk_size settings)));
    lia.
Qed.

Lemma next_start_range (start end_ : Z) :
  start < end_ ->
  start < next_start settings start end_
  /\ end_ - chunk_overlap settings <= next_start settings start end_
  /\ (0 <= chunk_overlap settings -> next_start settings start end_ <= end_).
Proof.
  intros H. unfold next_start. cbv zeta.
  destruct (Z.ltb_spec start (end_ - chunk_overlap settings)); lia.
Qed.

(** What a chunk of the strategy records. *)
Definition window_chunk (c : Chunk) : Prop :=
  0 <= start_char c < len text
  /\ start_char c < end_char c <= start_char c + chunk_size settings
  /\ TextChunker.text c = strip (slice text (start_char c) (end_char c))
  /\ len (TextChunker.text c) <= chunk_size settings
  /\ token_count c = count_tokens (TextChunker.text c).

(** Later chunks start later, and no earlier than [chunk_overlap]
    characters before the end of an earlier chunk. *)
Definition windows_in_order (chunks : list Chunk) : Prop :=
  forall (i j : nat) (ci cj : Chunk),
    chunks !! i = Some ci -> chunks !! j = Some cj -> (i < j)%nat ->
    start_char ci < start_char cj
    /\ end_char ci - chunk_overlap settings <= start_char cj.

Definition windows_inv (st : fixed_state) : Prop :=
  0 <= fs_start st
  /\ Forall (fun c => window_chunk c /\ start_char c < fs_start st
                      /\ end_char c - chunk_overlap settings <= fs_start st)
       (fs_chunks st)
  /\ windows_in_order (fs_chunks st).

Lemma windows_step (st : fixed_state) :
  0 < chunk_size settings ->
  windows_inv st -> fs_start st < len text -> windows_inv (step st).
Proof.
  intros Hcs (H0 & Hall & Hord) Hlt.
  pose proof (window_end_range (fs_start st) Hcs (conj H0 Hlt)) as Hend.
  pose proof (next_start_range (fs_start st)
                (window_end settings text (fs_start st)) (proj1 Hend))
    as (Hn1 & Hn2 & _).
  assert (Hold : Forall (fun c => window_chunk c
                    /\ start_char c
                       < next_start settings (fs_start st)
                           (window_end settings text (fs_start st))
                    /\ end_char c - chunk_overlap settings
                       <= next_start settings (fs_start st)
                            (window_end settings text (fs_start st)))
                   (fs_chunks st)).
  { eapply Forall_impl; [exact Hall|]. intros c (Hc & H1 & H2).
    repeat split; try apply Hc; lia. }
  unfold fixed_step. cbv zeta.
  destruct (nonempty (strip (slice text (fs_start st)
                               (window_end settings text (fs_start st))))).
  - unfold windows_inv. cbn [fs_start fs_chunks].
    split; [lia|]. split.
    + apply Forall_app. split; [exact Hold|].
      constructor; [|constructor].
      unfold window_chunk. cbn [start_char end_char TextChunker.text token_count].
      repeat split; try lia.
      pose proof (length_strip (slice text (fs_start st)
                                  (window_end settings text (fs_start st)))).
      pose proof (length_slice text (fs_start st)
                    (window_end settings text (fs_start st))
                    ltac:(lia) ltac:(lia)).
      unfold len in *. lia.
    + intros i j ci cj Hi Hj Hij.
      apply lookup_app_Some in Hj as [Hj | [Hlen Hj]].
      * apply lookup_app_Some in Hi as [Hi | [Hleni _]];
          [exact (Hord i j ci cj Hi Hj Hij)|].
        apply lookup_lt_Some in Hj. lia.
      * apply list_lookup_singleton_Some in Hj as [Hj0 <-].
        apply lookup_app_Some in Hi as [Hi | [Hleni Hi]].
        -- cbn [start_char].
           pose proof (proj1 (Forall_lookup _ _) Hall i ci Hi) as (_ & H1 & H2).
           lia.
        -- lia.
  - unfold windows_inv. cbn [fs_start fs_chunks].
    split; [lia|]. split; [exact Hold | exact Hord].
Qed.

(** Every character of the text that is not whitespace and lies before
    the start is inside the window of a chunk. *)
Definition covered (st : fixed_state) : Prop :=
  0 <= fs_start st
  /\ forall (p : nat) (ch : ascii),
       text !! p = Some ch -> isspace ch = false ->
       Z.of_nat p < fs_start st ->
       exists c, c ∈ fs_chunks st /\ start_char c <= Z.of_nat p < end_char c.

Lemma covered_step (st : fixed_state) :
  0 < chunk_size settings -> 0 <= chunk_overlap settings ->
  covered st -> fs_start st < len text -> covered (step st).
Proof.
  intros Hcs Hov [H0 Hcov] Hlt.
  pose proof (window_end_range (fs_start st) Hcs (conj H0 Hlt)) as Hend.
  pose proof (next_start_range (fs_start st)
                (window_end settings text (fs_start st)) (proj1 Hend))
    as (Hn1 & _ & Hn3).
  specialize (Hn3 Hov).
  unfold fixed_step. cbv zeta.
  destruct (strip (slice text (fs_start st)
                     (window_end settings text (fs_start st)))) eqn:Hstrip;
    cbn [nonempty]; unfold covered; cbn [fs_start fs_chunks].
  - split; [lia|]. intros p ch Hp Hch Hlt'.
    destruct (Z.lt_ge_cases (Z.of_nat p) (fs_start st)) as [Hbefore | Hin];
      [now apply (Hcov p ch)|].
    apply strip_nil_whitespace_only in Hstrip.
    pose proof (lookup_slice text (fs_start st)
                  (window_end settings text (fs_start st)) p ch Hp
                  ltac:(lia) ltac:(lia)) as Hmem.
    unfold whitespace_only in Hstrip.
    rewrite forallb_forall in Hstrip.
    apply list_elem_of_In in Hmem. apply Hstrip in Hmem. congruence.
  - split; [lia|]. intros p ch Hp Hch Hlt'.
    destruct (Z.lt_ge_cases (Z.of_nat p) (fs_start st)) as [Hbefore | Hin].
    + destruct (Hcov p ch Hp Hch Hbefore) as [c [Hc Hr]].
      exists c. split; [|exact Hr]. apply elem_of_app. now left.
    + eexists. split; [apply elem_of_app; right; apply list_elem_of_singleton;
                       reflexivity|].
      cbn [start_char end_char]. lia.
Qed.

(** The chunks carry the document id and the tagged metadata. *)
Definition tagged (tag : string) (c : Chunk) : Prop :=
  doc_id c = doc /\ metadata c = with_strategy md tag.

Lemma tagged_step (st : fixed_state) :
  Forall (tagged "fixed_size") (fs_chunks st) ->
  Forall (tagged "fixed_size") (fs_chunks (step st)).
Proof.
  intros H. unfold fixed_step. cbv zeta.
  destruct (nonempty _); cbn [fs_chunks]; [|exact H].
  apply Forall_app. split; [exact H|]. constructor; [|constructor].
  split; reflexivity.
Qed.

Lemma recursive_loop_tagged :
  forall (items : list (nat * str)) (chunks : list Chunk) (pos : Z),
    Forall (tagged "recursive") chunks ->
    Forall (tagged "recursive")
      (recursive_loop count_tokens text doc md items chunks pos).
Proof.
  induction items as [|[i x] items IH]; intros chunks pos H; simpl;
    [exact H|].
  destruct (nonempty (strip x)); apply IH; [|exact H].
  apply Forall_app. split; [exact H|]. constructor; [|constructor].
  split; reflexivity.
Qed.

End Windows.

(** The chunks of the fixed-size strategy, for a positive [chunk_size]:
    each records a window that starts inside the text and spans at most
    [chunk_size] characters ([end_char] may lie beyond the end of the
    text), its text is the stripped window, of at most [chunk_size]
    characters, and its [token_count] is the count of that text; later
    chunks start later, and never earlier than [chunk_overlap]
    characters before the end of an earlier chunk. *)
Theorem fixed_size_windows (count_tokens : str -> nat)
  (settings : ChunkingSettings) (fuel : nat) (text doc : str)
  (md : gmap string pyval) (chunks : list Chunk) :
  0 < chunk_size settings ->
  _chunk_fixed_size count_tokens settings fuel text doc md = Some chunks ->
  Forall (window_chunk count_tokens settings text) chunks
  /\ windows_in_order settings chunks.
Proof.
  intros Hcs Hrun.
  destruct (fixed_loop_invariant count_tokens settings text doc md
              (windows_inv count_tokens settings text)
              (fun st => windows_step count_tokens settings text doc md st Hcs)
              fuel fixed_init chunks) as (st & (_ & Hall & Hord) & <- & _).
  - split; [simpl; lia|]. split; [constructor|].
    intros i j ci cj Hi. destruct i; discriminate.
  - exact Hrun.
  - split; [|exact Hord].
    eapply Forall_impl; [exact Hall|]. intros c H. exact (proj1 H).
Qed.

Lemma fixed_size_windows_witness :
  0 < chunk_size (example_settings 5 2)
  /\ exists chunks,
       _chunk_fixed_size word_tokens (example_settings 5 2) 15
         (py "hello big world") (py "doc") ∅ = Some chunks
       /\ Forall (window_chunk word_tokens (example_settings 5 2)
                    (py "hello big world")) chunks
       /\ windows_in_order (example_settings 5 2) chunks.
Proof.
  split; [reflexivity|]. eexists. split; [vm_compute; reflexivity|].
  apply (fixed_size_windows word_tokens (example_settings 5 2) 15
           (py "hello big world") (py "doc") ∅); reflexivity.
Defined.

(** With a positive [chunk_size] and an overlap that is not negative,
    the fixed-size strategy leaves no character out but whitespace:
    every other character of the text lies in the window of a chunk. *)
Theorem fixed_size_covers_text (count_tokens : str -> nat)
  (settings : ChunkingSettings) (fuel : nat) (text doc : str)
  (md : gmap string pyval) (chunks : list Chunk) (p : nat) (ch : ascii) :
  0 < chunk_size settings -> 0 <= chunk_overlap settings ->
  _chunk_fixed_size count_tokens settings fuel text doc md = Some chunks ->
  text !! p = Some ch -> isspace ch = false ->
  exists c, c ∈ chunks /\ start_char c <= Z.of_nat p < end_char c.
Proof.
  intros Hcs Hov Hrun Hp Hch.
  destruct (fixed_loop_invariant count_tokens settings text doc md
              (covered text)
              (fun st => covered_step count_tokens settings text doc md st
                           Hcs Hov)
              fuel fixed_init chunks) as (st & (_ & Hcov) & <- & Hend).
  - split; [simpl; lia|]. intros q c _ _ Hq. simpl in Hq. lia.
  - exact Hrun.
  - apply (Hcov p ch Hp Hch).
    apply lookup_lt_Some in Hp. unfold len in Hend. lia.
Qed.

Lemma fixed_size_covers_witness :
  exists c,
    c ∈ default [] (_chunk_fixed_size word_tokens (example_settings 5 2) 15
                      (py "hello big world") (py "doc") ∅)
    /\ start_char c <= 7 < end_char c.
Proof.
  apply (fixed_size_covers_text word_tokens (example_settings 5 2) 15
           (py "hello big world") (py "doc") ∅ _ 7%nat "i"%char);
    [reflexivity | discriminate | vm_compute; reflexivity
    | reflexivity | reflexivity].
Defined.

(** A negative overlap leaves a gap between the windows: with
    [chunk_size = 2] and [chunk_overlap = -1] the third character of
    every three is in no chunk. *)
Example fixed_size_negative_overlap_skips :
  option_map (map (fun c => (TextChunker.text c, start_char c, end_char c)))
    (_chunk_fixed_size word_tokens (example_settings 2 (-1)) 6 (py "abcdef")
       (py "doc") ∅)
  = Some [(py "ab", 0, 2); (py "de", 3, 5)].
Proof. vm_compute. reflexivity. Qed.

Lemma chunk_document_tagged (count_tokens : str -> nat)
  (settings : ChunkingSettings) (fuel : nat) (strategy : ChunkStrategy)
  (text doc : str) (md : option (gmap string pyval)) (chunks : list Chunk) :
  chunk_document count_tokens settings fuel strategy text doc md = Some chunks ->
  Forall
    (fun c : Chunk =>
       doc_id c = doc
       /\ metadata c
          = <["strategy" :=
                PStr (py match strategy with
                         | FIXED_SIZE => "fixed_size"
                         | SENTENCE => "sentence"
                         | SEMANTIC | RECURSIVE => "recursive"
                         end)]> (default ∅ md))
    chunks.
Proof.
  unfold chunk_document. cbv zeta. destruct strategy.
  - intros Hrun.
    destruct (fixed_loop_invariant count_tokens settings text doc (default ∅ md)
                (fun st => Forall (tagged doc (default ∅ md) "fixed_size")
                             (fs_chunks st))
                (fun st H _ => tagged_step count_tokens settings text doc
                                 (default ∅ md) st H)
                fuel fixed_init chunks) as (st & H & <- & _);
      [constructor | exact Hrun | exact H].
  - intros [= <-].
    apply (recursive_loop_tagged count_tokens text doc (default ∅ md)).
    constructor.
  - intros [= <-].
    apply (recursive_loop_tagged count_tokens text doc (default ∅ md)).
    constructor.
  - intros [= <-].
    eapply Forall_impl;
      [apply (chunk_by_sentence_inv count_tokens settings text doc
                (default ∅ md))|].
    intros c (_ & H1 & H2 & _). split; assumption.
Qed.

(** The indices of the recursive strategy are taken from the numbering
    of the spans: they increase, so no two chunks share one. *)
Lemma recursive_loop_indices (count_tokens : str -> nat) (text doc : str)
  (md : gmap string pyval) :
  forall (items : list (nat * str)) (pos : Z),
    sublist (map chunk_index
               (recursive_loop count_tokens text doc md items [] pos))
      (map fst items).
Proof.
  induction items as [|[i x] items IH]; intros pos; simpl; [constructor|].
  destruct (nonempty (strip x)).
  - rewrite recursive_loop_acc. simpl. apply sublist_skip, IH.
  - apply sublist_cons, IH.
Qed.

Lemma enumerate_map_fst {A} (l : list A) :
  map fst (enumerate l) = seq 0 (length l).
Proof.
  unfold enumerate. generalize 0%nat.
  induction l as [|x l IH]; intros n; simpl; [reflexivity|].
  now rewrite IH.
Qed.

Lemma chunk_document_indices (count_tokens : str -> nat)
  (settings : ChunkingSettings) (fuel : nat) (strategy : ChunkStrategy)
  (text doc : str) (md : option (gmap string pyval)) (chunks : list Chunk) :
  chunk_document count_tokens settings fuel strategy text doc md = Some chunks ->
  exists n, sublist (map chunk_index chunks) (seq 0 n).
Proof.
  unfold chunk_document. cbv zeta.
  assert (Hrec : forall m,
             exists n, sublist (map chunk_index
                                  (_chunk_recursive count_tokens settings text
                                     doc m)) (seq 0 n)).
  { intros m.
    exists (length (_split_text count_tokens settings separators text)).
    unfold _chunk_recursive.
    rewrite <- (enumerate_map_fst
                  (_split_text count_tokens settings separators text)).
    apply recursive_loop_indices. }
  destruct strategy.
  - intros Hrun. exists (length chunks).
    pose proof (fixed_loop_contiguous count_tokens settings text doc
                  (default ∅ md) fuel fixed_init chunks
                  (conj eq_refl eq_refl) Hrun) as Hc.
    unfold contiguous_indices in Hc. rewrite Hc. reflexivity.
  - intros [= <-]. apply Hrec.
  - intros [= <-]. apply Hrec.
  - intros [= <-].
    pose proof (proj2 (chunk_by_sentence_ok count_tokens settings text doc
                         (default ∅ md))) as Hc.
    unfold contiguous_indices in Hc. eexists. rewrite Hc. reflexivity.
Qed.

(** Every chunk of [chunk_document] carries the document id it was
    given and the caller's metadata with the key [strategy] set to the
    name of the strategy that cut it (the semantic strategy records
    [recursive]); a [strategy] key of the caller is overwritten. *)
Theorem chunks_carry_doc_and_strategy (count_tokens : str -> nat)
  (settings : ChunkingSettings) (fuel : nat) (strategy : ChunkStrategy)
  (text doc : str) (md : option (gmap string pyval)) (chunks : list Chunk) :
  chunk_document count_tokens settings fuel strategy text doc md = Some chunks ->
  Forall
    (fun c : Chunk =>
       doc_id c = doc
       /\ metadata c
          = <["strategy" :=
                PStr (py match strategy with
                         | FIXED_SIZE => "fixed_size"
                         | SENTENCE => "sentence"
                         | SEMANTIC | RECURSIVE => "recursive"
                         end)]> (default ∅ md))
    chunks.
Proof. apply chunk_document_tagged. Qed.

Lemma chunks_carry_witness :
  Forall
    (fun c : Chunk =>
       doc_id c = py "doc"
       /\ metadata c
          = <["strategy" := PStr (py "recursive")]>
              (<["strategy" := PStr (py "mine")]> ∅))
    (_chunk_semantic word_tokens (example_settings 1 0) (py "hello world")
       (py "doc") (<["strategy" := PStr (py "mine")]> ∅)).
Proof.
  exact (chunks_carry_doc_and_strategy word_tokens (example_settings 1 0) 0
           SEMANTIC (py "hello world") (py "doc")
           (Some (<["strategy" := PStr (py "mine")]> ∅))
           (_chunk_semantic word_tokens (example_settings 1 0)
              (py "hello world") (py "doc")
              (<["strategy" := PStr (py "mine")]> ∅))
           eq_refl).
Defined.

(** Whatever the strategy, the chunk indices of a document increase
    along the list it returns (they are a sub-sequence of 0, 1, 2, ...),
    so no two chunks of a document share an index; the recursive and
    semantic strategies may skip numbers. *)
Theorem chunk_indices_increase (count_tokens : str -> nat)
  (settings : ChunkingSettings) (fuel : nat) (strategy : ChunkStrategy)
  (text doc : str) (md : option (gmap string pyval)) (chunks : list Chunk) :
  chunk_document count_tokens settings fuel strategy text doc md = Some chunks ->
  (exists n, sublist (map chunk_index chunks) (seq 0 n))
  /\ NoDup (map chunk_index chunks).
Proof.
  intros H. destruct (chunk_document_indices _ _ _ _ _ _ _ _ H) as [n Hn].
  split; [eauto|]. eapply sublist_NoDup; [apply NoDup_ListNoDup, seq_NoDup | exact Hn].
Qed.

Lemma chunk_indices_witness :
  (exists n,
      sublist (map chunk_index
                 (_chunk_recursive word_tokens (example_settings 1 0) gap_text
                    (py "doc") ∅)) (seq 0 n))
  /\ NoDup (map chunk_index
              (_chunk_recursive word_tokens (example_settings 1 0) gap_text
                 (py "doc") ∅)).
Proof.
  exact (chunk_indices_increase word_tokens (example_settings 1 0) 0 RECURSIVE
           gap_text (py "doc") None _ eq_refl).
Defined.

End TextChunkerMore.

Module EmbeddingMore.
Import PyStr PyStrFacts PyMore PyMoreFacts TextChunker TextChunkerFacts
  TextChunkerMore ContextGenerator EmbeddingGenerator EmbeddingGeneratorFacts.

(** *** Decimal digits *)

Definition is_digit (c : ascii) : Prop :=
  (48 <= nat_of_ascii c <= 57)%nat.

Lemma string_of_uint_digits (d : Decimal.uint) :
  Forall is_digit (list_ascii_of_string (NilEmpty.string_of_uint d)).
Proof.
  induction d; simpl;
    first [ apply Forall_nil_2
          | apply Forall_cons_2;
            [split; apply Nat.leb_le; reflexivity | exact IHd] ].
Qed.

Lemma str_of_nat_digits (n : nat) : Forall is_digit (str_of_nat n).
Proof.
  unfold str_of_nat, NilZero.string_of_uint.
  destruct (Nat.to_uint n) eqn:E; try (rewrite <- E);
    try apply string_of_uint_digits.
  simpl. constructor; [split; apply Nat.leb_le; reflexivity | constructor].
Qed.

Lemma to_uint_nonnil (n : nat) : Nat.to_uint n <> Decimal.Nil.
Proof.
  intros H. pose proof (DecimalNat.Unsigned.of_to n) as Hn.
  rewrite H in Hn. simpl in Hn. subst n. vm_compute in H. discriminate.
Qed.

Lemma str_of_nat_inj (n m : nat) : str_of_nat n = str_of_nat m -> n = m.
Proof.
  unfold str_of_nat. intros H.
  apply (f_equal string_of_list_ascii) in H.
  rewrite !string_of_list_ascii_of_string in H.
  apply (f_equal NilZero.uint_of_string) in H.
  rewrite !NilZero.usu in H by apply to_uint_nonnil.
  injection H as H.
  apply (f_equal Nat.of_uint) in H.
  now rewrite !DecimalNat.Unsigned.of_to in H.
Qed.

Lemma str_of_nat_nonempty (n : nat) : str_of_nat n <> [].
Proof.
  unfold str_of_nat, NilZero.string_of_uint.
  pose proof (to_uint_nonnil n) as Hn.
  destruct (Nat.to_uint n); try congruence; simpl; discriminate.
Qed.

(** Two strings cut at a character that neither tail holds are cut at
    the same place. *)
Lemma cut_at_last {A} (x : A) (a b u v : list A) :
  x ∉ u -> x ∉ v -> a ++ x :: u = b ++ x :: v -> a = b /\ u = v.
Proof.
  intros Hu Hv. revert b. induction a as [|y a IH]; intros [|z b] H;
    simpl in H.
  - injection H as H. auto.
  - injection H as -> ->. exfalso. apply Hu.
    apply elem_of_app. right. left.
  - injection H as -> <-. exfalso. apply Hv.
    apply elem_of_app. right. left.
  - injection H as -> H. destruct (IH b H) as [-> ->]. auto.
Qed.

Lemma digits_no_underscore (n : nat) : "_"%char ∉ str_of_nat n.
Proof.
  intros H. pose proof (str_of_nat_digits n) as Hd.
  rewrite Forall_forall in Hd. apply Hd in H.
  destruct H as [_ H]. apply Nat.leb_le in H. vm_compute in H. discriminate.
Qed.

Lemma vector_id_inj (a b : EnrichedChunk) :
  vector_id a = vector_id b ->
  doc_id (original_chunk a) = doc_id (original_chunk b)
  /\ chunk_index (original_chunk a) = chunk_index (original_chunk b).
Proof.
  unfold vector_id. intros H. change (py "_") with ["_"%char] in H.
  apply cut_at_last in H as [Hd Hn]; try apply digits_no_underscore.
  split; [exact Hd | now apply str_of_nat_inj].
Qed.

(** The id of a record tells the document and the index of its chunk:
    two records have the same id only when both agree.  (The digits of
    the index hold no underscore, so the id is cut at its last one.) *)
Theorem vector_id_injective (a b : EnrichedChunk) :
  vector_id a = vector_id b <->
  doc_id (original_chunk a) = doc_id (original_chunk b)
  /\ chunk_index (original_chunk a) = chunk_index (original_chunk b).
Proof.
  split; [apply vector_id_inj|].
  unfold vector_id. intros [-> ->]. reflexivity.
Qed.

(** *** The ids of the records of one document *)

Lemma NoDup_map_fst_combine {A B C} (g : A -> C) (l : list A) (k : list B) :
  NoDup (map g l) -> NoDup (map (fun p => g p.1) (combine l k)).
Proof.
  revert k. induction l as [|a l IH]; intros k H; simpl; [constructor|].
  destruct k as [|b k]; [constructor|]. simpl in *.
  apply NoDup_cons in H as [Ha H]. apply NoDup_cons. split; [|now apply IH].
  intros Hin. apply Ha.
  apply list_elem_of_fmap in Hin as [[a' b'] [-> Hin]].
  apply list_elem_of_fmap. exists a'. split; [reflexivity|].
  apply list_elem_of_In. apply list_elem_of_In in Hin.
  exact (in_combine_l _ _ _ _ Hin).
Qed.

Lemma vector_ids_NoDup (doc : str) (enriched : list EnrichedChunk) :
  Forall (fun ec => doc_id (original_chunk ec) = doc) enriched ->
  NoDup (map (fun ec => chunk_index (original_chunk ec)) enriched) ->
  NoDup (map vector_id enriched).
Proof.
  intros Hdoc Hidx. induction enriched as [|a l IH]; simpl; [constructor|].
  simpl in Hidx. apply NoDup_cons in Hidx as [Ha Hidx].
  apply Forall_cons in Hdoc as [Hda Hdoc].
  apply NoDup_cons. split; [|now apply IH].
  intros Hin. apply Ha.
  apply list_elem_of_fmap in Hin as [b [Hb Hin]].
  apply list_elem_of_fmap. exists b. split; [|exact Hin].
  now apply vector_id_inj in Hb as [_ Hb].
Qed.

(** The records built for the chunks of one document have pairwise
    distinct ids, whatever the strategy that cut the chunks, the
    enrichment and the replies of the embedding service: no vector of a
    document overwrites another one of the same document in the store.
    [create_vectors_batch] itself always returns (its batch size is the
    constant 100). *)
Theorem document_vector_ids_distinct (count_tokens : str -> nat)
  (settings : ChunkingSettings) (fuel : nat) (strategy : ChunkStrategy)
  (text doc : str) (md : option (gmap string pyval)) (chunks : list Chunk)
  (E : Type) (embeddings_create : E -> list str -> E * option (list vector))
  (model : string) (enriched : list EnrichedChunk) (use_enhanced_text : bool)
  (e : E) :
  chunk_document count_tokens settings fuel strategy text doc md = Some chunks ->
  map original_chunk enriched = chunks ->
  exists e' records,
    create_vectors_batch E embeddings_create model enriched use_enhanced_text e
    = (e', Some records)
    /\ NoDup (map vr_id records).
Proof.
  intros Hchunks Henr.
  assert (Hids : NoDup (map vector_id enriched)).
  { apply (vector_ids_NoDup doc).
    - pose proof (chunk_document_tagged _ _ _ _ _ _ _ _ Hchunks) as Ht.
      rewrite <- Henr in Ht. apply Forall_fmap in Ht.
      eapply Forall_impl; [exact Ht|]. intros ec [H _]. exact H.
    - destruct (chunk_document_indices _ _ _ _ _ _ _ _ Hchunks) as [n Hn].
      rewrite <- Henr in Hn. rewrite map_map in Hn.
      eapply sublist_NoDup; [apply NoDup_ListNoDup, seq_NoDup | exact Hn]. }
  unfold create_vectors_batch, generate_embeddings_batch. cbv zeta.
  change (100 =? 0) with false. cbv iota.
  destruct (batch_loop E embeddings_create model _ 100 _ e) as [e' vs].
  eexists _, _. split; [reflexivity|].
  rewrite map_map.
  erewrite map_ext; [apply (NoDup_map_fst_combine vector_id), Hids|].
  intros [ec v]. reflexivity.
Qed.

Lemma document_vector_ids_witness :
  exists e' records,
    create_vectors_batch nat toy_create "text-embedding-3-small"
      (map DocumentIndexer.basic_chunk
         (_chunk_recursive word_tokens (example_settings 1 0) gap_text
            (py "doc") ∅))
      false 0%nat
    = (e', Some records)
    /\ NoDup (map vr_id records).
Proof.
  apply (document_vector_ids_distinct word_tokens (example_settings 1 0) 0
           RECURSIVE gap_text (py "doc") None
           (_chunk_recursive word_tokens (example_settings 1 0) gap_text
              (py "doc") ∅));
    reflexivity.
Defined.

(** *** The requests of a run without failures *)

Section Requests.

Variable E : Type.
Variable embeddings_create : E -> list str -> E * option (list vector).
Variable model : string.

(** The requests in order, each answered: the state they leave and the
    replies one after the other. *)
Fixpoint run_requests (requests : list (list str)) (e : E) : E * list vector :=
  match requests with
  | [] => (e, [])
  | request :: rest =>
      let '(e1, reply) := embeddings_create e request in
      let '(e2, vs) := run_requests rest e1 in
      (e2, default [] reply ++ vs)
  end.

Definition never_raises : Prop :=
  forall e request, is_Some (embeddings_create e request).2.

Lemma batch_loop_requests (texts : list str) (b : nat) :
  never_raises -> (0 < b)%nat ->
  forall (m k : nat) (e : E),
    batch_loop E embeddings_create model texts (Z.of_nat b) (seq k m) e
    = run_requests (map (map clean) (batches_from texts b k m)) e.
Proof.
  intros Hok Hb. induction m as [|m IH]; intros k e; [reflexivity|].
  simpl seq. cbn [batch_loop]. cbv zeta. rewrite slice_batch by exact Hb.
  unfold batches_from. simpl map. cbn [run_requests]. unfold embed_group.
  pose proof (Hok e (map clean (take b (drop (k * b) texts)))) as [reply Hr].
  destruct (embeddings_create e (map clean (take b (drop (k * b) texts))))
    as [e1 r]. simpl in Hr. subst r.
  rewrite IH. reflexivity.
Qed.

Lemma generate_embeddings_batch_requests (texts : list str) (b : nat) (e : E) :
  never_raises -> (0 < b)%nat ->
  generate_embeddings_batch E embeddings_create model texts (Z.of_nat b) e
  = (let '(e', vs) :=
       run_requests (map (map clean) (batches texts (Z.of_nat b))) e in
     (e', Some vs)).
Proof.
  intros Hok Hb. unfold generate_embeddings_batch, batches. cbv zeta.
  destruct (Z.eqb_spec (Z.of_nat b) 0) as [?|_]; [lia|].
  rewrite Nat2Z.id.
  rewrite (batch_loop_requests texts b Hok Hb). reflexivity.
Qed.

End Requests.

(** When no request raises, embedding a list of texts sends the
    service one request per batch and nothing else: the batches are
    consecutive groups of [batch_size] texts (the last may be shorter)
    that make up the list, each sent cleaned of line feeds and outer
    whitespace; the result is the replies one after the other.  An
    empty list sends no request. *)
Theorem batches_are_the_only_requests (E : Type)
  (embeddings_create : E -> list str -> E * option (list vector))
  (model : string) (texts : list str) (batch_size : Z) (e : E) :
  never_raises E embeddings_create -> 0 < batch_size ->
  generate_embeddings_batch E embeddings_create model texts batch_size e
  = (let '(e', vs) :=
       run_requests E embeddings_create
         (map (map clean) (batches texts batch_size)) e in
     (e', Some vs))
  /\ concat (batches texts batch_size) = texts
  /\ Forall (fun batch => (0 < length batch <= Z.to_nat batch_size)%nat)
       (batches texts batch_size).
Proof.
  intros Hok Hb. split; [|split].
  - replace batch_size with (Z.of_nat (Z.to_nat batch_size)) by lia.
    apply generate_embeddings_batch_requests; [exact Hok | lia].
  - now apply concat_batches.
  - unfold batches, batches_from. apply Forall_forall. intros batch Hin.
    apply list_elem_of_fmap in Hin as [i [-> Hi]].
    apply list_elem_of_In, in_seq in Hi.
    rewrite length_take, length_drop.
    set (b := Z.to_nat batch_size) in *.
    set (n := length texts) in *.
    assert (Hm : (Z.to_nat ((len texts + batch_size - 1) / batch_size) * b
                  < n + b)%nat).
    { unfold len. fold n.
      pose proof (Z.div_mod (Z.of_nat n + batch_size - 1) batch_size
                    ltac:(lia)) as Hdm.
      pose proof (Z.mod_pos_bound (Z.of_nat n + batch_size - 1) batch_size
                    ltac:(lia)) as Hmod.
      assert (0 <= (Z.of_nat n + batch_size - 1) / batch_size)
        by (apply Z.div_pos; lia).
      unfold b. nia. }
    assert ((i + 1) * b <= Z.to_nat ((len texts + batch_size - 1) / batch_size) * b)%nat
      by (apply Nat.mul_le_mono_r; lia).
    nia.
Qed.

(** A service that counts its requests and answers each of them. *)
Definition counting_service (e : nat) (request : list str)
  : nat * option (list vector) :=
  (S e, Some (map toy_vector request)).

Lemma batches_requests_witness :
  generate_embeddings_batch nat counting_service "text-embedding-3-small"
    [py "a"; py "b"; py "c"] 2 0%nat
  = (2%nat, Some [toy_vector (py "a"); toy_vector (py "b"); toy_vector (py "c")]).
Proof.
  assert (Hok : never_raises nat counting_service).
  { intros e req. simpl. eauto. }
  exact (proj1 (batches_are_the_only_requests nat counting_service
                  "text-embedding-3-small" [py "a"; py "b"; py "c"] 2 0%nat
                  Hok eq_refl)).
Defined.

End EmbeddingMore.

Module PineconeClientFacts.
Import PyStr PyStrFacts PyMore PyMoreFacts TextChunker ContextGenerator
  EmbeddingGenerator EmbeddingGeneratorFacts DocumentIndexer PineconeClient.

(** The consecutive groups of [b] elements of a list (the last may be
    shorter). *)
Definition groups {A} (b : nat) (l : list A) : list (list A) :=
  map (fun k => take b (drop (k * b) l))
    (seq 0 (Z.to_nat ((len l + Z.of_nat b - 1) / Z.of_nat b))).

Lemma concat_groups_from {A} (l : list A) (b : nat) :
  forall m k,
    concat (map (fun k => take b (drop (k * b) l)) (seq k m))
    = take (m * b) (drop (k * b) l).
Proof.
  induction m as [|m IH]; intros k; simpl; [reflexivity|].
  rewrite IH, <- take_take_drop, drop_drop.
  replace (k * b + b)%nat with (b + k * b)%nat by lia. reflexivity.
Qed.

Lemma concat_groups {A} (b : nat) (l : list A) :
  (0 < b)%nat -> concat (groups b l) = l.
Proof.
  intros Hb. unfold groups. rewrite concat_groups_from. simpl.
  apply take_ge. unfold len. now apply batches_cover.
Qed.

Lemma groups_sizes {A} (b : nat) (l : list A) :
  (0 < b)%nat ->
  Forall (fun g => (0 < length g <= b)%nat) (groups b l).
Proof.
  intros Hb. unfold groups. apply Forall_forall. intros g Hin.
  apply list_elem_of_fmap in Hin as [i [-> Hi]].
  apply list_elem_of_In, in_seq in Hi.
  rewrite length_take, length_drop.
  set (n := length l) in *. unfold len in Hi. fold n in Hi.
  assert (Hm : (Z.to_nat ((Z.of_nat n + Z.of_nat b - 1) / Z.of_nat b) * b
                < n + b)%nat).
  { pose proof (Z.div_mod (Z.of_nat n + Z.of_nat b - 1) (Z.of_nat b)
                  ltac:(lia)) as Hdm.
    pose proof (Z.mod_pos_bound (Z.of_nat n + Z.of_nat b - 1) (Z.of_nat b)
                  ltac:(lia)) as Hmod.
    assert (0 <= (Z.of_nat n + Z.of_nat b - 1) / Z.of_nat b)
      by (apply Z.div_pos; lia).
    nia. }
  assert ((i + 1) * b
          <= Z.to_nat ((Z.of_nat n + Z.of_nat b - 1) / Z.of_nat b) * b)%nat
    by (apply Nat.mul_le_mono_r; lia).
  nia.
Qed.

Lemma slice_window {A} (l : list A) (b i : nat) :
  slice l (Z.of_nat i * Z.of_nat b) (Z.of_nat i * Z.of_nat b + Z.of_nat b)
  = take b (drop (i * b) l).
Proof.
  unfold slice, len. set (n := length l).
  rewrite !clamp_index_nonneg by lia.
  destruct (decide (n < i * b)%nat) as [Hout|Hin].
  - rewrite !drop_ge by (fold n; lia). rewrite !take_nil. reflexivity.
  - replace (Z.to_nat (Z.min (Z.of_nat i * Z.of_nat b) (Z.of_nat n)))
      with (i * b)%nat by lia.
    destruct (decide ((i + 1) * b <= n)%nat) as [Hle|Hgt].
    + f_equal. lia.
    + rewrite !take_ge; [reflexivity | |];
        rewrite length_drop; fold n; lia.
Qed.

Section Facts.

Variable P : Type.
Variable index_upsert : list VectorRecord -> str -> M P Z.

(** The calls of the index for the batches in order, the counts
    added up; the first call that raises ends the run. *)
Fixpoint send_all (batches : list (list VectorRecord)) (namespace : str)
  (total : Z) : M P Z :=
  match batches with
  | [] => ret total
  | batch :: rest =>
      let* upserted_count := index_upsert batch namespace in
      send_all rest namespace (total + upserted_count)
  end.

Lemma upsert_vectors_call (vectors : list VectorRecord) (namespace : str)
  (w : P) :
  upsert_vectors P index_upsert vectors namespace w
  = index_upsert vectors namespace w.
Proof.
  unfold upsert_vectors, try_except, raise.
  destruct (index_upsert vectors namespace w) as [w' [n|e]]; reflexivity.
Qed.

Lemma upsert_loop_send_all (vectors : list VectorRecord) (b : nat)
  (namespace : str) :
  forall (m k : nat) (total : Z) (w : P),
    upsert_loop P index_upsert vectors (Z.of_nat b) namespace
      (map (fun k => 0 + Z.of_nat k * Z.of_nat b) (seq k m)) total w
    = send_all (map (fun k => take b (drop (k * b) vectors)) (seq k m))
        namespace total w.
Proof.
  induction m as [|m IH]; intros k total w; [reflexivity|].
  simpl seq. simpl map. cbn [upsert_loop send_all]. cbv zeta.
  unfold bind. rewrite upsert_vectors_call.
  rewrite Z.add_0_l, slice_window.
  destruct (index_upsert (take b (drop (k * b) vectors)) namespace w)
    as [w' [n|e]]; [apply IH | reflexivity].
Qed.

Lemma upsert_batch_nat (vectors : list VectorRecord) (b : nat)
  (namespace : str) (w : P) :
  (0 < b)%nat ->
  upsert_batch P index_upsert vectors (Z.of_nat b) namespace w
  = send_all (groups b vectors) namespace 0 w.
Proof.
  intros Hb. unfold upsert_batch, py_range, groups.
  destruct (Z.eqb_spec (Z.of_nat b) 0) as [?|_]; [lia|].
  destruct (Z.ltb_spec 0 (Z.of_nat b)) as [_|?]; [|lia].
  rewrite Z.sub_0_r. apply upsert_loop_send_all.
Qed.

Lemma send_all_counts (namespace : str) :
  (forall batch w, exists w',
      index_upsert batch namespace w = (w', Ok (len batch))) ->
  forall (batches : list (list VectorRecord)) (total : Z) (w : P),
    exists w', send_all batches namespace total w
               = (w', Ok (total + len (concat batches))).
Proof.
  intros Hidx bs. induction bs as [|batch rest IH]; intros total w.
  - exists w. simpl. unfold ret, len. simpl. now rewrite Z.add_0_r.
  - cbn [send_all]. unfold bind.
    destruct (Hidx batch w) as [w1 ->].
    destruct (IH (total + len batch) w1) as [w2 ->].
    exists w2. f_equal. f_equal. simpl. unfold len.
    rewrite length_app. lia.
Qed.

Lemma send_all_stops (namespace : str) (before : list (list VectorRecord))
  (batch : list VectorRecord) (after : list (list VectorRecord)) (e : exn) :
  forall (total total1 : Z) (w w1 w2 : P),
    send_all before namespace total w = (w1, Ok total1) ->
    index_upsert batch namespace w1 = (w2, Raise e) ->
    send_all (before ++ batch :: after) namespace total w = (w2, Raise e).
Proof.
  induction before as [|b0 before IH]; intros total total1 w w1 w2 Hpre Hb.
  - simpl in Hpre. unfold ret in Hpre. injection Hpre as <- <-.
    cbn [app send_all]. unfold bind. now rewrite Hb.
  - cbn [app send_all] in *. unfold bind in *.
    destruct (index_upsert b0 namespace w) as [w' [n|e']]; [|discriminate].
    now apply (IH _ total1 _ w1).
Qed.

End Facts.

(** [upsert_batch] with a positive batch size calls the index once for
    each consecutive group of [batch_size] vectors (the last may be
    shorter), in order, and adds up the counts of the responses: the
    groups make up the list, so every vector is sent exactly once. *)
Theorem upsert_batch_sends_each_vector_once (P : Type)
  (index_upsert : list VectorRecord -> str -> M P Z)
  (vectors : list VectorRecord) (batch_size : Z) (namespace : str) (w : P) :
  0 < batch_size ->
  upsert_batch P index_upsert vectors batch_size namespace w
  = send_all P index_upsert (groups (Z.to_nat batch_size) vectors)
      namespace 0 w
  /\ concat (groups (Z.to_nat batch_size) vectors) = vectors
  /\ Forall (fun g => 0 < len g <= batch_size)
       (groups (Z.to_nat batch_size) vectors).
Proof.
  intros Hb. split; [|split].
  - replace batch_size with (Z.of_nat (Z.to_nat batch_size)) at 1 by lia.
    apply upsert_batch_nat. lia.
  - apply concat_groups. lia.
  - eapply Forall_impl; [apply (groups_sizes (Z.to_nat batch_size)); lia|].
    intros g Hg. unfold len. simpl in Hg. lia.
Qed.

(** An index that counts its calls and reports every vector upserted. *)
Definition counting_index (vectors : list VectorRecord) (namespace : str)
  : M nat Z :=
  fun calls => (S calls, Ok (len vectors)).

Definition three_records : list VectorRecord :=
  map (fun i => {| vr_id := str_of_nat i; vr_values := []; vr_metadata := ∅ |})
    [0; 1; 2]%nat.

Lemma upsert_batch_once_witness :
  upsert_batch nat counting_index three_records 2 (py "ns") 0%nat
  = (2%nat, Ok 3).
Proof.
  exact (proj1 (upsert_batch_sends_each_vector_once nat counting_index
                  three_records 2 (py "ns") 0%nat eq_refl)).
Defined.

(** When the index reports every vector of a call as upserted, the
    total [upsert_batch] returns is the number of vectors. *)
Theorem upsert_batch_counts_every_vector (P : Type)
  (index_upsert : list VectorRecord -> str -> M P Z)
  (vectors : list VectorRecord) (batch_size : Z) (namespace : str) (w : P) :
  0 < batch_size ->
  (forall batch w, exists w',
      index_upsert batch namespace w = (w', Ok (len batch))) ->
  exists w',
    upsert_batch P index_upsert vectors batch_size namespace w
    = (w', Ok (len vectors)).
Proof.
  intros Hb Hidx.
  replace batch_size with (Z.of_nat (Z.to_nat batch_size)) by lia.
  rewrite upsert_batch_nat by lia.
  destruct (send_all_counts P index_upsert namespace Hidx
              (groups (Z.to_nat batch_size) vectors) 0 w) as [w' ->].
  exists w'. rewrite concat_groups by lia. reflexivity.
Qed.

Lemma upsert_batch_counts_witness :
  exists w',
    upsert_batch nat counting_index three_records 2 (py "ns") 0%nat
    = (w', Ok (len three_records)).
Proof.
  apply (upsert_batch_counts_every_vector nat counting_index three_records 2
           (py "ns") 0%nat eq_refl).
  intros batch w. eexists. reflexivity.
Defined.

(** The first call of the index that raises ends [upsert_batch] with
    that exception: the groups before it stay upserted (the state is
    the one the failed call left), the groups after it are not sent. *)
Theorem upsert_batch_stops_at_first_failure (P : Type)
  (index_upsert : list VectorRecord -> str -> M P Z)
  (vectors : list VectorRecord) (batch_size : Z) (namespace : str)
  (before : list (list VectorRecord)) (batch : list VectorRecord)
  (after : list (list VectorRecord)) (e : exn) (total1 : Z) (w w1 w2 : P) :
  0 < batch_size ->
  groups (Z.to_nat batch_size) vectors = before ++ batch :: after ->
  send_all P index_upsert before namespace 0 w = (w1, Ok total1) ->
  index_upsert batch namespace w1 = (w2, Raise e) ->
  upsert_batch P index_upsert vectors batch_size namespace w = (w2, Raise e).
Proof.
  intros Hb Hg Hpre Hfail.
  replace batch_size with (Z.of_nat (Z.to_nat batch_size)) by lia.
  rewrite upsert_batch_nat by lia. rewrite Hg.
  exact (send_all_stops P index_upsert namespace before batch after e
           0 total1 w w1 w2 Hpre Hfail).
Qed.

(** An index that raises on its second call. *)
Definition failing_index (vectors : list VectorRecord) (namespace : str)
  : M nat Z :=
  fun calls =>
    if (calls =? 1)%nat then (S calls, Raise (ServiceError (py "unavailable")))
    else (S calls, Ok (len vectors)).

Lemma upsert_batch_failure_witness :
  upsert_batch nat failing_index three_records 1 (py "ns") 0%nat
  = (2%nat, Raise (ServiceError (py "unavailable"))).
Proof.
  apply (upsert_batch_stops_at_first_failure nat failing_index three_records 1
           (py "ns") [take 1 three_records] (take 1 (drop 1 three_records))
           [drop 2 three_records] _ 1 0%nat 1%nat 2%nat);
    reflexivity.
Defined.

(** A batch size that is not positive sends nothing: zero raises the
    [ValueError] of [range], a negative size makes the range empty and
    [upsert_batch] returns 0, whatever the vectors. *)
Theorem upsert_batch_without_positive_size (P : Type)
  (index_upsert : list VectorRecord -> str -> M P Z)
  (vectors : list VectorRecord) (namespace : str) (w : P) :
  (exists msg,
      upsert_batch P index_upsert vectors 0 namespace w
      = (w, Raise (ValueError msg)))
  /\ forall batch_size,
       batch_size < 0 ->
       upsert_batch P index_upsert vectors batch_size namespace w = (w, Ok 0).
Proof.
  split; [eexists; reflexivity|].
  intros b Hb. unfold upsert_batch, py_range.
  destruct (Z.eqb_spec b 0) as [?|_]; [lia|].
  destruct (Z.ltb_spec 0 b) as [?|_]; [lia|].
  replace (Z.to_nat ((0 - len vectors - b - 1) / - b)) with 0%nat;
    [reflexivity|].
  assert ((0 - len vectors - b - 1) / - b <= 0); [|lia].
  assert (Hlt : 0 - len vectors - b - 1 < - b) by (unfold len; lia).
  destruct (Z.lt_ge_cases (0 - len vectors - b - 1) 0) as [Hneg | Hpos].
  - apply Z.lt_le_incl, Z.div_lt_upper_bound; lia.
  - rewrite Z.div_small; lia.
Qed.

End PineconeClientFacts.

Module PipelineFacts.
Import PyStr PyStrFacts PyMore PyMoreFacts Pipeline EmbeddingMore.

(** *** Replacing *)

Lemma replace_char (a b : ascii) (s : str) :
  replace s [a] [b] = map (fun c => if Ascii.eqb a c then b else c) s.
Proof.
  unfold replace. induction s as [|c s IH]; [reflexivity|].
  cbn [replace_go startswith map]. rewrite andb_true_r.
  change (negb (bool_decide (@None nat = Some 0%nat))) with true.
  cbn [andb]. destruct (Ascii.eqb a c); simpl; now rewrite IH.
Qed.

Lemma replace_go_exhausted (old new s : str) (skip : nat) :
  replace_go old new s skip (Some 0%nat) = drop skip s.
Proof.
  revert skip. induction s as [|c s IH]; intros skip.
  - now destruct skip.
  - destruct skip as [|k]; cbn [replace_go drop].
    + change (negb (bool_decide (Some 0%nat = Some 0%nat))) with false.
      cbn [andb]. rewrite IH. reflexivity.
    + apply IH.
Qed.

(** Replacing the first occurrence of a prefix. *)
Lemma replace_count_prefix (old new rest : str) :
  old <> [] -> replace_count (old ++ rest) old new 1 = new ++ rest.
Proof.
  intros Hold. unfold replace_count.
  destruct old as [|c old]; [congruence|].
  change ((c :: old) ++ rest) with (c :: (old ++ rest)).
  cbn [replace_go].
  change (c :: old ++ rest) with ((c :: old) ++ rest).
  rewrite startswith_app.
  change (negb (bool_decide (Some 1%nat = Some 0%nat))) with true.
  cbn [andb fmap option_fmap option_map Nat.pred].
  rewrite replace_go_exhausted.
  replace (length (c :: old) - 1)%nat with (length old) by (simpl; lia).
  now rewrite drop_app_length.
Qed.

(** *** Paths *)

Definition backslash : ascii := ascii_of_nat 92.

Lemma slashes_map (s : str) :
  slashes s = map (fun c => if Ascii.eqb backslash c then "/"%char else c) s.
Proof. apply (replace_char backslash "/"%char). Qed.

Lemma slashes_app (a b : str) : slashes (a ++ b) = slashes a ++ slashes b.
Proof. rewrite !slashes_map. apply map_app. Qed.

Lemma slashes_no_backslash (s : str) : backslash ∉ slashes s.
Proof.
  rewrite slashes_map. intros H.
  apply list_elem_of_fmap in H as [c [Hc _]].
  destruct (Ascii.eqb backslash c) eqn:E.
  - discriminate.
  - apply Ascii.eqb_neq in E. congruence.
Qed.

Lemma rebase_free (mappings : list (str * str)) (path : str) :
  Forall (fun m => slashes m.1 <> [] /\ backslash ∉ m.2) mappings ->
  backslash ∉ path -> backslash ∉ rebase mappings path.
Proof.
  intros Hm Hp. induction mappings as [|[wp lp] rest IH]; [exact Hp|].
  apply Forall_cons in Hm as [[Hne Hlp] Hm]. simpl in Hne, Hlp.
  cbn [rebase]. destruct (startswith (slashes wp) path) eqn:E;
    [|now apply IH].
  apply startswith_spec in E as [t ->].
  rewrite replace_count_prefix by exact Hne.
  intros H. apply elem_of_app in H as [H | H]; [now apply Hlp|].
  apply Hp. apply elem_of_app. now right.
Qed.

Lemma rebase_unmapped (mappings : list (str * str)) (path : str) :
  Forall (fun m => startswith (slashes m.1) path = false) mappings ->
  rebase mappings path = path.
Proof.
  induction mappings as [|[wp lp] rest IH]; intros H; [reflexivity|].
  apply Forall_cons in H as [H1 H]. simpl in H1.
  cbn [rebase]. rewrite H1. now apply IH.
Qed.

Lemma mappings_cases (P : str * str -> Prop) :
  P (py "\\blumenau.unimed\dfs\APPS", py "/mnt/APPS") ->
  P (py "\\blumenau.unimed\dfs\Qualidade", py "/mnt/Qualidade") ->
  P (py "R:\Qualidade", py "/mnt/Qualidade") ->
  forall m, m ∈ MAPPINGS -> P m.
Proof.
  intros H1 H2 H3 m Hin. unfold MAPPINGS in Hin.
  apply elem_of_cons in Hin as [-> | Hin]; [exact H1|].
  apply elem_of_cons in Hin as [-> | Hin]; [exact H2|].
  apply elem_of_cons in Hin as [-> | Hin]; [exact H3|].
  now apply elem_of_nil in Hin.
Qed.

Lemma mappings_well_formed :
  Forall (fun m : str * str => slashes m.1 <> [] /\ backslash ∉ m.2) MAPPINGS.
Proof.
  apply Forall_forall. apply mappings_cases; simpl; (split;
    [ intros E; apply (f_equal (@length _)) in E; vm_compute in E;
      discriminate
    | intros H; apply list_elem_of_In in H;
      apply (In_nth_error _ _) in H as [n H];
      do 20 (destruct n as [|n]; [vm_compute in H; discriminate|]);
      vm_compute in H; discriminate ]).
Qed.

Lemma rebase_first (x : str) :
  rebase MAPPINGS (slashes (py "\\blumenau.unimed\dfs\APPS") ++ x)
  = py "/mnt/APPS" ++ x.
Proof.
  unfold MAPPINGS. cbn [rebase]. rewrite startswith_app.
  apply replace_count_prefix.
  intros E. apply (f_equal (@length _)) in E. vm_compute in E. discriminate.
Qed.

Lemma rebase_second (x : str) :
  rebase MAPPINGS (slashes (py "\\blumenau.unimed\dfs\Qualidade") ++ x)
  = py "/mnt/Qualidade" ++ x.
Proof.
  unfold MAPPINGS. cbn [rebase].
  assert (H1 : startswith (slashes (py "\\blumenau.unimed\dfs\APPS"))
                 (slashes (py "\\blumenau.unimed\dfs\Qualidade") ++ x)
               = false) by (vm_compute; reflexivity).
  rewrite H1, startswith_app.
  apply replace_count_prefix.
  intros E. apply (f_equal (@length _)) in E. vm_compute in E. discriminate.
Qed.

Lemma rebase_third (x : str) :
  rebase MAPPINGS (slashes (py "R:\Qualidade") ++ x)
  = py "/mnt/Qualidade" ++ x.
Proof.
  unfold MAPPINGS. cbn [rebase].
  assert (H1 : startswith (slashes (py "\\blumenau.unimed\dfs\APPS"))
                 (slashes (py "R:\Qualidade") ++ x) = false)
    by (vm_compute; reflexivity).
  assert (H2 : startswith (slashes (py "\\blumenau.unimed\dfs\Qualidade"))
                 (slashes (py "R:\Qualidade") ++ x) = false)
    by (vm_compute; reflexivity).
  rewrite H1, H2, startswith_app.
  apply replace_count_prefix.
  intros E. apply (f_equal (@length _)) in E. vm_compute in E. discriminate.
Qed.

(** [converte_path_to_linux]: a path under one of the three mapped
    roots is moved under the root's mount point, the rest of the path
    kept with its backslashes turned into slashes; a path under none of
    them only has its backslashes turned; the result never holds a
    backslash. *)
Theorem converte_path_rebases_mapped_roots :
  (forall (mapping : str * str) (rest : str),
      mapping ∈ MAPPINGS ->
      converte_path_to_linux (mapping.1 ++ rest)
      = mapping.2 ++ slashes rest)
  /\ (forall win_path,
         Forall (fun m => startswith (slashes m.1) (slashes win_path) = false)
           MAPPINGS ->
         converte_path_to_linux win_path = slashes win_path)
  /\ (forall win_path, backslash ∉ converte_path_to_linux win_path).
Proof.
  split; [|split].
  - intros mapping rest Hin. revert mapping Hin.
    apply mappings_cases; unfold converte_path_to_linux; cbn [fst snd];
      rewrite slashes_app.
    + apply rebase_first.
    + apply rebase_second.
    + apply rebase_third.
  - intros win_path H. now apply rebase_unmapped.
  - intros win_path.
    apply rebase_free; [apply mappings_well_formed|apply slashes_no_backslash].
Qed.

(** *** Chunk ids *)

Lemma slice_from_zero {A} (l : list A) (j : Z) :
  0 <= j -> slice l 0 j = take (Z.to_nat j) l.
Proof.
  intros Hj. unfold slice, len.
  rewrite !EmbeddingGeneratorFacts.clamp_index_nonneg by lia.
  replace (Z.min 0 (Z.of_nat (length l))) with 0 by lia.
  rewrite Z.sub_0_r. change (drop (Z.to_nat 0) l) with l.
  destruct (Z.le_gt_cases j (Z.of_nat (length l))).
  - rewrite Z.min_l by lia. reflexivity.
  - rewrite Z.min_r by lia. rewrite !take_ge by lia. reflexivity.
Qed.

(** The number a string of digits writes (leading zeros allowed). *)
Definition digits_value (s : str) : option nat :=
  Nat.of_uint <$> NilEmpty.uint_of_string (string_of_list_ascii s).

Lemma digits_value_str_of_nat (n : nat) :
  digits_value (str_of_nat n) = Some n.
Proof.
  unfold digits_value, str_of_nat.
  rewrite string_of_list_ascii_of_string.
  pose proof (to_uint_nonnil n) as Hn.
  unfold NilZero.string_of_uint.
  destruct (Nat.to_uint n) eqn:E; try congruence;
    rewrite <- E, NilEmpty.usu; simpl;
    now rewrite DecimalNat.Unsigned.of_to.
Qed.

Lemma digits_value_zeros (k : nat) (s : str) :
  is_Some (digits_value s) ->
  digits_value (replicate k "0"%char ++ s) = digits_value s.
Proof.
  intros Hs. induction k as [|k IH]; [reflexivity|].
  unfold digits_value in *. simpl.
  destruct (NilEmpty.uint_of_string
              (string_of_list_ascii (replicate k "0"%char ++ s))) as [d|];
    [|rewrite <- IH in Hs; destruct Hs; discriminate].
  simpl in *. rewrite <- IH. reflexivity.
Qed.

Lemma zfill_digits (n width : nat) :
  zfill (str_of_nat n) width
  = replicate (width - length (str_of_nat n)) "0"%char ++ str_of_nat n.
Proof.
  unfold zfill. cbv zeta.
  pose proof (str_of_nat_digits n) as Hd.
  destruct (str_of_nat n) as [|c rest] eqn:E;
    [now rewrite app_nil_r|].
  apply Forall_cons in Hd as [[Hc1 Hc2] _].
  replace (Ascii.eqb c "+"%char || Ascii.eqb c "-"%char) with false;
    [reflexivity|].
  symmetry. apply orb_false_iff. split; apply Ascii.eqb_neq; intros ->;
    vm_compute in Hc1; lia.
Qed.

(** [chunk_id]: at most 128 characters; a document id of 128
    characters or more gives every chunk the same id, the first 128
    characters of the document id; when the id is not truncated,
    different indices (not negative) give different ids. *)
Theorem chunk_id_length_and_collisions (doc_id : str) :
  (forall i, len (chunk_id doc_id i) <= 128)
  /\ (128 <= len doc_id -> forall i, chunk_id doc_id i = take 128 doc_id)
  /\ (forall i j,
         0 <= i -> 0 <= j ->
         len doc_id + 2 + Z.max 5 (len (str_of_int i)) <= 128 ->
         len doc_id + 2 + Z.max 5 (len (str_of_int j)) <= 128 ->
         chunk_id doc_id i = chunk_id doc_id j -> i = j).
Proof.
  unfold chunk_id. split; [|split].
  - intros i. rewrite slice_from_zero by lia. unfold len.
    rewrite length_take. lia.
  - intros Hlen i. rewrite slice_from_zero by lia.
    rewrite take_app_le; [reflexivity | unfold len in Hlen; lia].
  - intros i j Hi Hj Hli Hlj.
    assert (Hfull : forall k, 0 <= k ->
              len doc_id + 2 + Z.max 5 (len (str_of_int k)) <= 128 ->
              slice (doc_id ++ py "-c" ++ zfill (str_of_int k) 5) 0 128
              = doc_id ++ py "-c"
                ++ replicate (5 - length (str_of_nat (Z.to_nat k))) "0"%char
                ++ str_of_nat (Z.to_nat k)).
    { intros k Hk Hl. unfold str_of_int in *.
      destruct (Z.ltb_spec k 0) as [?|_]; [lia|].
      rewrite zfill_digits, slice_from_zero by lia.
      apply take_ge. unfold len in Hl.
      rewrite !length_app, length_replicate. simpl. lia. }
    rewrite (Hfull i Hi Hli), (Hfull j Hj Hlj). intros H.
    apply app_inv_head in H. apply app_inv_head in H.
    apply (f_equal digits_value) in H.
    rewrite !digits_value_zeros, !digits_value_str_of_nat in H
      by (rewrite digits_value_str_of_nat; eauto).
    injection H as H. lia.
Qed.

End PipelineFacts.

Module RunIndexerFacts.
Import PyStr DocumentIndexer RunIndexer.

(** The command line accepts [--doc-id 0] and [--search ""], but
    [main] tests the two arguments by truth value: with one of them as
    the command given, no branch is taken, nothing is run and the exit
    status is 0.  In every other case the command given is the one
    dispatched. *)
Theorem falsy_argument_runs_no_command (args : Args) :
  one_command args ->
  (dispatch args = None
   <-> arg_doc_id args = Some 0 \/ arg_search args = Some [])
  /\ (arg_doc_id args = Some 0 \/ arg_search args = Some [] ->
      forall (W : Type) (run : Command -> M W unit) (w : W),
        main run args w = (w, 0)).
Proof.
  intros Hone.
  assert (Hiff : dispatch args = None
                 <-> arg_doc_id args = Some 0 \/ arg_search args = Some []).
  { destruct args as [a d s t]. unfold one_command, dispatch in *.
    cbn [arg_all arg_doc_id arg_search arg_stats] in *.
    destruct a, d as [i|], s as [q|], t; try lia;
      try (destruct (Z.eqb_spec i 0) as [->|Hi]); try destruct q;
      cbn [negb nonempty];
      split; intros H; try discriminate; auto;
      destruct H as [H | H]; congruence. }
  split; [exact Hiff|].
  intros H W run w. unfold main. now rewrite (proj2 Hiff H).
Qed.

Lemma falsy_argument_witness :
  dispatch {| arg_all := false; arg_doc_id := Some 0; arg_search := None;
              arg_stats := false |} = None.
Proof.
  apply (falsy_argument_runs_no_command
           {| arg_all := false; arg_doc_id := Some 0; arg_search := None;
              arg_stats := false |} eq_refl).
  now left.
Defined.

End RunIndexerFacts.

Module ContextGeneratorMore.
Import PyStr PyStrFacts PyMore PyMoreFacts TextChunker ContextGenerator.

(** *** What is read from a reply *)

Lemma upto_last_brace_None (s : str) :
  upto_last_brace s = None <-> "}"%char ∉ s.
Proof.
  induction s as [|c s IH]; simpl.
  - split; [intros _ H; now apply elem_of_nil in H | reflexivity].
  - destruct (upto_last_brace s) as [r|].
    + split; [discriminate|]. intros H. exfalso.
      assert (Hs : "}"%char ∉ s) by (intros Hin; apply H; now right).
      apply IH in Hs. discriminate.
    + destruct (Ascii.eqb_spec c "}"%char) as [->|Hc].
      * split; [discriminate|]. intros H. exfalso. apply H. left.
      * split; [|reflexivity]. intros _ H.
        apply elem_of_cons in H as [H | H]; [congruence|].
        now apply (proj1 IH).
Qed.

Lemma upto_last_brace_Some (s r : str) :
  upto_last_brace s = Some r <->
  exists m b, s = m ++ "}"%char :: b /\ r = m ++ ["}"%char] /\ "}"%char ∉ b.
Proof.
  revert r. induction s as [|c s IH]; intros r; simpl.
  - split; [discriminate|]. intros (m & b & H & _). now destruct m.
  - destruct (upto_last_brace s) as [r'|] eqn:E.
    + split.
      * intros [= <-]. destruct (proj1 (IH r') eq_refl) as (m & b & -> & -> & Hb).
        exists (c :: m), b. auto.
      * intros (m & b & Hs & -> & Hb). destruct m as [|c' m].
        -- simpl in Hs. injection Hs as -> ->.
           apply upto_last_brace_None in Hb. congruence.
        -- simpl in Hs. injection Hs as -> ->.
           assert (Hr : Some r' = Some (m ++ ["}"%char]))
             by (apply IH; eauto).
           injection Hr as ->. reflexivity.
    + apply upto_last_brace_None in E.
      destruct (Ascii.eqb_spec c "}"%char) as [->|Hc].
      * split.
        -- intros [= <-]. exists [], s. auto.
        -- intros (m & b & Hs & -> & Hb). destruct m as [|c' m].
           ++ reflexivity.
           ++ simpl in Hs. injection Hs as <- ->. exfalso. apply E.
              apply elem_of_app. right. left.
      * split; [discriminate|].
        intros (m & b & Hs & -> & Hb). destruct m as [|c' m].
        -- simpl in Hs. congruence.
        -- simpl in Hs. injection Hs as -> ->. exfalso. apply E.
           apply elem_of_app. right. left.
Qed.

(** What [_call_anthropic] hands to the JSON parser: the part of the
    reply from its first opening brace to its last closing brace, the
    text before and after dropped; a reply without an opening brace
    followed by a closing one gives nothing to parse. *)
Theorem search_braces_first_to_last (content r : str) :
  search_braces content = Some r <->
  exists a m b,
    content = a ++ "{"%char :: m ++ "}"%char :: b
    /\ r = "{"%char :: m ++ ["}"%char]
    /\ ("{"%char ∉ a) /\ ("}"%char ∉ b).
Proof.
  revert r. induction content as [|c s IH]; intros r; simpl.
  - split; [discriminate|]. intros (a & m & b & H & _). now destruct a.
  - destruct (Ascii.eqb_spec c "{"%char) as [->|Hc].
    + split.
      * destruct (upto_last_brace s) as [r'|] eqn:E; [|discriminate].
        intros [= <-]. apply upto_last_brace_Some in E as (m & b & -> & -> & Hb).
        exists [], m, b. repeat split; auto. intros H. now apply elem_of_nil in H.
      * intros (a & m & b & Hs & -> & Ha & Hb). destruct a as [|c' a].
        -- simpl in Hs. injection Hs as ->.
           rewrite (proj2 (upto_last_brace_Some _ (m ++ ["}"%char])));
             [reflexivity | eauto].
        -- simpl in Hs. injection Hs as <- _. exfalso. apply Ha. left.
    + rewrite IH. split.
      * intros (a & m & b & -> & -> & Ha & Hb).
        exists (c :: a), m, b. repeat split; auto.
        intros H. apply elem_of_cons in H as [H | H]; [congruence | auto].
      * intros (a & m & b & Hs & -> & Ha & Hb). destruct a as [|c' a].
        -- simpl in Hs. congruence.
        -- simpl in Hs. injection Hs as -> ->.
           exists a, m, b. repeat split; auto.
           intros H. apply Ha. now right.
Qed.

(** *** What enrichment keeps *)

(** [t] occurs in [e]. *)
Definition occurs_in (t e : str) : Prop :=
  exists before after, e = before ++ t ++ after.

Lemma occurs_in_here (t after : str) : occurs_in t (t ++ after).
Proof. now exists [], after. Qed.

Lemma occurs_in_later (t p e : str) : occurs_in t e -> occurs_in t (p ++ e).
Proof.
  intros (before & after & ->). exists (p ++ before), after.
  now rewrite <- app_assoc.
Qed.

Section Generator.

Variable W : Type.
Variable openai_chat : W -> str -> W * option str.
Variable anthropic_messages : W -> str -> W * option str.
Variable eval_content : str -> option pyval.
Variable json_loads : str -> option pyval.
Variable str_of_value : pyval -> str.
Variable prompt_default prompt_detailed prompt_technical : str -> str -> str.
Variable use_provider : string.

Abbreviation enrich :=
  (generate_context_for_chunk W openai_chat anthropic_messages eval_content
     json_loads str_of_value prompt_default prompt_detailed prompt_technical
     use_provider).
Abbreviation enrich_all :=
  (generate_contexts_batch W openai_chat anthropic_messages eval_content
     json_loads str_of_value prompt_default prompt_detailed prompt_technical
     use_provider).

Definition keeps_chunk (chunk : Chunk) (o : EnrichedObject) : Prop :=
  obj_original_chunk o = chunk
  /\ occurs_in (TextChunker.text chunk) (obj_enhanced_text o).

Lemma enhanced_text_keeps (chunk : Chunk) (context : pyval) (e : str) :
  _create_enhanced_text str_of_value chunk context = Some e ->
  occurs_in (TextChunker.text chunk) e.
Proof.
  unfold _create_enhanced_text.
  destruct (value_get context "contextual_summary" (PStr [])) as [v1|];
    [|discriminate].
  destruct (value_get context "topic" (PStr [])) as [v2|]; [|discriminate].
  destruct (value_get context "key_concepts" (PList [])) as [v3|];
    [|discriminate].
  destruct (value_get context "questions" (PList [])) as [v4|];
    [|discriminate].
  destruct (value_get context "keywords" (PList [])) as [v5|];
    [|discriminate].
  destruct (join_value (py ", ") v3) as [t3|]; [|discriminate].
  destruct (question_lines str_of_value v4) as [t4|]; [|discriminate].
  destruct (join_value (py ", ") v5) as [t5|]; [|discriminate].
  intros H. apply (inj Some) in H. subst e.
  do 15 apply occurs_in_later. apply occurs_in_here.
Qed.

Lemma build_enriched_keeps (chunk : Chunk) (result : pyval)
  (o : EnrichedObject) :
  build_enriched str_of_value chunk result = Some o -> keeps_chunk chunk o.
Proof.
  unfold build_enriched.
  destruct (_create_enhanced_text str_of_value chunk result) as [e|] eqn:E;
    [|discriminate].
  apply enhanced_text_keeps in E.
  destruct result; simpl; try discriminate.
  intros [= <-]. split; [reflexivity | exact E].
Qed.

Lemma fallback_keeps (chunk : Chunk) : keeps_chunk chunk (fallback_object chunk).
Proof.
  split; [reflexivity|]. exists [], []. simpl. now rewrite app_nil_r.
Qed.

Lemma enrich_keeps (chunk : Chunk) (dc : option str) (t : string) (w : W) :
  keeps_chunk chunk (enrich chunk dc t w).2.
Proof.
  unfold generate_context_for_chunk. cbv zeta.
  destruct (call_llm _ _ _ _ _ _ _ _) as [w' [r|]]; simpl;
    [|apply fallback_keeps].
  destruct (build_enriched str_of_value chunk r) as [o|] eqn:E; simpl;
    [exact (build_enriched_keeps chunk r o E) | apply fallback_keeps].
Qed.

Lemma enrich_all_keeps (chunks : list Chunk) (dc : option str) (t : string) :
  forall w, Forall2 keeps_chunk chunks (enrich_all chunks dc t w).2.
Proof.
  induction chunks as [|c chunks IH]; intros w; simpl; [constructor|].
  pose proof (enrich_keeps c dc t w) as Hc.
  destruct (enrich c dc t w) as [w1 ec]. specialize (IH w1).
  destruct (enrich_all chunks dc t w1) as [w2 ecs].
  constructor; assumption.
Qed.

End Generator.

(** Enrichment loses no chunk and no text: the batch returns one
    object per chunk, in order, each holding its chunk unchanged and an
    [enhanced_text] that contains the chunk's text verbatim, whatever
    value the reply of the language model was read as (a dict with
    fields of any type, or anything else) and whether or not the call
    failed. *)
Theorem enrichment_keeps_every_chunk (W : Type)
  (openai_chat anthropic_messages : W -> str -> W * option str)
  (eval_content json_loads : str -> option pyval)
  (str_of_value : pyval -> str)
  (prompt_default prompt_detailed prompt_technical : str -> str -> str)
  (use_provider : string) (chunks : list Chunk) (doc_context : option str)
  (template : string) (w : W) :
  let enriched :=
    (generate_contexts_batch W openai_chat anthropic_messages eval_content
       json_loads str_of_value prompt_default prompt_detailed prompt_technical
       use_provider chunks doc_context template w).2 in
  map obj_original_chunk enriched = chunks
  /\ Forall
       (fun o =>
          exists before after,
            obj_enhanced_text o
            = before ++ TextChunker.text (obj_original_chunk o) ++ after)
       enriched.
Proof.
  cbv zeta.
  pose proof (enrich_all_keeps W openai_chat anthropic_messages eval_content
                json_loads str_of_value prompt_default prompt_detailed
                prompt_technical use_provider chunks doc_context template w)
    as H.
  induction H as [|c ec cs ecs [Ho Ht] _ [IH1 IH2]]; [split; constructor|].
  split; simpl.
  - now rewrite Ho, IH1.
  - constructor; [now rewrite Ho | exact IH2].
Qed.

(** *** The sample of a document that is summarised *)

(** The text put in the summary prompt holds at most 10005 characters:
    a document of at most 10000 characters whole, a longer one as its
    first 5000 characters, a line with three dots and its last 5000
    characters. *)
Theorem summary_sample_is_bounded (full_text : str) :
  len (text_sample full_text) <= 10005
  /\ (len full_text <= 10000 -> text_sample full_text = full_text)
  /\ (10000 < len full_text ->
      text_sample full_text
      = take 5000 full_text ++ [LF] ++ py "..." ++ [LF]
        ++ drop (length full_text - 5000) full_text).
Proof.
  unfold text_sample.
  destruct (Z.ltb_spec 10000 (len full_text)) as [Hlong | Hshort].
  - assert (Hs : slice full_text 0 5000 = take 5000 full_text)
      by (now rewrite PipelineFacts.slice_from_zero by lia).
    rewrite Hs.
    replace (Z.to_nat (len full_text - 5000)) with (length full_text - 5000)%nat
      by (unfold len; lia).
    split; [|split; [lia | reflexivity]].
    unfold len in *. rewrite !length_app, length_take, length_drop.
    change (length [LF]) with 1%nat. change (length (py "...")) with 3%nat.
    lia.
  - split; [lia|]. split; [reflexivity | lia].
Qed.

End ContextGeneratorMore.

Module PipelineStagesFacts.
Import PyStr PyStrFacts PyMore PyMoreFacts TextChunker TextChunkerFacts
  TextChunkerMore ContextGenerator EmbeddingGenerator EmbeddingGeneratorFacts
  EmbeddingMore DocumentIndexer PineconeClient PineconeClientFacts.

(** [index_document] on a document whose text is not empty but
    whitespace only, with this chunker, this embedding generator and
    this index client as its stages: the document is fetched (and
    summarised when the language model is used), the chunker returns no
    chunk, no request goes to the embedding service and none to the
    index, the status becomes [indexed], and the statistics returned
    count 0 chunks, 0 vectors and 0 tokens.  The state after the run is
    the one the fetch, the summary and the status update left. *)
Theorem blank_document_is_indexed_empty (W : Type)
  (fetch_document_by_id : pyval -> M W (option (gmap string pyval)))
  (update_document_status : pyval -> str -> option str -> M W bool)
  (now_isoformat : W -> str)
  (chunk_document : str -> str -> gmap string pyval -> M W (list Chunk))
  (generate_document_summary : str -> W -> W * str)
  (generate_contexts_batch :
     list Chunk -> option str -> W -> W * list EnrichedChunk)
  (create_vectors_batch : list EnrichedChunk -> bool -> M W (list VectorRecord))
  (format_value : pyval -> str) (use_llm_context : bool)
  (count_tokens : str -> nat) (settings : ChunkingSettings)
  (strategy : ChunkStrategy)
  (embeddings_create : W -> list str -> W * option (list vector))
  (model : string) (index_upsert : list VectorRecord -> str -> M W Z)
  (doc_id : pyval) (text_field : string) (namespace : str)
  (update_oracle_status : bool) (document : gmap string pyval) (text : str)
  (w w1 w2 w3 : W) (updated : bool) :
  (forall text doc md chunks w,
      TextChunker.chunk_document count_tokens settings (length text) strategy
        text doc (Some md) = Some chunks ->
      chunk_document text doc md w = (w, Ok chunks)) ->
  (forall doc_context w, generate_contexts_batch [] doc_context w = (w, [])) ->
  (forall ecs use w w' rs,
      EmbeddingGenerator.create_vectors_batch W embeddings_create model ecs
        use w = (w', Some rs) ->
      create_vectors_batch ecs use w = (w', Ok rs)) ->
  fetch_document_by_id doc_id w = (w1, Ok (Some document)) ->
  document !! text_field = Some (PStr text) ->
  text <> [] ->
  whitespace_only text = true ->
  (strategy = FIXED_SIZE ->
   0 < chunk_size settings \/ chunk_overlap settings < chunk_size settings) ->
  w2 = (if use_llm_context then (generate_document_summary text w1).1
        else w1) ->
  (if update_oracle_status
   then update_document_status doc_id (py "indexed")
          (Some (now_isoformat w2)) w2
   else (w2, Ok true)) = (w3, Ok updated) ->
  index_document W fetch_document_by_id update_document_status
    (upsert_batch W index_upsert) now_isoformat chunk_document
    generate_document_summary generate_contexts_batch create_vectors_batch
    format_value use_llm_context doc_id text_field namespace
    update_oracle_status w
  = (w3, Ok {| ds_doc_id := doc_id;
               ds_chunks := 0;
               ds_vectors_upserted := 0;
               ds_total_tokens := 0;
               ds_use_llm_context := use_llm_context |}).
Proof.
  intros Hchunker Hcontexts Hvectors Hfetch Hdoc Htext Hblank Hprogress
    Hw2 Hupdate.
  assert (Hchunks : forall md w,
            chunk_document text (format_value doc_id) md w = (w, Ok [])).
  { intros md w0. apply Hchunker.
    apply chunk_document_blank_returns; [exact Hblank|].
    intros Hs. right. now apply Hprogress. }
  assert (Hrecords : forall use w0, create_vectors_batch [] use w0 = (w0, Ok [])).
  { intros use w0. apply Hvectors. reflexivity. }
  assert (Hupsert : forall w0,
            upsert_batch W index_upsert [] 100 namespace w0 = (w0, Ok 0))
    by reflexivity.
  unfold index_document, try_except, index_document_body, bind.
  rewrite Hfetch.
  destruct (decide (document = ∅)) as [-> | _];
    [rewrite lookup_empty in Hdoc; discriminate|].
  rewrite Hdoc.
  change (default (PStr []) (Some (PStr text))) with (PStr text).
  cbn [truthy]. replace (nonempty text) with true by (now destruct text).
  cbn [negb]. cbv beta iota.
  destruct use_llm_context.
  - unfold lift.
    destruct (generate_document_summary text w1) as [w2' summary] eqn:Hsum.
    simpl in Hw2. subst w2'. cbv beta iota zeta.
    rewrite Hchunks. cbv beta iota zeta.
    rewrite Hcontexts. cbv beta iota zeta.
    rewrite Hrecords. cbv beta iota zeta. rewrite Hupsert.
    cbv beta iota zeta.
    destruct update_oracle_status;
      [rewrite Hupdate | unfold ret in *; injection Hupdate as <- _];
      reflexivity.
  - unfold ret at 1. subst w2. cbv beta iota zeta.
    rewrite Hchunks. unfold ret at 1. cbv beta iota zeta.
    change (map basic_chunk []) with (@nil EnrichedChunk).
    rewrite Hrecords. cbv beta iota zeta. rewrite Hupsert.
    cbv beta iota zeta.
    destruct update_oracle_status;
      [rewrite Hupdate | unfold ret in *; injection Hupdate as <- _];
      reflexivity.
Qed.

(** A source whose document holds three spaces as its text. *)
Definition blank_document : gmap string pyval :=
  <["content" := PStr (py "   ")]> (<["id" := PInt 9]> ∅).

Definition blank_fetch (id : pyval) : M nat (option (gmap string pyval)) :=
  fun requests => (requests, Ok (Some blank_document)).

Lemma blank_document_witness :
  index_document nat blank_fetch
    (fun _ _ _ requests => (requests, Ok true))
    (upsert_batch nat counting_index) (fun _ => py "2025-01-01")
    (fun text doc md requests =>
       match TextChunker.chunk_document word_tokens (example_settings 5 2)
               (length text) FIXED_SIZE text doc (Some md) with
       | Some chunks => (requests, Ok chunks)
       | None => (requests, Raise (ServiceError (py "no result")))
       end)
    (fun _ requests => (requests, []))
    (fun chunks _ requests => (requests, map fallback_chunk chunks))
    (fun ecs use requests =>
       match EmbeddingGenerator.create_vectors_batch nat counting_service
               "text-embedding-3-small" ecs use requests with
       | (requests', Some rs) => (requests', Ok rs)
       | (requests', None) => (requests', Raise (ServiceError (py "batch")))
       end)
    (fun _ => py "9") false (PInt 9) "content" (py "ns") true 0%nat
  = (0%nat, Ok {| ds_doc_id := PInt 9;
                  ds_chunks := 0;
                  ds_vectors_upserted := 0;
                  ds_total_tokens := 0;
                  ds_use_llm_context := false |}).
Proof.
  apply (blank_document_is_indexed_empty nat blank_fetch _ _ _ _ _ _ _ false
           word_tokens (example_settings 5 2) FIXED_SIZE counting_service
           "text-embedding-3-small" counting_index (PInt 9) "content"
           (py "ns") true blank_document (py "   ") 0%nat 0%nat 0%nat 0%nat
           true).
  - intros text doc md chunks w H. now rewrite H.
  - reflexivity.
  - intros ecs use w w' rs H. now rewrite H.
  - reflexivity.
  - reflexivity.
  - discriminate.
  - reflexivity.
  - intros _. left. reflexivity.
  - reflexivity.
  - reflexivity.
Defined.



End PipelineStagesFacts.

